(** * Shallow embedding of jaxspec's spectral-model graph ([jaxspec/model/abc.py])

    The operation graph of a [SpectralModel] is a networkx [DiGraph].  We
    model it as an ordered association list of nodes (networkx keeps the
    insertion order of its node dictionary) and a list of edges.  Flux
    arithmetic (jax.numpy on float arrays) is modelled over the reals [R];
    a jax array of one dimension is a [list R].  A Python exception is [None]
    in the [option] results. *)

From Stdlib Require Import Reals Lra Lia List String Ascii Bool Arith PeanoNat DecimalNat
Permutation.
Import ListNotations.
Local Open Scope R_scope.

(** ** Node identifiers: [str(uuid4())] or the sink ["out"] *)

Inductive nid : Type :=
| Out
| Uid (u : nat).

Definition nid_eqb (a b : nid) : bool :=
  match a, b with
  | Out, Out => true
  | Uid x, Uid y => Nat.eqb x y
  | _, _ => false
  end.

(** ** Components and graph nodes *)

(** A component class ([ModelComponent] subclass) together with the haiku
    module it instantiates at evaluation time: [cname] is [__name__],
    [ctype] is the class attribute [type], [continuum] and
    [emission_lines] are the module's methods under the parameter values of
    the current [apply] (evaluated element-wise on jax arrays). *)
Record component : Type := mkComponent {
  cname : string;
  ctype : string;
  continuum : R -> R;
  emission_lines : R -> R -> R * R
}.

(** The attribute dictionary of a node, by its ["type"] attribute. *)
Inductive node : Type :=
| NComponent (c : component) (name : string) (kwargs : list (string * string))
| NOperation (operation_type : string) (function : R -> R -> R)
             (operation_label : string)
| NOut.

Record graph : Type := mkGraph {
  gnodes : list (nid * node);
  gedges : list (nid * nid)
}.

Fixpoint lookup {A : Type} (k : nid) (l : list (nid * A)) : option A :=
  match l with
  | [] => None
  | (k', a) :: l' => if nid_eqb k k' then Some a else lookup k l'
  end.

Definition has_edge (g : graph) (u v : nid) : bool :=
  existsb (fun e => nid_eqb (fst e) u && nid_eqb (snd e) v) (gedges g).

(** [G.predecessors(v)] and [G.in_edges(v)]: every graph a model holds is
    a [copy()] (or relabelled copy), which inserts edges source by source in
    node order, so predecessors come in node order. *)
Definition predecessors (g : graph) (v : nid) : list nid :=
  map fst (filter (fun p => has_edge g (fst p) v) (gnodes g)).

Definition in_degree (g : graph) (v : nid) : nat := List.length (predecessors g v).

(** [G.successors(u)] in edge order. *)
Definition successors (g : graph) (u : nid) : list nid :=
  map snd (filter (fun e => nid_eqb (fst e) u) (gedges g)).

(** [node.get("component_type")] and [node.get("operation_type")]. *)
Definition get_component_type (n : option node) : option string :=
  match n with Some (NComponent c _ _) => Some (ctype c) | _ => None end.

Definition get_operation_type (n : option node) : option string :=
  match n with Some (NOperation t _ _) => Some t | _ => None end.

Definition ostr_eqb (a : option string) (s : string) : bool :=
  match a with Some t => String.eqb t s | None => false end.

(** ** Strings *)

(** [str.lower()] on ASCII. *)
Definition lower_ascii (c : ascii) : ascii :=
  let n := nat_of_ascii c in
  if (65 <=? n)%nat && (n <=? 90)%nat then ascii_of_nat (n + 32) else c.

Fixpoint lower (s : string) : string :=
  match s with
  | EmptyString => EmptyString
  | String c s' => String (lower_ascii c) (lower s')
  end.

(** [str(n)] for a natural number: its decimal digits. *)
Fixpoint uint_to_string (d : Decimal.uint) : string :=
  match d with
  | Decimal.Nil => EmptyString
  | Decimal.D0 d' => String "0" (uint_to_string d')
  | Decimal.D1 d' => String "1" (uint_to_string d')
  | Decimal.D2 d' => String "2" (uint_to_string d')
  | Decimal.D3 d' => String "3" (uint_to_string d')
  | Decimal.D4 d' => String "4" (uint_to_string d')
  | Decimal.D5 d' => String "5" (uint_to_string d')
  | Decimal.D6 d' => String "6" (uint_to_string d')
  | Decimal.D7 d' => String "7" (uint_to_string d')
  | Decimal.D8 d' => String "8" (uint_to_string d')
  | Decimal.D9 d' => String "9" (uint_to_string d')
  end.

Definition str_nat (n : nat) : string := uint_to_string (Nat.to_uint n).

(** [sep.join(l)]. *)
Fixpoint join (sep : string) (l : list string) : string :=
  match l with
  | [] => EmptyString
  | [s] => s
  | s :: l' => s ++ sep ++ join sep l'
  end.

(** Python slicing [s[1:-1]]. *)
Definition strip_outer (s : string) : string :=
  substring 1 (String.length s - 2) s.

(** ** Graph builder: [SpectralModel.from_component] and [compose] *)

(** The graph built by [from_component(component, **kwargs)] with
    [node_id = str(uuid4())] written [Uid u]: the component node (named
    [component.__name__.lower()]) and the sink ["out"], joined by one edge.
    The ["params"] and ["depth"] attributes (haiku initial parameters, layout
    depth) play no part in the embedding. *)
Definition from_component (u : nat) (c : component)
  (kwargs : list (string * string)) : graph :=
  mkGraph [(Uid u, NComponent c (lower (cname c)) kwargs); (Out, NOut)]
          [(Uid u, Out)].

(** What [from_component] prints: its [lam_func] is run once by
    [hk.transform(lam_func).init]; for a component type that is neither
    additive nor multiplicative it prints a message and returns [None]. *)
Definition from_component_output (c : component) : list string :=
  if String.eqb (ctype c) "additive"%string then []
  else if String.eqb (ctype c) "multiplicative"%string then []
  else ["Some components are not working at this stage"%string].

Definition mem_node (v : nid) (l : list (nid * node)) : bool :=
  existsb (fun p => nid_eqb (fst p) v) l.

Definition edge_eqb (e f : nid * nid) : bool :=
  nid_eqb (fst e) (fst f) && nid_eqb (snd e) (snd f).

(** [nx.compose(G, H)]: the nodes of [G], then those of [H] not in [G]; a
    node present in both takes the attributes of [H]; the edges of [G], then
    those of [H] not in [G].  Nodes are identified by their id. *)
Definition nx_compose (G H : graph) : graph :=
  mkGraph
    (map (fun p => (fst p, match lookup (fst p) (gnodes H) with
                           | Some n => n | None => snd p end)) (gnodes G)
     ++ filter (fun p => negb (mem_node (fst p) (gnodes G))) (gnodes H))
    (gedges G ++ filter (fun e => negb (existsb (edge_eqb e) (gedges G)))
                        (gedges H)).

Definition relabel_out (fresh : nid) (v : nid) : nid :=
  if nid_eqb v Out then fresh else v.

(** [compose(other, operation, function, name)] with the fresh
    [node_id = str(uuid4())] written [Uid u]: compose the two raw graphs,
    relabel their common ["out"] to [Uid u], make it the operation node,
    then add a new ["out"] fed by it.  (The relabelled copy re-inserts the
    edges source by source; only the set of edges and the order of nodes
    matter for the functions below.  The ["depth"] attributes only serve
    [plot] and are not modelled.) *)
Definition compose (A B : graph) (u : nat) (operation : string)
  (function : R -> R -> R) (name : string) : graph :=
  let C := nx_compose A B in
  mkGraph
    (map (fun p => if nid_eqb (fst p) Out
                   then (Uid u, NOperation operation function name)
                   else p) (gnodes C) ++ [(Out, NOut)])
    (map (fun e => (relabel_out (Uid u) (fst e), relabel_out (Uid u) (snd e)))
         (gedges C) ++ [(Uid u, Out)]).

(** [__add__] and [__mul__]. *)
Definition add_graph (A B : graph) (u : nat) : graph :=
  compose A B u "add"%string Rplus "+"%string.

Definition mul_graph (A B : graph) (u : nat) : graph :=
  compose A B u "mul"%string Rmult "*"%string.

(** ** Namespace resolver: [SpectralModel.build_namespace]

    [order] is the node sequence yielded by [nx.dag.topological_sort]. *)

Definition set_name (g : graph) (v : nid) (s : string) : graph :=
  mkGraph (map (fun p => if nid_eqb (fst p) v
                         then (fst p, match snd p with
                                      | NComponent c _ kw => NComponent c s kw
                                      | n => n end)
                         else p) (gnodes g))
          (gedges g).

Fixpoint namespace_loop (order : list nid) (name_space : list string)
  (g : graph) : graph :=
  match order with
  | [] => g
  | v :: o =>
      match lookup v (gnodes g) with
      | Some (NComponent _ name _) =>
          let ns := name_space ++ [name] in
          let n := count_occ string_dec ns name in
          namespace_loop o ns (set_name g v (name ++ "_" ++ str_nat n)%string)
      | _ => namespace_loop o name_space g
      end
  end.

Definition build_namespace (order : list nid) (raw_graph : graph) : graph :=
  namespace_loop order [] raw_graph.

(** ** Serializer: [SpectralModel.__str__] / [to_string]

    [build_expression] recurses along predecessors; [fuel] bounds the
    recursion depth (the number of nodes suffices on an acyclic graph).
    [None] is an exception ([IndexError] on a node without predecessor). *)

Definition render_kwargs (kwargs : list (string * string)) : string :=
  match kwargs with
  | [] => "()"
  | _ => "(" ++ join ", " (map (fun kv => fst kv ++ "=" ++ snd kv) kwargs) ++ ")"
  end%string.

Fixpoint map_option {A B : Type} (f : A -> option B) (l : list A)
  : option (list B) :=
  match l with
  | [] => Some []
  | a :: l' =>
      match f a, map_option f l' with
      | Some b, Some bs => Some (b :: bs)
      | _, _ => None
      end
  end.

Fixpoint build_expression (fuel : nat) (g : graph) (v : nid) : option string :=
  match fuel with
  | O => None
  | S f =>
      match lookup v (gnodes g) with
      | Some (NComponent c _ kwargs) => Some (cname c ++ render_kwargs kwargs)%string
      | Some (NOperation _ _ operation) =>
          match map_option (build_expression f g) (predecessors g v) with
          | Some operands =>
              Some ("(" ++ join (" " ++ operation ++ " ") operands ++ ")")%string
          | None => None
          end
      | Some NOut =>
          match predecessors g v with
          | p :: _ => build_expression f g p
          | [] => None
          end
      | None => None
      end
  end.

Definition to_string (g : graph) : option string :=
  match build_expression (List.length (gnodes g)) g Out with
  | Some s => Some (strip_outer s)
  | None => None
  end.

(** ** Flux evaluator: [SpectralModel.flux] *)

(** Element-wise binary operation on two jax arrays of the same shape. *)
Definition map2 (f : R -> R -> R) (a b : list R) : list R :=
  map (fun p => f (fst p) (snd p)) (combine a b).

(** The loop over [nx.dag.topological_sort(self.graph)] (the sequence
    [order]): it fills [runtime_modules] and [continuum].  A new binding is
    put in front, so [lookup] sees the last assignment.  [None] is a
    [KeyError] or [IndexError]. *)
Fixpoint eval_graph (g : graph) (energies : list R) (order : list nid)
  (runtime_modules : list (nid * component)) (cont : list (nid * list R))
  : option (list (nid * component) * list (nid * list R)) :=
  match order with
  | [] => Some (runtime_modules, cont)
  | v :: o =>
      match lookup v (gnodes g) with
      | Some (NComponent c _ _) =>
          eval_graph g energies o ((v, c) :: runtime_modules)
                     ((v, map (continuum c) energies) :: cont)
      | Some (NOperation _ f _) =>
          match predecessors g v with
          | c1 :: c2 :: _ =>
              match lookup c1 cont, lookup c2 cont with
              | Some x, Some y =>
                  eval_graph g energies o runtime_modules ((v, map2 f x y) :: cont)
              | _, _ => None
              end
          | _ => None
          end
      | Some NOut => eval_graph g energies o runtime_modules cont
      | None => None
      end
  end.

(** [jax.scipy.integrate.trapezoid] along an axis of length 2:
    [0.5 * (x1 - x0) * (y1 + y0)]. *)
Definition trapezoid2 (y0 y1 x0 x1 : R) : R := / 2 * ((x1 - x0) * (y1 + y0)).

(** Lines 187-197: [flux = jnp.stack((flux_1D[:-1], flux_1D[1:]))] and the
    trapezoid in [log] of [flux * energies_to_integrate] (photon flux) or
    [flux * energies_to_integrate**2] (energy flux), with
    [energies_to_integrate = jnp.stack((e_low, e_high))]. *)
Definition continuum_flux (energy_flux : bool) (flux_1D e_low e_high : list R)
  : list R :=
  map (fun p =>
         let '((f0, f1), (el, eh)) := p in
         if energy_flux
         then trapezoid2 (f0 * el ^ 2) (f1 * eh ^ 2) (ln el) (ln eh)
         else trapezoid2 (f0 * el) (f1 * eh) (ln el) (ln eh))
      (combine (combine (removelast flux_1D) (tl flux_1D))
               (combine e_low e_high)).

(** [root_nodes]: nodes, in node order, of in-degree 0 whose
    ["component_type"] is ["additive"]. *)
Definition root_nodes (g : graph) : list nid :=
  map fst (filter (fun p => Nat.eqb (in_degree g (fst p)) 0
                            && ostr_eqb (get_component_type (Some (snd p)))
                                        "additive"%string)
                  (gnodes g)).

(** [nx.shortest_path(self.graph, source=v, target="out")].  In a graph
    built from operands that share no node every node but ["out"] has one
    successor, and the only path follows the successors; this definition
    follows the first successor.  [None] is [NetworkXNoPath]. *)
Fixpoint shortest_path (fuel : nat) (g : graph) (v : nid) : option (list nid) :=
  if nid_eqb v Out then Some [Out] else
  match fuel with
  | O => None
  | S f =>
      match successors g v with
      | s :: _ => option_map (cons v) (shortest_path f g s)
      | [] => None
      end
  end.

(** [find_multiplicative_components]; [fuel] bounds the recursion depth. *)
Fixpoint find_multiplicative_components (fuel : nat) (g : graph) (v : nid)
  : list nid :=
  match fuel with
  | O => []
  | S f =>
      if ostr_eqb (get_operation_type (lookup v (gnodes g))) "mul"%string then
        flat_map
          (fun p =>
             if ostr_eqb (get_component_type (lookup p (gnodes g)))
                         "multiplicative"%string then [p]
             else if ostr_eqb (get_operation_type (lookup p (gnodes g)))
                              "mul"%string
             then find_multiplicative_components f g p
             else [])
          (predecessors g v)
      else []
  end.

(** Line 221-222: [flux_from_component *= runtime_modules[mul_node].continuum(mean_energy)]
    for each collected node in turn. *)
Definition apply_multiplicative (rt : list (nid * component))
  (multiplicative_nodes : list nid) (flux_from_component mean_energy : list R)
  : option (list R) :=
  fold_left
    (fun acc m =>
       match acc, lookup m rt with
       | Some a, Some c => Some (map2 (fun x e => x * continuum c e) a mean_energy)
       | _, _ => None
       end)
    multiplicative_nodes (Some flux_from_component).

(** The body of the loop over [root_nodes] (lines 209-232): the
    contribution of one root to [fine_structures_flux]. *)
Definition line_flux (g : graph) (rt : list (nid * component))
  (energy_flux : bool) (e_low e_high : list R) (root : nid)
  : option (list R) :=
  match shortest_path (List.length (gnodes g)) g root, lookup root rt with
  | Some path, Some c =>
      let lines := map (fun p => emission_lines c (fst p) (snd p))
                       (combine e_low e_high) in
      let multiplicative_nodes :=
        flat_map (find_multiplicative_components (List.length (gnodes g)) g)
                 (rev path) in
      match apply_multiplicative rt multiplicative_nodes
              (map fst lines) (map snd lines) with
      | Some fc =>
          Some (if energy_flux
                then map (fun p => let '(x, (el, eh)) := p in
                                   trapezoid2 (x * el) (x * eh) (ln el) (ln eh))
                         (combine fc (combine e_low e_high))
                else fc)
      | None => None
      end
  | _, _ => None
  end.

Definition fine_structures_flux (g : graph) (rt : list (nid * component))
  (energy_flux : bool) (e_low e_high : list R) : option (list R) :=
  fold_left
    (fun acc r =>
       match acc, line_flux g rt energy_flux e_low e_high r with
       | Some a, Some l => Some (map2 Rplus a l)
       | _, _ => None
       end)
    (root_nodes g) (Some (map (fun _ => 0) e_low)).

Definition last_opt {A : Type} (l : list A) : option A :=
  match rev l with [] => None | a :: _ => Some a end.

(** [flux(e_low, e_high, energy_flux)] evaluated on [self.graph], whose
    topological order is [order].  [e_high[-1]] fails on an empty array and
    [jnp.stack((e_low, e_high))] on arrays of different lengths. *)
Definition flux (order : list nid) (g : graph) (e_low e_high : list R)
  (energy_flux : bool) : option (list R) :=
  match last_opt e_high with
  | None => None
  | Some eh_last =>
      if negb (Nat.eqb (List.length e_low) (List.length e_high)) then None else
      let energies := e_low ++ [eh_last] in
      match eval_graph g energies order [] [] with
      | None => None
      | Some (rt, cont) =>
          match predecessors g Out with
          | [] => None
          | p :: _ =>
              match lookup p cont with
              | None => None
              | Some flux_1D =>
                  match fine_structures_flux g rt energy_flux e_low e_high with
                  | None => None
                  | Some fs =>
                      Some (map2 Rplus (continuum_flux energy_flux flux_1D e_low e_high) fs)
                  end
              end
          end
      end
  end.

(** ** Models: [SpectralModel.__init__]

    [__init__] resolves the namespace, then computes [self.params] by
    evaluating the photon flux on [jnp.ones(10)]; an exception there aborts
    the construction. *)
Record SpectralModel : Type := mkModel {
  raw_graph : graph;
  model_graph : graph
}.

Definition SpectralModel_init (order : list nid) (raw : graph)
  : option SpectralModel :=
  let g := build_namespace order raw in
  match flux order g (repeat 1 10) (repeat 1 10) false with
  | Some _ => Some (mkModel raw g)
  | None => None
  end.

(** [is_topological_order g order]: [order] lists each node of [g] once,
    and every node comes after all its predecessors. *)
Fixpoint preds_first (g : graph) (seen : list nid) (order : list nid) : bool :=
  match order with
  | [] => true
  | v :: o =>
      forallb (fun u => existsb (nid_eqb u) seen) (predecessors g v)
      && preds_first g (v :: seen) o
  end.

Fixpoint nodup_nid (l : list nid) : bool :=
  match l with
  | [] => true
  | v :: l' => negb (existsb (nid_eqb v) l') && nodup_nid l'
  end.

Definition is_topological_order (g : graph) (order : list nid) : bool :=
  nodup_nid order
  && forallb (fun v => existsb (nid_eqb v) order) (map fst (gnodes g))
  && forallb (fun v => mem_node v (gnodes g)) order
  && preds_first g [] order.

(** ** Components of [jaxspec/model/additive.py] *)

(** Modelled from the spec: [AdditiveComponent], the base class that
    additive.py imports from abc.py but that is absent from src/, gives an
    additive component whose class defines no fine structure
    [continuum = __call__] and [emission_lines(e_low, e_high)] = a zero line
    flux at the bin's mean energy [(e_low + e_high) / 2]. *)
Definition additive_component (name : string) (call : R -> R) : component :=
  mkComponent name "additive"%string call (fun el eh => (0, (el + eh) / 2)).

(** [Powerlaw.__call__]: [norm * energy ** (-alpha)]. *)
Definition Powerlaw (alpha norm : R) : component :=
  additive_component "Powerlaw"%string (fun energy => norm * Rpower energy (- alpha)).

(** ** Models built through the public builder

    A model obtained from components by [+] and [*] (or [compose]) is
    described by the expression that built it; [u] is the [uuid4] drawn for
    the component node or the operation node. *)
Inductive expr : Type :=
| EComp (u : nat) (c : component) (kwargs : list (string * string))
| EOp (u : nat) (operation : string) (function : R -> R -> R)
      (operation_label : string) (a b : expr).

Fixpoint build (e : expr) : graph :=
  match e with
  | EComp u c kw => from_component u c kw
  | EOp u op f l a b => compose (build a) (build b) u op f l
  end.

Definition root_id (e : expr) : nid :=
  match e with EComp u _ _ => Uid u | EOp u _ _ _ _ _ => Uid u end.

Fixpoint uids (e : expr) : list nat :=
  match e with
  | EComp u _ _ => [u]
  | EOp u _ _ _ a b => uids a ++ [u] ++ uids b
  end.

(** The nodes (other than ["out"]) and edges the builder produces. *)
Fixpoint nodes_of (e : expr) : list (nid * node) :=
  match e with
  | EComp u c kw => [(Uid u, NComponent c (lower (cname c)) kw)]
  | EOp u op f l a b => nodes_of a ++ [(Uid u, NOperation op f l)] ++ nodes_of b
  end.

Fixpoint edges_of (e : expr) : list (nid * nid) :=
  match e with
  | EComp _ _ _ => []
  | EOp u _ _ _ a b =>
      edges_of a ++ [(root_id a, Uid u)] ++ edges_of b ++ [(root_id b, Uid u)]
  end.

(** The continuum curve of a sub-model, point by point. *)
Fixpoint cont_sem (e : expr) (x : R) : R :=
  match e with
  | EComp _ c _ => continuum c x
  | EOp _ _ f _ a b => f (cont_sem a x) (cont_sem b x)
  end.

Inductive subexpr (s : expr) : expr -> Prop :=
| sub_refl : subexpr s s
| sub_left : forall u op f l a b, subexpr s a -> subexpr s (EOp u op f l a b)
| sub_right : forall u op f l a b, subexpr s b -> subexpr s (EOp u op f l a b).

(** The additive leaves, in node order: the [root_nodes]. *)
Fixpoint add_leaves (e : expr) : list nid :=
  match e with
  | EComp u c _ => if String.eqb (ctype c) "additive"%string then [Uid u] else []
  | EOp _ _ _ _ a b => add_leaves a ++ add_leaves b
  end.

(** The sub-models met from leaf [v] up to the whole model. *)
Fixpoint path_subs (e : expr) (v : nid) : list expr :=
  match e with
  | EComp u _ _ => if nid_eqb v (Uid u) then [e] else []
  | EOp _ _ _ _ a b =>
      match path_subs a v with
      | [] => match path_subs b v with [] => [] | p => p ++ [e] end
      | p => p ++ [e]
      end
  end.

(** What [find_multiplicative_components] returns on the node of a
    sub-model. *)
Definition mult_child (a : expr) (rec : list nid) : list nid :=
  match a with
  | EComp u c _ =>
      if String.eqb (ctype c) "multiplicative"%string then [Uid u] else []
  | EOp _ op _ _ _ _ => if String.eqb op "mul"%string then rec else []
  end.

Fixpoint find_sem (e : expr) : list nid :=
  match e with
  | EComp _ _ _ => []
  | EOp _ op _ _ a b =>
      if String.eqb op "mul"%string
      then mult_child a (find_sem a) ++ mult_child b (find_sem b)
      else []
  end.

Fixpoint rt_of (e : expr) : list (nid * component) :=
  match e with
  | EComp u c _ => [(Uid u, c)]
  | EOp _ _ _ _ a b => rt_of a ++ rt_of b
  end.

(** The contribution of the additive leaf [r] computed from the model's
    structure. *)
Definition line_flux_sem (e : expr) (energy_flux : bool) (e_low e_high : list R)
  (r : nid) : option (list R) :=
  match lookup r (rt_of e) with
  | Some c =>
      let lines := map (fun p => emission_lines c (fst p) (snd p))
                       (combine e_low e_high) in
      match apply_multiplicative (rt_of e)
              (flat_map find_sem (rev (path_subs e r)))
              (map fst lines) (map snd lines) with
      | Some fc =>
          Some (if energy_flux
                then map (fun p => let '(x, (el, eh)) := p in
                                   trapezoid2 (x * el) (x * eh) (ln el) (ln eh))
                         (combine fc (combine e_low e_high))
                else fc)
      | None => None
      end
  | None => None
  end.

(** The fine-structure sum computed from the model's structure. *)
Definition fine_sem (e : expr) (energy_flux : bool) (e_low e_high : list R)
  : option (list R) :=
  fold_left
    (fun acc r =>
       match acc, line_flux_sem e energy_flux e_low e_high r with
       | Some a, Some l => Some (map2 Rplus a l)
       | _, _ => None
       end)
    (add_leaves e) (Some (map (fun _ => 0) e_low)).

(** The node a sub-model puts at its top. *)
Definition top_node (e : expr) : node :=
  match e with
  | EComp u c kw => NComponent c (lower (cname c)) kw
  | EOp u op f l a b => NOperation op f l
  end.

(** [s] sits in [g] with parent [p]: the nodes of [s] form a block of the
    node list, the edges into nodes of [s] are those of [s], and the edges
    out of nodes of [s] are those of [s] and one edge from its top node to
    [p]. *)
Definition placed (g : graph) (s : expr) (p : nid) : Prop :=
  NoDup (map fst (gnodes g)) /\
  (exists N1 N2, gnodes g = N1 ++ nodes_of s ++ N2) /\
  (forall x y, In (x, y) (gedges g) -> In y (map fst (nodes_of s)) ->
               In (x, y) (edges_of s)) /\
  (forall x y, In (x, y) (gedges g) -> In x (map fst (nodes_of s)) ->
               In (x, y) (edges_of s ++ [(root_id s, p)])) /\
  (forall x y, In (x, y) (edges_of s ++ [(root_id s, p)]) -> In (x, y) (gedges g)).

(** Erasing the display name and kwargs of component nodes: what the flux
    evaluator reads of a node. *)
Definition erase_node (n : node) : node :=
  match n with NComponent c _ _ => NComponent c EmptyString [] | n => n end.

Definition erase_graph (g : graph) : graph :=
  mkGraph (map (fun p => (fst p, erase_node (snd p))) (gnodes g)) (gedges g).

(** The kinds of the component nodes met along [l], in order: what the
    loop of [build_namespace] appends to [name_space]. *)
Definition component_names (g : graph) (l : list nid) : list string :=
  flat_map (fun v => match lookup v (gnodes g) with
                     | Some (NComponent _ name _) => [name]
                     | _ => [] end) l.

(** A string without the character ["_"]. *)
Fixpoint no_underscore (s : string) : Prop :=
  match s with
  | EmptyString => True
  | String c s' => c <> "_"%char /\ no_underscore s'
  end.

(** Clearing the display name of component nodes (kwargs kept): all that
    [build_namespace] may change. *)
Definition unname_node (n : node) : node :=
  match n with NComponent c _ kw => NComponent c EmptyString kw | n => n end.

Definition unname_graph (g : graph) : graph :=
  mkGraph (map (fun p => (fst p, unname_node (snd p))) (gnodes g)) (gedges g).

(** The text [build_expression] produces on the node of a sub-model. *)
Fixpoint render (e : expr) : string :=
  match e with
  | EComp _ c kw => cname c ++ render_kwargs kw
  | EOp _ _ _ l a b => "(" ++ render a ++ " " ++ l ++ " " ++ render b ++ ")"
  end%string.

(** [m] reaches [v] along edges whose heads are all ["mul"] operation
    nodes. *)
Definition is_mul (g : graph) (v : nid) : Prop :=
  get_operation_type (lookup v (gnodes g)) = Some "mul"%string.

Inductive mul_chain (g : graph) : nid -> nid -> Prop :=
| mc_edge : forall m v, has_edge g m v = true -> is_mul g v -> mul_chain g m v
| mc_step : forall m w v, mul_chain g m w -> has_edge g w v = true -> is_mul g v ->
    mul_chain g m v.

(** ** [SpectralModel.export_to_mermaid] (with [file=None])

    The id of node [Uid u] is its [uuid4] string, [uuid_str u]. *)
Definition newline : string := String (ascii_of_nat 10) EmptyString.
Definition dquote : string := String (ascii_of_nat 34) EmptyString.

(** [s.split(sep)] for a one-character separator. *)
Fixpoint split_on (sep : ascii) (s : string) : list string :=
  match s with
  | EmptyString => [EmptyString]
  | String c s' =>
      match split_on sep s' with
      | [] => []
      | w :: ws => if Ascii.eqb c sep then EmptyString :: w :: ws else String c w :: ws
      end
  end.

(** [str.capitalize()] on ASCII. *)
Definition upper_ascii (c : ascii) : ascii :=
  let n := nat_of_ascii c in
  if (97 <=? n)%nat && (n <=? 122)%nat then ascii_of_nat (n - 32) else c.

Definition capitalize (s : string) : string :=
  match s with
  | EmptyString => EmptyString
  | String c s' => String (upper_ascii c) (lower s')
  end.

Definition nid_string (uuid_str : nat -> string) (v : nid) : string :=
  match v with Out => "out"%string | Uid u => uuid_str u end.

(** The text written for one node; [None] is the [ValueError] of
    [name, number = attributes["name"].split("_")]. *)
Definition mermaid_node (uuid_str : nat -> string) (v : nid) (n : node)
  : option string :=
  let id := nid_string uuid_str v in
  match n with
  | NComponent _ name _ =>
      match split_on "_"%char name with
      | [nm; number] =>
          Some ("    " ++ id ++ "(" ++ dquote ++ capitalize nm ++ " (" ++ number ++ ")"
                ++ dquote ++ ")" ++ newline)
      | _ => None
      end
  | NOperation t _ _ =>
      Some ((if String.eqb t "add" then "    " ++ id ++ "{+}" ++ newline else "")
            ++ (if String.eqb t "mul" then "    " ++ id ++ "{x}" ++ newline else ""))
  | NOut => Some ("    " ++ id ++ "(" ++ dquote ++ "Output" ++ dquote ++ ")" ++ newline)
  end%string.

(** [G.edges()]: sources in node order, each with its successors. *)
Definition nx_edges (g : graph) : list (nid * nid) :=
  flat_map (fun p => map (fun t => (fst p, t)) (successors g (fst p))) (gnodes g).

Definition mermaid_edge (uuid_str : nat -> string) (e : nid * nid) : string :=
  ("    " ++ nid_string uuid_str (fst e) ++ " --> " ++ nid_string uuid_str (snd e)
   ++ newline)%string.

Definition export_to_mermaid (uuid_str : nat -> string) (g : graph) : option string :=
  match map_option (fun p => mermaid_node uuid_str (fst p) (snd p)) (gnodes g) with
  | Some lines =>
      Some ("graph LR" ++ newline ++ String.concat "" lines
            ++ String.concat "" (map (mermaid_edge uuid_str) (nx_edges g)))%string
  | None => None
  end.

(** ** The [labels] dictionary of [from_component] and [compose] *)

Definition mem_key (k : nid) (d : list (nid * string)) : bool :=
  existsb (fun p => nid_eqb (fst p) k) d.

(** [a | b]: the keys of [a], then the new keys of [b]; [b] wins. *)
Definition dict_union (a b : list (nid * string)) : list (nid * string) :=
  map (fun p => (fst p, match lookup (fst p) b with Some x => x | None => snd p end)) a
  ++ filter (fun p => negb (mem_key (fst p) a)) b.

(** [d[k] = x]. *)
Definition dict_set (d : list (nid * string)) (k : nid) (x : string)
  : list (nid * string) :=
  if mem_key k d then map (fun p => if nid_eqb (fst p) k then (k, x) else p) d
  else d ++ [(k, x)].

Definition from_component_labels (u : nat) (c : component) : list (nid * string) :=
  [(Uid u, lower (cname c)); (Out, "out"%string)].

Definition compose_labels (la lb : list (nid * string)) (u : nat) (operation : string)
  : list (nid * string) :=
  dict_set (dict_union la lb) (Uid u) operation.

Fixpoint build_labels (e : expr) : list (nid * string) :=
  match e with
  | EComp u c _ => from_component_labels u c
  | EOp u op _ _ a b => compose_labels (build_labels a) (build_labels b) u op
  end.

(** What [labels] records for a node. *)
Definition node_label (n : node) : string :=
  match n with
  | NComponent _ name _ => name
  | NOperation t _ _ => t
  | NOut => "out"%string
  end.

(** * Proofs *)

Lemma nid_eqb_eq : forall a b, nid_eqb a b = true <-> a = b.
Proof.
  intros [|x] [|y]; simpl; split; intro H; try discriminate; try reflexivity.
  - apply Nat.eqb_eq in H; now subst.
  - inversion H; apply Nat.eqb_refl.
Qed.

Lemma nid_eqb_refl : forall a, nid_eqb a a = true.
Proof. intro a; now apply nid_eqb_eq. Qed.

Lemma nid_eq_dec : forall a b : nid, {a = b} + {a <> b}.
Proof. decide equality; apply Nat.eq_dec. Qed.

Lemma lookup_erase : forall v l,
  lookup v (map (fun p => (fst p, erase_node (snd p))) l)
  = option_map erase_node (lookup v l).
Proof.
  intros v l; induction l as [|[k n] l IH]; simpl; [reflexivity|].
  destruct (nid_eqb v k); [reflexivity|exact IH].
Qed.

Lemma predecessors_erase : forall g v, predecessors (erase_graph g) v = predecessors g v.
Proof.
  intros [ns es] v; unfold predecessors, has_edge; simpl.
  induction ns as [|[k n] ns IH]; simpl; [reflexivity|].
  destruct (existsb _ es); simpl; rewrite IH; reflexivity.
Qed.

Lemma successors_erase : forall g v, successors (erase_graph g) v = successors g v.
Proof. reflexivity. Qed.

Lemma length_erase : forall g, List.length (gnodes (erase_graph g)) = List.length (gnodes g).
Proof. intros g; unfold erase_graph; simpl; apply length_map. Qed.

Lemma eval_graph_erase : forall g en o rt cont,
  eval_graph (erase_graph g) en o rt cont = eval_graph g en o rt cont.
Proof.
  intros g en o; induction o as [|v o IH]; intros rt cont; simpl; [reflexivity|].
  unfold erase_graph at 1; simpl; rewrite lookup_erase.
  destruct (lookup v (gnodes g)) as [[c nm kw|t f l|]|]; simpl;
    try rewrite predecessors_erase; try apply IH; try reflexivity.
  destruct (predecessors g v) as [|c1 [|c2 r]]; try reflexivity.
  destruct (lookup c1 cont), (lookup c2 cont); try reflexivity; apply IH.
Qed.

Lemma filter_map_fst : forall (h : nid * node -> nid * node) P Q l,
  (forall p, fst (h p) = fst p) -> (forall p, P (h p) = Q p) ->
  map fst (filter P (map h l)) = map fst (filter Q l).
Proof.
  intros h P Q l H1 H2; induction l as [|p l IH]; simpl; [reflexivity|].
  rewrite H2; destruct (Q p); simpl; rewrite ?H1, IH; reflexivity.
Qed.

Lemma root_nodes_erase : forall g, root_nodes (erase_graph g) = root_nodes g.
Proof.
  intros g; unfold root_nodes, in_degree; unfold erase_graph at 2; simpl.
  apply filter_map_fst; [reflexivity|].
  intros [k n]; simpl; rewrite predecessors_erase; destruct n; reflexivity.
Qed.

Lemma shortest_path_erase : forall fuel g v,
  shortest_path fuel (erase_graph g) v = shortest_path fuel g v.
Proof.
  induction fuel as [|f IH]; intros g v; simpl; [reflexivity|].
  destruct (nid_eqb v Out); [reflexivity|].
  rewrite successors_erase; destruct (successors g v); [reflexivity|].
  rewrite IH; reflexivity.
Qed.

Lemma get_types_erase : forall v g,
  get_component_type (lookup v (gnodes (erase_graph g)))
    = get_component_type (lookup v (gnodes g)) /\
  get_operation_type (lookup v (gnodes (erase_graph g)))
    = get_operation_type (lookup v (gnodes g)).
Proof.
  intros v g; unfold erase_graph; simpl; rewrite lookup_erase.
  destruct (lookup v (gnodes g)) as [[]|]; split; reflexivity.
Qed.

Lemma find_erase : forall fuel g v,
  find_multiplicative_components fuel (erase_graph g) v
  = find_multiplicative_components fuel g v.
Proof.
  induction fuel as [|f IH]; intros g v; cbn [find_multiplicative_components];
    [reflexivity|].
  destruct (get_types_erase v g) as [_ ->].
  destruct (ostr_eqb _ _); [|reflexivity].
  rewrite predecessors_erase; apply flat_map_ext; intro p.
  destruct (get_types_erase p g) as [-> ->]; rewrite IH; reflexivity.
Qed.

Lemma line_flux_erase : forall g rt ef el eh r,
  line_flux (erase_graph g) rt ef el eh r = line_flux g rt ef el eh r.
Proof.
  intros; unfold line_flux; rewrite length_erase, shortest_path_erase.
  destruct (shortest_path _ g r); [|reflexivity].
  destruct (lookup r rt); [|reflexivity].
  erewrite flat_map_ext; [reflexivity|]; intro; apply find_erase.
Qed.

Lemma fine_structures_flux_erase : forall g rt ef el eh,
  fine_structures_flux (erase_graph g) rt ef el eh = fine_structures_flux g rt ef el eh.
Proof.
  intros; unfold fine_structures_flux; rewrite root_nodes_erase.
  generalize (Some (map (fun _ : R => 0) el)).
  induction (root_nodes g) as [|r l IH]; intro acc; simpl; [reflexivity|].
  rewrite line_flux_erase; apply IH.
Qed.

Lemma flux_erase : forall o g el eh ef,
  flux o (erase_graph g) el eh ef = flux o g el eh ef.
Proof.
  intros; unfold flux.
  destruct (last_opt eh); [|reflexivity].
  destruct (negb _); [reflexivity|].
  rewrite eval_graph_erase, predecessors_erase.
  destruct (eval_graph g _ o [] []) as [[rt cont]|]; [|reflexivity].
  destruct (predecessors g Out); [reflexivity|].
  destruct (lookup _ cont); [|reflexivity].
  rewrite fine_structures_flux_erase; reflexivity.
Qed.

Lemma erase_set_name : forall g v s, erase_graph (set_name g v s) = erase_graph g.
Proof.
  intros [ns es] v s; unfold erase_graph, set_name; simpl; f_equal.
  rewrite map_map; apply map_ext; intros [k n]; simpl.
  destruct (nid_eqb k v); [destruct n|]; reflexivity.
Qed.

Lemma erase_namespace_loop : forall o ns g,
  erase_graph (namespace_loop o ns g) = erase_graph g.
Proof.
  induction o as [|v o IH]; intros ns g; simpl; [reflexivity|].
  destruct (lookup v (gnodes g)) as [[]|]; rewrite ?IH, ?erase_set_name; reflexivity.
Qed.

(** The flux evaluator does not read display names: evaluating on the
    resolved graph is evaluating on the raw graph. *)
Lemma flux_build_namespace : forall o o' g el eh ef,
  flux o (build_namespace o' g) el eh ef = flux o g el eh ef.
Proof.
  intros; rewrite <- flux_erase, <- (flux_erase o g).
  unfold build_namespace; rewrite erase_namespace_loop; reflexivity.
Qed.

Lemma preds_first_erase : forall g seen o,
  preds_first (erase_graph g) seen o = preds_first g seen o.
Proof.
  intros g seen o; revert seen; induction o as [|v o IH]; intro seen; simpl;
    [reflexivity|].
  rewrite predecessors_erase, IH; reflexivity.
Qed.

Lemma forallb_ext' : forall {A : Type} (f h : A -> bool) l,
  (forall x, f x = h x) -> forallb f l = forallb h l.
Proof.
  intros A f h l H; induction l as [|x l IH]; simpl; [reflexivity|].
  rewrite H, IH; reflexivity.
Qed.

Lemma is_topological_order_erase : forall g o,
  is_topological_order (erase_graph g) o = is_topological_order g o.
Proof.
  intros g o; unfold is_topological_order; rewrite preds_first_erase.
  assert (H1 : map fst (gnodes (erase_graph g)) = map fst (gnodes g))
    by (unfold erase_graph; simpl; rewrite map_map; reflexivity).
  assert (H2 : forall v, mem_node v (gnodes (erase_graph g)) = mem_node v (gnodes g))
    by (clear H1; intro v; unfold mem_node, erase_graph; simpl;
        induction (gnodes g) as [|p l IH]; simpl; [reflexivity|]; rewrite IH; reflexivity).
  rewrite H1, (forallb_ext' _ _ o H2); reflexivity.
Qed.

Lemma is_topological_order_build_namespace : forall o o' g,
  is_topological_order (build_namespace o' g) o = is_topological_order g o.
Proof.
  intros; rewrite <- is_topological_order_erase, <- (is_topological_order_erase g).
  unfold build_namespace; rewrite erase_namespace_loop; reflexivity.
Qed.

(** ** Shape of the graphs the builder produces *)

Lemma NoDup_app_disj : forall {A : Type} (l1 l2 : list A) x,
  NoDup (l1 ++ l2) -> In x l1 -> In x l2 -> False.
Proof.
  intros A l1 l2 x; induction l1 as [|y l1 IH]; simpl; intros H H1 H2; [exact H1|].
  inversion H as [|? ? Hn Hd]; subst.
  destruct H1 as [<-|H1]; [apply Hn, in_or_app; right; exact H2|].
  exact (IH Hd H1 H2).
Qed.

Lemma wf_op : forall u op f l a b, NoDup (uids (EOp u op f l a b)) ->
  NoDup (uids a) /\ NoDup (uids b) /\ ~ In u (uids a) /\ ~ In u (uids b) /\
  (forall x, In x (uids a) -> ~ In x (uids b)).
Proof.
  intros u op f l a b H; simpl in H.
  assert (Ha : NoDup (uids a)) by exact (NoDup_app_remove_r _ _ H).
  assert (Hr : NoDup ([u] ++ uids b)) by exact (NoDup_app_remove_l _ _ H).
  repeat split.
  - exact Ha.
  - exact (NoDup_app_remove_l [u] _ Hr).
  - intro Hu; exact (NoDup_app_disj _ _ u H Hu (or_introl eq_refl)).
  - intro Hu; inversion Hr; contradiction.
  - intros x H1 H2; exact (NoDup_app_disj _ _ x H H1 (or_intror H2)).
Qed.

Lemma ids_uids : forall e, map fst (nodes_of e) = map Uid (uids e).
Proof.
  induction e as [u c kw|u op f l a IHa b IHb]; simpl; [reflexivity|].
  rewrite !map_app; simpl; rewrite IHa, IHb; reflexivity.
Qed.

Lemma NoDup_map_Uid : forall l, NoDup l -> NoDup (map Uid l).
Proof.
  induction l as [|x l IH]; simpl; intro H; constructor; inversion H; subst.
  - intro Hin; apply in_map_iff in Hin as [y [Hy Hin]]; inversion Hy; subst; contradiction.
  - apply IH; assumption.
Qed.

Lemma in_ids : forall e v, In v (map fst (nodes_of e)) <-> exists x, v = Uid x /\ In x (uids e).
Proof.
  intros e v; rewrite ids_uids, in_map_iff; split.
  - intros [x [Hx Hin]]; exists x; split; [symmetry|]; assumption.
  - intros [x [Hx Hin]]; exists x; split; [symmetry|]; assumption.
Qed.

Lemma out_not_in_ids : forall e, ~ In Out (map fst (nodes_of e)).
Proof. intros e H; apply in_ids in H as [x [Hx _]]; discriminate. Qed.

Lemma lookup_notin : forall {A : Type} v (l : list (nid * A)),
  ~ In v (map fst l) -> lookup v l = None.
Proof.
  intros A v l; induction l as [|[k x] l IH]; simpl; intro H; [reflexivity|].
  destruct (nid_eqb v k) eqn:E.
  - apply nid_eqb_eq in E; subst; exfalso; apply H; left; reflexivity.
  - apply IH; intro; apply H; right; assumption.
Qed.

Lemma lookup_in_nodup : forall {A : Type} v (x : A) l,
  NoDup (map fst l) -> In (v, x) l -> lookup v l = Some x.
Proof.
  intros A v x l; induction l as [|[k y] l IH]; simpl; intros Hd Hin; [contradiction|].
  inversion Hd as [|? ? Hn Hd']; subst.
  destruct Hin as [Heq|Hin].
  - inversion Heq; subst; rewrite nid_eqb_refl; reflexivity.
  - destruct (nid_eqb v k) eqn:E.
    + apply nid_eqb_eq in E; subst; exfalso; apply Hn, in_map_iff.
      exists (k, x); split; [reflexivity|assumption].
    + apply IH; assumption.
Qed.

Lemma lookup_app_l : forall {A : Type} v (l1 l2 : list (nid * A)) x,
  lookup v l1 = Some x -> lookup v (l1 ++ l2) = Some x.
Proof.
  intros A v l1 l2 x; induction l1 as [|[k y] l1 IH]; simpl; intro H; [discriminate|].
  destruct (nid_eqb v k); [exact H|apply IH, H].
Qed.

Lemma lookup_app_r : forall {A : Type} v (l1 l2 : list (nid * A)),
  lookup v l1 = None -> lookup v (l1 ++ l2) = lookup v l2.
Proof.
  intros A v l1 l2; induction l1 as [|[k y] l1 IH]; simpl; intro H; [reflexivity|].
  destruct (nid_eqb v k); [discriminate|apply IH, H].
Qed.

Lemma mem_node_false : forall v l, ~ In v (map fst l) -> mem_node v l = false.
Proof.
  intros v l; induction l as [|[k n] l IH]; simpl; intro H; [reflexivity|].
  destruct (nid_eqb k v) eqn:E.
  - apply nid_eqb_eq in E; subst; exfalso; apply H; left; reflexivity.
  - apply IH; intro; apply H; right; assumption.
Qed.

Lemma mem_node_true : forall v l, In v (map fst l) -> mem_node v l = true.
Proof.
  intros v l; induction l as [|[k n] l IH]; simpl; intro H; [contradiction|].
  destruct H as [<-|H]; [rewrite nid_eqb_refl; reflexivity|].
  rewrite IH by assumption; apply orb_true_r.
Qed.

Lemma root_in_uids : forall e, exists x, root_id e = Uid x /\ In x (uids e).
Proof.
  destruct e as [u c kw|u op f l a b]; simpl; exists u; split; try reflexivity.
  - left; reflexivity.
  - apply in_or_app; right; left; reflexivity.
Qed.

Lemma edges_in_ids : forall e x y, In (x, y) (edges_of e) ->
  In x (map fst (nodes_of e)) /\ In y (map fst (nodes_of e)).
Proof.
  induction e as [u c kw|u op f l a IHa b IHb]; simpl; intros x y H; [contradiction|].
  rewrite !map_app; simpl.
  destruct (root_in_uids a) as [ra [Hra Hina]]; destruct (root_in_uids b) as [rb [Hrb Hinb]].
  assert (Ia : In (root_id a) (map fst (nodes_of a))) by (apply in_ids; eauto).
  assert (Ib : In (root_id b) (map fst (nodes_of b))) by (apply in_ids; eauto).
  apply in_app_iff in H as [H|H].
  - destruct (IHa _ _ H); split; apply in_or_app; left; assumption.
  - simpl in H; destruct H as [H|H].
    + inversion H; subst; split; [apply in_or_app; left; assumption|].
      apply in_or_app; right; left; reflexivity.
    + apply in_app_iff in H as [H|H].
      * destruct (IHb _ _ H); split; apply in_or_app; right; right; assumption.
      * simpl in H; destruct H as [H|[]].
        inversion H; subst; split; [apply in_or_app; right; right; assumption|].
        apply in_or_app; right; left; reflexivity.
Qed.

Lemma map_id_in : forall {A : Type} (f : A -> A) l,
  (forall x, In x l -> f x = x) -> map f l = l.
Proof.
  intros A f l H; induction l as [|x l IH]; simpl; [reflexivity|].
  rewrite H by (left; reflexivity); rewrite IH by (intros; apply H; right; assumption).
  reflexivity.
Qed.

Lemma filter_all : forall {A : Type} (f : A -> bool) l,
  (forall x, In x l -> f x = true) -> filter f l = l.
Proof.
  intros A f l H; induction l as [|x l IH]; simpl; [reflexivity|].
  rewrite H by (left; reflexivity); rewrite IH by (intros; apply H; right; assumption).
  reflexivity.
Qed.

Lemma in_fst : forall {A : Type} (p : nid * A) l, In p l -> In (fst p) (map fst l).
Proof. intros; apply in_map; assumption. Qed.

Lemma nid_eqb_ne : forall x y, x <> y -> nid_eqb x y = false.
Proof.
  intros x y H; destruct (nid_eqb x y) eqn:E; [|reflexivity].
  apply nid_eqb_eq in E; contradiction.
Qed.

Lemma existsb_edge_false : forall e l,
  (forall f, In f l -> fst f <> fst e) -> existsb (edge_eqb e) l = false.
Proof.
  intros e l H; induction l as [|f l IH]; simpl; [reflexivity|].
  unfold edge_eqb at 1; rewrite (nid_eqb_ne (fst e) (fst f)).
  - simpl; apply IH; intros; apply H; right; assumption.
  - intro E; apply (H f (or_introl eq_refl)); symmetry; exact E.
Qed.

Lemma compose_shape : forall Na Ea Nb Eb ra rb u op f l,
  ~ In Out (map fst Na) -> ~ In Out (map fst Nb) ->
  (forall x, In x (map fst Na) -> ~ In x (map fst Nb)) ->
  (forall x y, In (x, y) Ea -> In x (map fst Na) /\ In y (map fst Na)) ->
  (forall x y, In (x, y) Eb -> In x (map fst Nb) /\ In y (map fst Nb)) ->
  In ra (map fst Na) -> In rb (map fst Nb) ->
  compose (mkGraph (Na ++ [(Out, NOut)]) (Ea ++ [(ra, Out)]))
          (mkGraph (Nb ++ [(Out, NOut)]) (Eb ++ [(rb, Out)])) u op f l
  = mkGraph (Na ++ [(Uid u, NOperation op f l)] ++ Nb ++ [(Out, NOut)])
            (Ea ++ [(ra, Uid u)] ++ Eb ++ [(rb, Uid u)] ++ [(Uid u, Out)]).
Proof.
  intros Na Ea Nb Eb ra rb u op f l HoA HoB Hdis HEa HEb Hra Hrb.
  unfold compose, nx_compose; cbn [gnodes gedges]; f_equal.
  - rewrite (map_app _ Na [(Out, NOut)]).
    rewrite (map_id_in _ Na).
    2:{ intros [k n] Hin; simpl.
        rewrite lookup_notin; [reflexivity|].
        rewrite map_app; simpl; intro H; apply in_app_or in H as [H|[H|[]]].
        - exact (Hdis k (in_fst (k, n) Na Hin) H).
        - subst; exact (HoA (in_fst (Out, n) Na Hin)). }
    simpl; rewrite (lookup_app_r _ _ _ (lookup_notin _ _ HoB)); simpl.
    rewrite filter_app.
    rewrite (filter_all _ Nb).
    2:{ intros [k n] Hin; simpl; rewrite mem_node_false; [reflexivity|].
        rewrite map_app; simpl; intro H; apply in_app_or in H as [H|[H|[]]].
        - exact (Hdis k H (in_fst (k, n) Nb Hin)).
        - subst; exact (HoB (in_fst (Out, n) Nb Hin)). }
    simpl; rewrite (mem_node_true Out (Na ++ [(Out, NOut)]))
      by (rewrite map_app; apply in_or_app; right; left; reflexivity).
    simpl; rewrite app_nil_r, !map_app.
    rewrite (map_id_in _ Na).
    2:{ intros [k n] Hin; simpl; destruct (nid_eqb k Out) eqn:E; [|reflexivity].
        apply nid_eqb_eq in E; subst; exfalso; exact (HoA (in_fst (Out, n) Na Hin)). }
    rewrite (map_id_in _ Nb).
    2:{ intros [k n] Hin; simpl; destruct (nid_eqb k Out) eqn:E; [|reflexivity].
        apply nid_eqb_eq in E; subst; exfalso; exact (HoB (in_fst (Out, n) Nb Hin)). }
    simpl; rewrite <- !app_assoc; reflexivity.
  - rewrite (filter_all _ (Eb ++ [(rb, Out)])).
    2:{ intros [x y] Hin; rewrite existsb_edge_false; [reflexivity|].
        intros [x' y'] Hin'; simpl.
        assert (Hx : In x (map fst Nb)).
        { apply in_app_or in Hin as [Hin|[Hin|[]]].
          - exact (proj1 (HEb x y Hin)).
          - injection Hin as E1 E2; subst; exact Hrb. }
        assert (Hx' : In x' (map fst Na)).
        { apply in_app_or in Hin' as [Hin'|[Hin'|[]]].
          - exact (proj1 (HEa x' y' Hin')).
          - injection Hin' as E1 E2; subst; exact Hra. }
        intros ->; exact (Hdis x Hx' Hx). }
    rewrite !map_app.
    rewrite (map_id_in _ Ea).
    2:{ intros [x y] Hin; destruct (HEa x y Hin) as [Hx Hy]; simpl.
        unfold relabel_out; rewrite (nid_eqb_ne x), (nid_eqb_ne y); [reflexivity| |];
        intros ->; contradiction. }
    rewrite (map_id_in _ Eb).
    2:{ intros [x y] Hin; destruct (HEb x y Hin) as [Hx Hy]; simpl.
        unfold relabel_out; rewrite (nid_eqb_ne x), (nid_eqb_ne y); [reflexivity| |];
        intros ->; contradiction. }
    simpl; unfold relabel_out; simpl.
    rewrite (nid_eqb_ne ra), (nid_eqb_ne rb) by (intros ->; contradiction).
    rewrite <- !app_assoc; reflexivity.
Qed.

Lemma root_in_ids : forall e, In (root_id e) (map fst (nodes_of e)).
Proof.
  intro e; destruct (root_in_uids e) as [x [Hx Hin]]; apply in_ids; exists x; split; assumption.
Qed.

Lemma disj_ids : forall a b, (forall x, In x (uids a) -> ~ In x (uids b)) ->
  forall v, In v (map fst (nodes_of a)) -> ~ In v (map fst (nodes_of b)).
Proof.
  intros a b H v Ha Hb; apply in_ids in Ha as [x [-> Hx]]; apply in_ids in Hb as [y [Hy Hy']].
  injection Hy as <-; exact (H x Hx Hy').
Qed.

(** The builder's graph of a model whose components all have distinct ids:
    its nodes in creation order, then ["out"], fed by the top node. *)
Lemma build_shape : forall e, NoDup (uids e) ->
  build e = mkGraph (nodes_of e ++ [(Out, NOut)]) (edges_of e ++ [(root_id e, Out)]).
Proof.
  induction e as [u c kw|u op f l a IHa b IHb]; intro Hwf; [reflexivity|].
  destruct (wf_op _ _ _ _ _ _ Hwf) as (Ha & Hb & Hua & Hub & Hab).
  simpl build; rewrite (IHa Ha), (IHb Hb).
  rewrite compose_shape.
  - cbn [nodes_of edges_of root_id]; rewrite <- !app_assoc; reflexivity.
  - apply out_not_in_ids.
  - apply out_not_in_ids.
  - apply disj_ids; assumption.
  - apply edges_in_ids.
  - apply edges_in_ids.
  - apply root_in_ids.
  - apply root_in_ids.
Qed.

Lemma NoDup_build_ids : forall e, NoDup (uids e) ->
  NoDup (map fst (nodes_of e ++ [(Out, NOut)])).
Proof.
  intros e H; rewrite map_app, ids_uids; simpl; apply NoDup_app.
  - apply NoDup_map_Uid; assumption.
  - constructor; [intros []|constructor].
  - intros a Ha [<-|[]]; apply in_map_iff in Ha as [x [Hx _]]; discriminate.
Qed.

Lemma placed_top : forall e, NoDup (uids e) -> placed (build e) e Out.
Proof.
  intros e H; rewrite build_shape by assumption; unfold placed; cbn [gnodes gedges].
  split; [apply NoDup_build_ids; assumption|].
  split; [exists [], [(Out, NOut)]; reflexivity|].
  split; [|split].
  - intros x y Hin Hy; apply in_app_or in Hin as [Hin|[Hin|[]]]; [exact Hin|].
    injection Hin as <- <-; exfalso; exact (out_not_in_ids e Hy).
  - intros x y Hin _; exact Hin.
  - intros x y Hin; exact Hin.
Qed.

Lemma placed_nodup : forall g s p, placed g s p -> NoDup (uids s).
Proof.
  intros g s p (Hd & (N1 & N2 & HN) & _).
  rewrite HN, !map_app in Hd.
  apply NoDup_app_remove_l, NoDup_app_remove_r in Hd.
  rewrite ids_uids in Hd; eapply NoDup_map_inv; exact Hd.
Qed.

Lemma op_facts : forall u op f l a b, NoDup (uids (EOp u op f l a b)) ->
  (forall v, In v (map fst (nodes_of a)) -> In v (map fst (nodes_of b)) -> False) /\
  ~ In (Uid u) (map fst (nodes_of a)) /\ ~ In (Uid u) (map fst (nodes_of b)).
Proof.
  intros u op f l a b H; destruct (wf_op _ _ _ _ _ _ H) as (_ & _ & Hua & Hub & Hab).
  split; [|split].
  - intros v Ha Hb; exact (disj_ids a b Hab v Ha Hb).
  - intro Hin; apply in_ids in Hin as [x [Hx Hin]]; injection Hx as <-; contradiction.
  - intro Hin; apply in_ids in Hin as [x [Hx Hin]]; injection Hx as <-; contradiction.
Qed.

Lemma in_op_edges : forall u op f l a b x y,
  In (x, y) (edges_of (EOp u op f l a b)) ->
  In (x, y) (edges_of a) \/ (x = root_id a /\ y = Uid u) \/
  In (x, y) (edges_of b) \/ (x = root_id b /\ y = Uid u).
Proof.
  intros u op f l a b x y H; simpl in H.
  apply in_app_or in H as [H|[H|H]]; [left; exact H| |].
  - injection H as <- <-; right; left; split; reflexivity.
  - apply in_app_or in H as [H|[H|[]]]; [right; right; left; exact H|].
    injection H as <- <-; right; right; right; split; reflexivity.
Qed.

Lemma placed_left : forall g u op f l a b p,
  placed g (EOp u op f l a b) p -> placed g a (Uid u).
Proof.
  intros g u op f l a b p Hp.
  pose proof (placed_nodup _ _ _ Hp) as Hnd.
  destruct (op_facts _ _ _ _ _ _ Hnd) as (Hab & Hua & Hub).
  destruct Hp as (Hd & (N1 & N2 & HN) & Hin & Hout & Hsub).
  split; [exact Hd|split; [|split; [|split]]].
  - exists N1, ([(Uid u, NOperation op f l)] ++ nodes_of b ++ N2).
    rewrite HN; simpl; rewrite <- app_assoc; reflexivity.
  - intros x y He Hy.
    assert (Hy' : In y (map fst (nodes_of (EOp u op f l a b))))
      by (simpl; rewrite !map_app; apply in_or_app; left; exact Hy).
    destruct (in_op_edges _ _ _ _ _ _ _ _ (Hin x y He Hy'))
      as [H|[[-> ->]|[H|[-> ->]]]]; [exact H| | |]; exfalso.
    + exact (Hua Hy).
    + exact (Hab y Hy (proj2 (edges_in_ids b x y H))).
    + exact (Hua Hy).
  - intros x y He Hx.
    assert (Hx' : In x (map fst (nodes_of (EOp u op f l a b))))
      by (simpl; rewrite !map_app; apply in_or_app; left; exact Hx).
    specialize (Hout x y He Hx'); apply in_app_or in Hout as [H|[H|[]]].
    + destruct (in_op_edges _ _ _ _ _ _ _ _ H) as [H'|[[-> ->]|[H'|[-> ->]]]].
      * apply in_or_app; left; exact H'.
      * apply in_or_app; right; left; reflexivity.
      * exfalso; exact (Hab x Hx (proj1 (edges_in_ids b x y H'))).
      * exfalso; exact (Hab _ Hx (root_in_ids b)).
    + injection H as <- <-; exfalso; exact (Hua Hx).
  - intros x y He; apply Hsub, in_or_app; left.
    simpl; apply in_app_or in He as [He|[He|[]]].
    + apply in_or_app; left; exact He.
    + rewrite <- He; apply in_or_app; right; left; reflexivity.
Qed.

Lemma placed_right : forall g u op f l a b p,
  placed g (EOp u op f l a b) p -> placed g b (Uid u).
Proof.
  intros g u op f l a b p Hp.
  pose proof (placed_nodup _ _ _ Hp) as Hnd.
  destruct (op_facts _ _ _ _ _ _ Hnd) as (Hab & Hua & Hub).
  destruct Hp as (Hd & (N1 & N2 & HN) & Hin & Hout & Hsub).
  split; [exact Hd|split; [|split; [|split]]].
  - exists (N1 ++ nodes_of a ++ [(Uid u, NOperation op f l)]), N2.
    rewrite HN; simpl; rewrite <- !app_assoc; reflexivity.
  - intros x y He Hy.
    assert (Hy' : In y (map fst (nodes_of (EOp u op f l a b))))
      by (simpl; rewrite !map_app; apply in_or_app; right; right; exact Hy).
    destruct (in_op_edges _ _ _ _ _ _ _ _ (Hin x y He Hy'))
      as [H|[[-> ->]|[H|[-> ->]]]]; [| | exact H|]; exfalso.
    + exact (Hab y (proj2 (edges_in_ids a x y H)) Hy).
    + exact (Hub Hy).
    + exact (Hub Hy).
  - intros x y He Hx.
    assert (Hx' : In x (map fst (nodes_of (EOp u op f l a b))))
      by (simpl; rewrite !map_app; apply in_or_app; right; right; exact Hx).
    specialize (Hout x y He Hx'); apply in_app_or in Hout as [H|[H|[]]].
    + destruct (in_op_edges _ _ _ _ _ _ _ _ H) as [H'|[[-> ->]|[H'|[-> ->]]]].
      * exfalso; exact (Hab x (proj1 (edges_in_ids a x y H')) Hx).
      * exfalso; exact (Hab _ (root_in_ids a) Hx).
      * apply in_or_app; left; exact H'.
      * apply in_or_app; right; left; reflexivity.
    + injection H as <- <-; exfalso; exact (Hub Hx).
  - intros x y He; apply Hsub, in_or_app; left.
    simpl; apply in_app_or in He as [He|[He|[]]].
    + apply in_or_app; right; right; apply in_or_app; left; exact He.
    + rewrite <- He; apply in_or_app; right; right; apply in_or_app; right; left; reflexivity.
Qed.

Lemma placed_sub : forall g e p s, placed g e p -> subexpr s e -> exists q, placed g s q.
Proof.
  intros g e p s Hp Hs; revert p Hp; induction Hs as [|u op f l a b Hs IH|u op f l a b Hs IH];
    intros p Hp.
  - exists p; exact Hp.
  - exact (IH _ (placed_left _ _ _ _ _ _ _ _ Hp)).
  - exact (IH _ (placed_right _ _ _ _ _ _ _ _ Hp)).
Qed.

Lemma top_in_nodes : forall s, In (root_id s, top_node s) (nodes_of s).
Proof.
  destruct s as [u c kw|u op f l a b]; simpl; [left; reflexivity|].
  apply in_or_app; right; left; reflexivity.
Qed.

Lemma placed_lookup : forall g s p,
  placed g s p -> lookup (root_id s) (gnodes g) = Some (top_node s).
Proof.
  intros g s p (Hd & (N1 & N2 & HN) & _); apply lookup_in_nodup; [exact Hd|].
  rewrite HN; apply in_or_app; right; apply in_or_app; left; apply top_in_nodes.
Qed.

Lemma has_edge_iff : forall g x y, has_edge g x y = true <-> In (x, y) (gedges g).
Proof.
  intros g x y; unfold has_edge; rewrite existsb_exists; split.
  - intros [[x' y'] [Hin He]]; apply andb_true_iff in He as [E1 E2]; simpl in E1, E2.
    apply nid_eqb_eq in E1, E2; subst; exact Hin.
  - intro Hin; exists (x, y); split; [exact Hin|]; simpl; rewrite !nid_eqb_refl; reflexivity.
Qed.

Lemma map_fst_filter : forall {A : Type} (h : nid -> bool) (l : list (nid * A)),
  map fst (filter (fun p => h (fst p)) l) = filter h (map fst l).
Proof.
  intros A h l; induction l as [|[k x] l IH]; simpl; [reflexivity|].
  destruct (h k); simpl; rewrite IH; reflexivity.
Qed.

Lemma predecessors_eq : forall g v,
  predecessors g v = filter (fun x => has_edge g x v) (map fst (gnodes g)).
Proof.
  intros g v; unfold predecessors; induction (gnodes g) as [|[k x] l IH]; simpl;
    [reflexivity|].
  destruct (has_edge g k v); simpl; rewrite IH; reflexivity.
Qed.

Lemma filter_none : forall {A : Type} (h : A -> bool) l,
  (forall z, In z l -> h z = false) -> filter h l = [].
Proof.
  intros A h l H; induction l as [|z l IH]; simpl; [reflexivity|].
  rewrite H by (left; reflexivity); apply IH; intros; apply H; right; assumption.
Qed.

Lemma filter_one : forall {A : Type} (h : A -> bool) l x,
  NoDup l -> In x l -> (forall z, In z l -> h z = true <-> z = x) -> filter h l = [x].
Proof.
  intros A h l x Hd Hx H; induction l as [|z l IH]; [contradiction|].
  inversion Hd as [|? ? Hz Hd']; subst; simpl.
  destruct Hx as [<-|Hx].
  - rewrite (proj2 (H z (or_introl eq_refl)) eq_refl); f_equal.
    apply filter_none; intros w Hw; destruct (h w) eqn:E; [|reflexivity].
    apply (H w (or_intror Hw)) in E; subst; contradiction.
  - destruct (h z) eqn:E.
    + apply (H z (or_introl eq_refl)) in E; subst; contradiction.
    + apply IH; [exact Hd'|exact Hx|intros; apply H; right; assumption].
Qed.

Lemma leaf_no_preds : forall g u c kw p,
  placed g (EComp u c kw) p -> predecessors g (Uid u) = [].
Proof.
  intros g u c kw p (_ & _ & Hin & _); rewrite predecessors_eq.
  apply filter_none; intros x _; destruct (has_edge g x (Uid u)) eqn:E; [|reflexivity].
  apply has_edge_iff in E; exfalso; exact (Hin x (Uid u) E (or_introl eq_refl)).
Qed.

Lemma op_preds : forall g u op f l a b p,
  placed g (EOp u op f l a b) p -> predecessors g (Uid u) = [root_id a; root_id b].
Proof.
  intros g u op f l a b p Hp.
  pose proof (placed_nodup _ _ _ Hp) as Hnd.
  destruct (op_facts _ _ _ _ _ _ Hnd) as (Hab & Hua & Hub).
  destruct Hp as (Hd & (N1 & N2 & HN) & Hin & _ & Hsub).
  rewrite predecessors_eq.
  assert (Hiff : forall z, has_edge g z (Uid u) = true <-> z = root_id a \/ z = root_id b).
  { intro z; rewrite has_edge_iff; split.
    - intro He.
      assert (Hu : In (Uid u) (map fst (nodes_of (EOp u op f l a b))))
        by exact (in_fst _ _ (top_in_nodes (EOp u op f l a b))).
      destruct (in_op_edges _ _ _ _ _ _ _ _ (Hin z (Uid u) He Hu))
        as [H|[[-> _]|[H|[-> _]]]].
      + exfalso; exact (Hua (proj2 (edges_in_ids a z (Uid u) H))).
      + left; reflexivity.
      + exfalso; exact (Hub (proj2 (edges_in_ids b z (Uid u) H))).
      + right; reflexivity.
    - intros [->| ->]; apply Hsub, in_or_app; left; simpl; apply in_or_app.
      + right; left; reflexivity.
      + right; right; apply in_or_app; right; left; reflexivity. }
  assert (HL : map fst (gnodes g) = (map fst N1 ++ map fst (nodes_of a)) ++
                 (Uid u :: map fst (nodes_of b) ++ map fst N2))
    by (rewrite HN; simpl; rewrite !map_app; simpl; rewrite <- !app_assoc; reflexivity).
  assert (Hd' := Hd); rewrite HL in Hd'; rewrite HL.
  rewrite filter_app.
  rewrite (filter_one _ _ (root_id a)); [rewrite (filter_one _ _ (root_id b)); [reflexivity| | |]| | |].
  - exact (NoDup_app_remove_l _ _ Hd').
  - simpl; right; apply in_or_app; left; apply root_in_ids.
  - intros z Hz; rewrite Hiff; split; [|intros ->; right; reflexivity].
    intros [->|E]; [|exact E]; exfalso.
    apply (NoDup_app_disj _ _ (root_id a) Hd'); [apply in_or_app; right; apply root_in_ids|exact Hz].
  - exact (NoDup_app_remove_r _ _ Hd').
  - apply in_or_app; right; apply root_in_ids.
  - intros z Hz; rewrite Hiff; split; [|intros ->; left; reflexivity].
    intros [E| ->]; [exact E|]; exfalso.
    apply (NoDup_app_disj _ _ (root_id b) Hd' Hz); simpl; right; apply in_or_app; left;
      apply root_in_ids.
Qed.

Lemma root_not_source : forall s x y, NoDup (uids s) ->
  In (x, y) (edges_of s) -> x <> root_id s.
Proof.
  intros s x y Hnd He; destruct s as [u c kw|u op f l a b]; [contradiction|].
  destruct (op_facts _ _ _ _ _ _ Hnd) as (Hab & Hua & Hub); simpl root_id.
  destruct (in_op_edges _ _ _ _ _ _ _ _ He) as [H|[[Ex _]|[H|[Ex _]]]]; intro E.
  - subst x; exact (Hua (proj1 (edges_in_ids a _ y H))).
  - apply Hua; rewrite <- E, Ex; apply root_in_ids.
  - subst x; exact (Hub (proj1 (edges_in_ids b _ y H))).
  - apply Hub; rewrite <- E, Ex; apply root_in_ids.
Qed.

Lemma placed_successors : forall g s p, placed g s p ->
  exists tl, successors g (root_id s) = p :: tl.
Proof.
  intros g s p Hp.
  pose proof (placed_nodup _ _ _ Hp) as Hnd.
  destruct Hp as (_ & _ & _ & Hout & Hsub).
  assert (Hall : forall z, In z (successors g (root_id s)) -> z = p).
  { intros z Hz; unfold successors in Hz; apply in_map_iff in Hz as [[x y] [Hy Hz]].
    apply filter_In in Hz as [Hz E]; simpl in Hy, E; subst z.
    apply nid_eqb_eq in E; subst x.
    specialize (Hout _ _ Hz (in_fst _ _ (top_in_nodes s))).
    apply in_app_or in Hout as [H|[H|[]]].
    - exfalso; exact (root_not_source s _ y Hnd H eq_refl).
    - injection H; intros; subst; reflexivity. }
  assert (Hp : In p (successors g (root_id s))).
  { unfold successors; apply in_map_iff; exists (root_id s, p); split; [reflexivity|].
    apply filter_In; split; [apply Hsub, in_or_app; right; left; reflexivity|].
    simpl; apply nid_eqb_refl. }
  destruct (successors g (root_id s)) as [|z tl]; [contradiction|].
  exists tl; rewrite (Hall z (or_introl eq_refl)); reflexivity.
Qed.

Lemma shortest_path_out : forall k g, shortest_path k g Out = Some [Out].
Proof. intros [|k] g; reflexivity. Qed.

Lemma shortest_path_step : forall k g s p, placed g s p ->
  shortest_path (S k) g (root_id s) = option_map (cons (root_id s)) (shortest_path k g p).
Proof.
  intros k g s p Hp; destruct (placed_successors _ _ _ Hp) as [tl Htl].
  simpl shortest_path at 1; rewrite Htl.
  destruct s as [u c kw|u op f l a b]; reflexivity.
Qed.

Lemma option_map_app_cons : forall (L : list nid) x o,
  option_map (app L) (option_map (cons x) o) = option_map (app (L ++ [x])) o.
Proof.
  intros L x [o|]; simpl; [rewrite <- app_assoc; reflexivity|reflexivity].
Qed.

Lemma path_subs_op_cases : forall u op f l a b r,
  path_subs (EOp u op f l a b) r <> [] ->
  (path_subs a r <> [] /\
   path_subs (EOp u op f l a b) r = path_subs a r ++ [EOp u op f l a b]) \/
  (path_subs a r = [] /\ path_subs b r <> [] /\
   path_subs (EOp u op f l a b) r = path_subs b r ++ [EOp u op f l a b]).
Proof.
  intros u op f l a b r; simpl.
  destruct (path_subs a r) as [|x xs]; [destruct (path_subs b r) as [|y ys]|].
  - intro H; contradiction.
  - intros _; right; split; [reflexivity|split; [discriminate|reflexivity]].
  - intros _; left; split; [discriminate|reflexivity].
Qed.

(** Walking from a leaf [r] of a placed sub-model to its parent [p]
    visits the top nodes of the sub-models on the way. *)
Lemma placed_shortest_path : forall s g p r k, placed g s p ->
  path_subs s r <> [] ->
  shortest_path (List.length (path_subs s r) + k) g r
  = option_map (app (map root_id (path_subs s r))) (shortest_path k g p).
Proof.
  induction s as [u c kw|u op f l a IHa b IHb]; intros g p r k Hp Hne.
  - simpl in Hne |- *; destruct (nid_eqb r (Uid u)) eqn:E; [|contradiction].
    apply nid_eqb_eq in E; subst r.
    exact (shortest_path_step k g (EComp u c kw) p Hp).
  - pose proof (placed_left _ _ _ _ _ _ _ _ Hp) as Ha.
    pose proof (placed_right _ _ _ _ _ _ _ _ Hp) as Hb.
    pose proof (shortest_path_step k g _ p Hp) as Hstep; simpl root_id in Hstep.
    destruct (path_subs_op_cases u op f l a b r Hne) as [(Hna & ->)|(_ & Hnb & ->)];
      rewrite length_app, map_app; simpl List.length;
      rewrite <- Nat.add_assoc; simpl (1 + k)%nat.
    + rewrite (IHa g (Uid u) r (S k) Ha Hna), Hstep, option_map_app_cons; reflexivity.
    + rewrite (IHb g (Uid u) r (S k) Hb Hnb), Hstep, option_map_app_cons; reflexivity.
Qed.

Lemma placed_length : forall g s p, placed g s p ->
  (List.length (uids s) <= List.length (gnodes g))%nat.
Proof.
  intros g s p (_ & (N1 & N2 & HN) & _).
  rewrite HN, !length_app.
  assert (E : List.length (nodes_of s) = List.length (uids s))
    by (rewrite <- (length_map fst), ids_uids, length_map; reflexivity).
  lia.
Qed.

Lemma find_child : forall fu g a q, placed g a q ->
  find_multiplicative_components fu g (root_id a) = find_sem a ->
  (if ostr_eqb (get_component_type (lookup (root_id a) (gnodes g))) "multiplicative"%string
   then [root_id a]
   else if ostr_eqb (get_operation_type (lookup (root_id a) (gnodes g))) "mul"%string
   then find_multiplicative_components fu g (root_id a) else [])
  = mult_child a (find_sem a).
Proof.
  intros fu g a q Hq Hf; rewrite (placed_lookup _ _ _ Hq), Hf.
  destruct a as [u c kw|u op f l a b]; reflexivity.
Qed.

(** On the top node of a placed sub-model, [find_multiplicative_components]
    computes [find_sem]. *)
Lemma placed_find : forall s g p fuel, placed g s p ->
  (List.length (uids s) <= fuel)%nat ->
  find_multiplicative_components fuel g (root_id s) = find_sem s.
Proof.
  induction s as [u c kw|u op f l a IHa b IHb]; intros g p fuel Hp Hf.
  - destruct fuel as [|fu]; [simpl in Hf; lia|].
    pose proof (placed_lookup _ _ _ Hp) as HL; simpl in HL |- *; rewrite HL; reflexivity.
  - destruct fuel as [|fu]; [simpl in Hf; rewrite length_app in Hf; simpl in Hf; lia|].
    pose proof (placed_left _ _ _ _ _ _ _ _ Hp) as Ha.
    pose proof (placed_right _ _ _ _ _ _ _ _ Hp) as Hb.
    simpl in Hf; rewrite length_app in Hf; simpl in Hf.
    pose proof (placed_lookup _ _ _ Hp) as HL; simpl root_id in HL |- *.
    cbn [find_multiplicative_components]; rewrite HL, (op_preds _ _ _ _ _ _ _ _ Hp).
    cbn [top_node get_operation_type ostr_eqb find_sem].
    destruct (String.eqb op "mul"%string); [|reflexivity].
    cbn [flat_map]; rewrite app_nil_r.
    rewrite (find_child fu g a (Uid u) Ha (IHa g (Uid u) fu Ha ltac:(lia))).
    rewrite (find_child fu g b (Uid u) Hb (IHb g (Uid u) fu Hb ltac:(lia))).
    reflexivity.
Qed.

Lemma existsb_nid_In : forall v l, existsb (nid_eqb v) l = true <-> In v l.
Proof.
  intros v l; rewrite existsb_exists; split.
  - intros [x [Hx E]]; apply nid_eqb_eq in E; subst; exact Hx.
  - intro H; exists v; split; [exact H|apply nid_eqb_refl].
Qed.

Lemma lookup_app : forall {A : Type} v (l1 l2 : list (nid * A)),
  lookup v (l1 ++ l2) = match lookup v l1 with Some x => Some x | None => lookup v l2 end.
Proof.
  intros A v l1 l2; induction l1 as [|[k x] l1 IH]; simpl; [reflexivity|].
  destruct (nid_eqb v k); [reflexivity|exact IH].
Qed.

Lemma lookup_some_in : forall {A : Type} v x (l : list (nid * A)),
  lookup v l = Some x -> In (v, x) l.
Proof.
  intros A v x l; induction l as [|[k y] l IH]; simpl; intro H; [discriminate|].
  destruct (nid_eqb v k) eqn:E.
  - apply nid_eqb_eq in E; injection H as ->; subst; left; reflexivity.
  - right; apply IH, H.
Qed.

Lemma subexpr_trans : forall s t e, subexpr s t -> subexpr t e -> subexpr s e.
Proof.
  intros s t e Hst Hte; induction Hte.
  - exact Hst.
  - apply sub_left; apply IHHte; exact Hst.
  - apply sub_right; apply IHHte; exact Hst.
Qed.

Lemma sub_nodes_incl : forall s e, subexpr s e -> incl (nodes_of s) (nodes_of e).
Proof.
  intros s e H; induction H as [|u op f l a b H IH|u op f l a b H IH]; intros x Hx.
  - exact Hx.
  - simpl; apply in_or_app; left; apply IH, Hx.
  - simpl; apply in_or_app; right; right; apply IH, Hx.
Qed.

Lemma sub_root_in : forall s e, subexpr s e -> In (root_id s) (map fst (nodes_of e)).
Proof.
  intros s e H; apply (in_fst (root_id s, top_node s)), (sub_nodes_incl s e H), top_in_nodes.
Qed.

Lemma nodup_ids : forall e, NoDup (uids e) -> NoDup (map fst (nodes_of e)).
Proof. intros e H; rewrite ids_uids; apply NoDup_map_Uid, H. Qed.

Lemma sub_lookup : forall s e, NoDup (uids e) -> subexpr s e ->
  lookup (root_id s) (nodes_of e) = Some (top_node s).
Proof.
  intros s e Hnd H; apply lookup_in_nodup; [apply nodup_ids, Hnd|].
  apply (sub_nodes_incl s e H), top_in_nodes.
Qed.

Lemma sub_unique : forall e s1 s2, NoDup (uids e) ->
  subexpr s1 e -> subexpr s2 e -> root_id s1 = root_id s2 -> s1 = s2.
Proof.
  induction e as [u c kw|u op f l a IHa b IHb]; intros s1 s2 Hnd H1 H2 Hr.
  - inversion H1; inversion H2; subst; reflexivity.
  - destruct (op_facts _ _ _ _ _ _ Hnd) as (Hab & Hua & Hub).
    destruct (wf_op _ _ _ _ _ _ Hnd) as (Ha & Hb & _).
    inversion H1 as [|? ? ? ? ? ? S1|? ? ? ? ? ? S1]; subst;
    inversion H2 as [|? ? ? ? ? ? S2|? ? ? ? ? ? S2]; subst; try reflexivity;
      cbn [root_id] in Hr.
    + exfalso; apply Hua; rewrite Hr; apply sub_root_in, S2.
    + exfalso; apply Hub; rewrite Hr; apply sub_root_in, S2.
    + exfalso; apply Hua; rewrite <- Hr; apply sub_root_in, S1.
    + exact (IHa _ _ Ha S1 S2 Hr).
    + exfalso; apply (Hab (root_id s1)); [apply sub_root_in, S1|rewrite Hr; apply sub_root_in, S2].
    + exfalso; apply Hub; rewrite <- Hr; apply sub_root_in, S1.
    + exfalso; apply (Hab (root_id s2)); [apply sub_root_in, S2|rewrite <- Hr; apply sub_root_in, S1].
    + exact (IHb _ _ Hb S1 S2 Hr).
Qed.

Lemma node_inv : forall e v n, In (v, n) (nodes_of e) ->
  exists s, subexpr s e /\ root_id s = v /\ top_node s = n.
Proof.
  induction e as [u c kw|u op f l a IHa b IHb]; intros v n H.
  - destruct H as [H|[]]; injection H as <- <-.
    exists (EComp u c kw); split; [constructor|split; reflexivity].
  - simpl in H; apply in_app_or in H as [H|[H|H]].
    + destruct (IHa v n H) as (s & Hs & E); exists s; split; [apply sub_left, Hs|exact E].
    + injection H as <- <-; exists (EOp u op f l a b); split; [constructor|split; reflexivity].
    + destruct (IHb v n H) as (s & Hs & E); exists s; split; [apply sub_right, Hs|exact E].
Qed.

Lemma lookup_rt_of : forall e w, NoDup (uids e) ->
  lookup w (rt_of e) =
  match lookup w (nodes_of e) with Some (NComponent c _ _) => Some c | _ => None end.
Proof.
  induction e as [u c kw|u op f l a IHa b IHb]; intros w Hnd.
  - simpl; destruct (nid_eqb w (Uid u)); reflexivity.
  - destruct (op_facts _ _ _ _ _ _ Hnd) as (Hab & Hua & Hub).
    destruct (wf_op _ _ _ _ _ _ Hnd) as (Ha & Hb & _).
    simpl; rewrite !lookup_app, (IHa w Ha).
    destruct (lookup w (nodes_of a)) as [n|] eqn:En.
    + assert (Hw : In w (map fst (nodes_of a)))
        by exact (in_fst (w, n) _ (lookup_some_in _ _ _ En)).
      rewrite (IHb w Hb), (lookup_notin w (nodes_of b)) by (intro; apply (Hab w); assumption).
      destruct n; reflexivity.
    + simpl; rewrite (IHb w Hb); destruct (nid_eqb w (Uid u)) eqn:Eu; [|reflexivity].
      apply nid_eqb_eq in Eu; subst; rewrite lookup_notin by exact Hub; reflexivity.
Qed.

Lemma map2_map : forall (f : R -> R -> R) (g1 g2 : R -> R) K,
  map2 f (map g1 K) (map g2 K) = map (fun x => f (g1 x) (g2 x)) K.
Proof.
  intros f g1 g2 K; induction K as [|x K IH]; simpl; [reflexivity|].
  unfold map2 in *; simpl; rewrite IH; reflexivity.
Qed.

Lemma gnodes_build : forall e, NoDup (uids e) ->
  gnodes (build e) = nodes_of e ++ [(Out, NOut)].
Proof. intros e H; rewrite build_shape by exact H; reflexivity. Qed.

Lemma lookup_build_root : forall e s, NoDup (uids e) -> subexpr s e ->
  lookup (root_id s) (gnodes (build e)) = Some (top_node s).
Proof.
  intros e s Hnd Hs; rewrite gnodes_build by exact Hnd.
  apply lookup_app_l, sub_lookup; assumption.
Qed.

Lemma lookup_build_out : forall e, NoDup (uids e) ->
  lookup Out (gnodes (build e)) = Some NOut.
Proof.
  intros e Hnd; rewrite gnodes_build by exact Hnd.
  rewrite lookup_app_r by (apply lookup_notin, out_not_in_ids); reflexivity.
Qed.

Lemma root_not_out : forall s, root_id s <> Out.
Proof. destruct s; discriminate. Qed.

Lemma mem_node_in : forall v l, mem_node v l = true -> In v (map fst l).
Proof.
  intros v l H; unfold mem_node in H; apply existsb_exists in H as [[k n] [Hin E]].
  simpl in E; apply nid_eqb_eq in E; subst; exact (in_fst (v, n) l Hin).
Qed.

Lemma lookup_rt_of_top : forall e s, NoDup (uids e) -> subexpr s e ->
  lookup (root_id s) (rt_of e) =
  match s with EComp _ c _ => Some c | _ => None end.
Proof.
  intros e s Hnd Hs; rewrite lookup_rt_of, sub_lookup by assumption.
  destruct s; reflexivity.
Qed.

Lemma lookup_rt_of_out : forall e, NoDup (uids e) -> lookup Out (rt_of e) = None.
Proof.
  intros e Hnd; rewrite lookup_rt_of, lookup_notin by (apply out_not_in_ids || exact Hnd).
  reflexivity.
Qed.

(** The loop over the topological order: after it, [runtime_modules] maps
    every component node to its component and [continuum] holds at the top
    node of each sub-model that sub-model's curve on the knots. *)
Lemma eval_graph_build : forall E K o seen rt cont, NoDup (uids E) ->
  (forall w, lookup w rt = if existsb (nid_eqb w) seen then lookup w (rt_of E) else None) ->
  (forall s, subexpr s E -> In (root_id s) seen ->
             lookup (root_id s) cont = Some (map (cont_sem s) K)) ->
  forallb (fun v => mem_node v (gnodes (build E))) o = true ->
  preds_first (build E) seen o = true ->
  exists rt' cont', eval_graph (build E) K o rt cont = Some (rt', cont') /\
    (forall w, lookup w rt' =
               if existsb (nid_eqb w) (rev o ++ seen) then lookup w (rt_of E) else None) /\
    (forall s, subexpr s E -> In (root_id s) (rev o ++ seen) ->
               lookup (root_id s) cont' = Some (map (cont_sem s) K)).
Proof.
  intros E K o; induction o as [|v o IH]; intros seen rt cont Hnd Hrt Hcont Hmem Hpf.
  - exists rt, cont; split; [reflexivity|split; assumption].
  - simpl in Hmem, Hpf; apply andb_true_iff in Hmem as [Hv Hmem].
    apply andb_true_iff in Hpf as [Hpv Hpf].
    replace (rev (v :: o) ++ seen) with (rev o ++ v :: seen)
      by (simpl; rewrite <- app_assoc; reflexivity).
    pose proof (placed_top E Hnd) as Htop.
    destruct (nid_eq_dec v Out) as [->|Hvo].
    + simpl eval_graph; rewrite lookup_build_out by exact Hnd.
      apply IH; try assumption.
      * intro w; rewrite Hrt; simpl; destruct (nid_eqb w Out) eqn:Ew; [|reflexivity].
        apply nid_eqb_eq in Ew; subst; rewrite lookup_rt_of_out by exact Hnd.
        destruct (existsb (nid_eqb Out) seen); reflexivity.
      * intros s Hs [H|H]; [exfalso; exact (root_not_out s (eq_sym H))|].
        apply Hcont; assumption.
    + apply mem_node_in in Hv; rewrite gnodes_build, map_app in Hv by exact Hnd.
      apply in_app_or in Hv as [Hv|[Hv|[]]]; [|symmetry in Hv; contradiction].
      apply in_map_iff in Hv as [[v' n] [Ev Hv]]; simpl in Ev; subst v'.
      destruct (node_inv E v n Hv) as (s & Hs & Hr & _); subst v.
      destruct (placed_sub _ _ _ s Htop Hs) as [q Hq].
      simpl eval_graph; rewrite (lookup_build_root E s Hnd Hs).
      destruct s as [u c kw|u op f l a b] eqn:Es; cbn [top_node root_id] in *.
      * apply IH; try assumption.
        -- intro w; simpl lookup; simpl existsb; destruct (nid_eqb w (Uid u)) eqn:Ew.
           ++ apply nid_eqb_eq in Ew; subst w.
              exact (eq_sym (lookup_rt_of_top E _ Hnd Hs)).
           ++ rewrite Hrt; reflexivity.
        -- intros s' Hs' Hin; simpl lookup.
           destruct (nid_eqb (root_id s') (Uid u)) eqn:Ew.
           ++ apply nid_eqb_eq in Ew; rewrite (sub_unique E s' _ Hnd Hs' Hs Ew); reflexivity.
           ++ destruct Hin as [Hin|Hin]; [rewrite Hin, nid_eqb_refl in Ew; discriminate|].
              apply Hcont; assumption.
      * rewrite (op_preds _ _ _ _ _ _ _ _ Hq) in Hpv |- *.
        simpl in Hpv; rewrite andb_true_r in Hpv; apply andb_true_iff in Hpv as [Ha Hb].
        apply existsb_nid_In in Ha; apply existsb_nid_In in Hb.
        rewrite (Hcont a (subexpr_trans _ _ _ (sub_left _ u op f l a b (sub_refl a)) Hs) Ha).
        rewrite (Hcont b (subexpr_trans _ _ _ (sub_right _ u op f l a b (sub_refl b)) Hs) Hb).
        apply IH; try assumption.
        -- intro w; rewrite Hrt; simpl existsb; destruct (nid_eqb w (Uid u)) eqn:Ew;
             [|reflexivity].
           apply nid_eqb_eq in Ew; subst w.
           pose proof (lookup_rt_of_top E _ Hnd Hs) as HR; simpl root_id in HR; rewrite HR.
           destruct (existsb (nid_eqb (Uid u)) seen); reflexivity.
        -- intros s' Hs' Hin; simpl lookup.
           destruct (nid_eqb (root_id s') (Uid u)) eqn:Ew.
           ++ apply nid_eqb_eq in Ew; rewrite (sub_unique E s' _ Hnd Hs' Hs Ew).
              rewrite map2_map; reflexivity.
           ++ destruct Hin as [Hin|Hin]; [rewrite <- Hin, nid_eqb_refl in Ew; discriminate|].
              apply Hcont; assumption.
Qed.

Lemma out_preds : forall E, NoDup (uids E) -> predecessors (build E) Out = [root_id E].
Proof.
  intros E Hnd; rewrite predecessors_eq.
  pose proof (build_shape E Hnd) as HB.
  rewrite gnodes_build by exact Hnd.
  apply filter_one; [apply NoDup_build_ids, Hnd| |].
  - rewrite map_app; apply in_or_app; left; apply root_in_ids.
  - intros z _; rewrite has_edge_iff, HB; cbn [gedges]; split.
    + intro H; apply in_app_or in H as [H|[H|[]]].
      * exfalso; exact (out_not_in_ids E (proj2 (edges_in_ids E z Out H))).
      * injection H; intros; subst; reflexivity.
    + intros ->; apply in_or_app; right; left; reflexivity.
Qed.

Lemma root_nodes_leaves : forall e,
  map fst (filter (fun p => ostr_eqb (get_component_type (Some (snd p))) "additive"%string)
                  (nodes_of e)) = add_leaves e.
Proof.
  induction e as [u c kw|u op f l a IHa b IHb].
  - simpl; destruct (String.eqb (ctype c) "additive"%string); reflexivity.
  - cbn [nodes_of add_leaves]; rewrite filter_app, map_app, IHa; f_equal.
    rewrite <- IHb; reflexivity.
Qed.

Lemma root_nodes_build : forall E, NoDup (uids E) -> root_nodes (build E) = add_leaves E.
Proof.
  intros E Hnd; unfold root_nodes.
  pose proof (placed_top E Hnd) as Htop.
  rewrite (gnodes_build E Hnd); rewrite filter_app, map_app.
  simpl filter at 2; rewrite andb_false_r, app_nil_r.
  rewrite <- root_nodes_leaves; f_equal; apply filter_ext_in.
  intros [v n] Hin; simpl.
  destruct n as [c nm kw| |]; [|apply andb_false_r|apply andb_false_r].
  destruct (node_inv E v _ Hin) as (s & Hs & Hr & Ht); subst v.
  destruct s as [u c' kw'|]; [|discriminate]; injection Ht as <- _ _.
  destruct (placed_sub _ _ _ _ Htop Hs) as [q Hq].
  unfold in_degree; simpl root_id; rewrite (leaf_no_preds _ _ _ _ _ Hq); reflexivity.
Qed.

Lemma path_subs_length : forall e r,
  (List.length (path_subs e r) <= List.length (uids e))%nat.
Proof.
  induction e as [u c kw|u op f l a IHa b IHb]; intro r; simpl.
  - destruct (nid_eqb r (Uid u)); simpl; lia.
  - rewrite length_app; simpl.
    specialize (IHa r); specialize (IHb r).
    destruct (path_subs a r) as [|x xs]; [destruct (path_subs b r) as [|y ys]|];
      simpl in *; rewrite ?length_app in *; simpl in *; lia.
Qed.

Lemma path_subs_sub : forall e r s, In s (path_subs e r) -> subexpr s e.
Proof.
  induction e as [u c kw|u op f l a IHa b IHb]; intros r s H; simpl in H.
  - destruct (nid_eqb r (Uid u)); [destruct H as [<-|[]]; constructor|contradiction].
  - destruct (path_subs a r) as [|x xs] eqn:Ea; [destruct (path_subs b r) as [|y ys] eqn:Eb|].
    + contradiction.
    + rewrite app_comm_cons in H; apply in_app_or in H as [H|[<-|[]]]; [|constructor].
      apply sub_right; apply (IHb r); rewrite Eb; exact H.
    + rewrite app_comm_cons in H; apply in_app_or in H as [H|[<-|[]]]; [|constructor].
      apply sub_left; apply (IHa r); rewrite Ea; exact H.
Qed.

Lemma leaves_path : forall e r, In r (add_leaves e) -> path_subs e r <> [].
Proof.
  induction e as [u c kw|u op f l a IHa b IHb]; intros r H; simpl in H |- *.
  - destruct (String.eqb (ctype c) "additive"%string); [|contradiction].
    destruct H as [<-|[]]; rewrite nid_eqb_refl; discriminate.
  - apply in_app_or in H as [H|H].
    + specialize (IHa r H); destruct (path_subs a r); [contradiction|].
      discriminate.
    + specialize (IHb r H); destruct (path_subs a r); [|discriminate].
      destruct (path_subs b r); [contradiction|discriminate].
Qed.

Lemma find_out : forall fuel E, NoDup (uids E) ->
  find_multiplicative_components fuel (build E) Out = [].
Proof.
  intros [|fu] E Hnd; [reflexivity|].
  simpl; rewrite lookup_build_out by exact Hnd; reflexivity.
Qed.

Lemma flat_map_map_ext : forall {A B C : Type} (f : B -> list C) (h : A -> B) g l,
  (forall x, In x l -> f (h x) = g x) -> flat_map f (map h l) = flat_map g l.
Proof.
  intros A B C f h g l H; induction l as [|x l IH]; simpl; [reflexivity|].
  rewrite H by (left; reflexivity); rewrite IH by (intros; apply H; right; assumption).
  reflexivity.
Qed.

Lemma apply_multiplicative_ext : forall rt1 rt2 ms a me,
  (forall w, lookup w rt1 = lookup w rt2) ->
  apply_multiplicative rt1 ms a me = apply_multiplicative rt2 ms a me.
Proof.
  intros rt1 rt2 ms a me H; unfold apply_multiplicative.
  generalize (Some a); induction ms as [|m ms IH]; intro acc; simpl; [reflexivity|].
  rewrite H; apply IH.
Qed.

Lemma line_flux_build : forall E rt ef el eh r, NoDup (uids E) ->
  (forall w, lookup w rt = lookup w (rt_of E)) -> In r (add_leaves E) ->
  line_flux (build E) rt ef el eh r = line_flux_sem E ef el eh r.
Proof.
  intros E rt ef el eh r Hnd Hrt Hr; unfold line_flux, line_flux_sem.
  pose proof (placed_top E Hnd) as Htop.
  assert (HF : List.length (gnodes (build E)) = S (List.length (uids E)))
    by (rewrite gnodes_build, length_app, <- (length_map fst), ids_uids, length_map
          by exact Hnd; simpl; lia).
  pose proof (path_subs_length E r) as Hl.
  pose proof (leaves_path E r Hr) as Hne.
  replace (List.length (gnodes (build E)))
    with (List.length (path_subs E r) + (S (List.length (uids E)) - List.length (path_subs E r)))%nat
    at 1 by lia.
  rewrite (placed_shortest_path E _ Out r _ Htop Hne), shortest_path_out; simpl option_map.
  rewrite Hrt; destruct (lookup r (rt_of E)) as [c|]; [|reflexivity].
  rewrite rev_app_distr; simpl rev at 1; simpl flat_map; rewrite find_out by exact Hnd.
  simpl app; rewrite <- map_rev.
  rewrite (flat_map_map_ext _ root_id find_sem).
  - rewrite (apply_multiplicative_ext rt (rt_of E)) by exact Hrt; reflexivity.
  - intros s Hs; apply in_rev, path_subs_sub in Hs.
    destruct (placed_sub _ _ _ _ Htop Hs) as [q Hq].
    apply (placed_find s _ q); [exact Hq|].
    pose proof (placed_length _ _ _ Hq); lia.
Qed.

Lemma fold_left_ext_in : forall {A B : Type} (f g : A -> B -> A) l a,
  (forall x acc, In x l -> f acc x = g acc x) -> fold_left f l a = fold_left g l a.
Proof.
  intros A B f g l; induction l as [|x l IH]; intros a H; simpl; [reflexivity|].
  rewrite H by (left; reflexivity); apply IH; intros; apply H; right; assumption.
Qed.

Lemma last_opt_last : forall (l : list R), l <> [] -> last_opt l = Some (last l 0).
Proof.
  intros l H; destruct (exists_last H) as [l' [x ->]].
  unfold last_opt; rewrite rev_unit, last_last; reflexivity.
Qed.

(** [flux] on a model built from operands that share no node, whatever the
    topological order: the integrated continuum of the model's curve plus
    the fine-structure sum. *)
Lemma flux_build : forall E o el eh ef, NoDup (uids E) ->
  is_topological_order (build E) o = true -> eh <> [] ->
  List.length el = List.length eh ->
  flux o (build E) el eh ef =
  match fine_sem E ef el eh with
  | Some fs =>
      Some (map2 Rplus (continuum_flux ef (map (cont_sem E) (el ++ [last eh 0])) el eh) fs)
  | None => None
  end.
Proof.
  intros E o el eh ef Hnd Ht Hne Hlen.
  unfold is_topological_order in Ht; apply andb_true_iff in Ht as [Ht Hpf].
  apply andb_true_iff in Ht as [Ht Hmem]; apply andb_true_iff in Ht as [_ Hcov].
  unfold flux; rewrite last_opt_last by exact Hne.
  rewrite Hlen, Nat.eqb_refl; simpl negb; cbv iota.
  destruct (eval_graph_build E (el ++ [last eh 0]) o [] [] [] Hnd)
    as (rt & cont & Hev & Hrt & Hcont); try assumption.
  - intro w; reflexivity.
  - intros s _ [].
  - rewrite Hev, out_preds by exact Hnd.
    rewrite app_nil_r in Hrt, Hcont.
    assert (Hin : forall v, In v (map fst (gnodes (build E))) -> In v (rev o)).
    { intros v Hv; apply in_rev; rewrite rev_involutive.
      rewrite forallb_forall in Hcov; apply existsb_nid_In, Hcov, Hv. }
    rewrite (Hcont E (sub_refl E)).
    2:{ apply Hin; rewrite gnodes_build, map_app by exact Hnd; apply in_or_app; left;
        apply root_in_ids. }
    assert (Hrt' : forall w, lookup w rt = lookup w (rt_of E)).
    { intro w; rewrite Hrt; destruct (existsb (nid_eqb w) (rev o)) eqn:Ew; [reflexivity|].
      rewrite lookup_rt_of by exact Hnd.
      rewrite lookup_notin; [reflexivity|].
      intro Hw; assert (Hw' : In w (rev o))
        by (apply Hin; rewrite gnodes_build, map_app by exact Hnd; apply in_or_app; left;
            exact Hw).
      apply existsb_nid_In in Hw'; rewrite Hw' in Ew; discriminate. }
    unfold fine_structures_flux, fine_sem; rewrite root_nodes_build by exact Hnd.
    rewrite (fold_left_ext_in _
      (fun acc r => match acc, line_flux_sem E ef el eh r with
                    | Some a, Some l => Some (map2 Rplus a l)
                    | _, _ => None end)).
    + destruct (fold_left _ (add_leaves E) _); reflexivity.
    + intros r acc Hr; rewrite line_flux_build by assumption; reflexivity.
Qed.

Lemma map2_cons : forall f x a y b, map2 f (x :: a) (y :: b) = f x y :: map2 f a b.
Proof. reflexivity. Qed.

Lemma map2_nil_l : forall f b, map2 f [] b = [].
Proof. reflexivity. Qed.

Lemma map2_nil_r : forall f a, map2 f a [] = [].
Proof. intros f [|x a]; reflexivity. Qed.

Lemma length_map2 : forall f a b,
  List.length (map2 f a b) = Nat.min (List.length a) (List.length b).
Proof. intros; unfold map2; rewrite length_map, length_combine; reflexivity. Qed.

Ltac map2_nil := unfold map2; simpl; rewrite ?combine_nil; reflexivity.

Lemma map2_plus_swap : forall a b c d : list R,
  map2 Rplus (map2 Rplus a b) (map2 Rplus c d) = map2 Rplus (map2 Rplus a c) (map2 Rplus b d).
Proof.
  induction a as [|x a IH]; intros b c d; [reflexivity|].
  destruct b as [|y b]; [map2_nil|].
  destruct c as [|z c]; [map2_nil|].
  destruct d as [|w d]; [map2_nil|].
  rewrite !map2_cons, IH; f_equal; ring.
Qed.

Lemma map2_plus_assoc : forall a b c : list R,
  map2 Rplus (map2 Rplus a b) c = map2 Rplus a (map2 Rplus b c).
Proof.
  induction a as [|x a IH]; intros b c; [reflexivity|].
  destruct b as [|y b]; [map2_nil|].
  destruct c as [|z c]; [map2_nil|].
  rewrite !map2_cons, IH; f_equal; ring.
Qed.

Lemma map2_plus_zeros : forall (a : list R) (l : list R),
  (List.length a <= List.length l)%nat -> map2 Rplus a (map (fun _ => 0) l) = a.
Proof.
  induction a as [|x a IH]; intros l H; [reflexivity|].
  destruct l as [|y l]; simpl in H; [lia|].
  simpl map; rewrite map2_cons, IH by lia; f_equal; ring.
Qed.

Lemma continuum_flux_cons : forall ef x x' F l0 el h0 eh,
  continuum_flux ef (x :: x' :: F) (l0 :: el) (h0 :: eh) =
  (if ef then trapezoid2 (x * l0 ^ 2) (x' * h0 ^ 2) (ln l0) (ln h0)
   else trapezoid2 (x * l0) (x' * h0) (ln l0) (ln h0))
  :: continuum_flux ef (x' :: F) el eh.
Proof. reflexivity. Qed.

Lemma continuum_flux_short : forall ef x el eh, continuum_flux ef [x] el eh = [].
Proof. reflexivity. Qed.

Lemma continuum_flux_nil_l : forall ef F eh, continuum_flux ef F [] eh = [].
Proof.
  intros ef F eh; unfold continuum_flux; simpl combine at 2; rewrite combine_nil; reflexivity.
Qed.

Lemma continuum_flux_plus : forall ef F G el eh, List.length F = List.length G ->
  continuum_flux ef (map2 Rplus F G) el eh =
  map2 Rplus (continuum_flux ef F el eh) (continuum_flux ef G el eh).
Proof.
  intros ef F; induction F as [|x F IH]; intros G el eh Hl.
  - destruct G; [reflexivity|discriminate].
  - destruct G as [|y G]; [discriminate|]; simpl in Hl.
    destruct F as [|x' F]; destruct G as [|y' G]; try discriminate; [reflexivity|].
    destruct el as [|l0 el]; [rewrite !continuum_flux_nil_l; reflexivity|].
    destruct eh as [|h0 eh]; [reflexivity|].
    rewrite !map2_cons, !continuum_flux_cons, map2_cons; f_equal.
    + destruct ef; unfold trapezoid2; ring.
    + rewrite <- map2_cons; apply IH; simpl in *; lia.
Qed.

Lemma add_leaves_sub : forall e r, In r (add_leaves e) ->
  exists u c kw, r = Uid u /\ subexpr (EComp u c kw) e.
Proof.
  induction e as [u c kw|u op f l a IHa b IHb]; intros r H; simpl in H.
  - destruct (String.eqb (ctype c) "additive"%string); [|contradiction].
    destruct H as [<-|[]]; exists u, c, kw; split; [reflexivity|constructor].
  - apply in_app_or in H as [H|H].
    + destruct (IHa r H) as (u' & c & kw & -> & Hs); exists u', c, kw; split;
        [reflexivity|apply sub_left, Hs].
    + destruct (IHb r H) as (u' & c & kw & -> & Hs); exists u', c, kw; split;
        [reflexivity|apply sub_right, Hs].
Qed.

Lemma find_sem_leaf : forall s m, In m (find_sem s) ->
  exists u c kw, m = Uid u /\ subexpr (EComp u c kw) s.
Proof.
  induction s as [u c kw|u op f l a IHa b IHb]; intros m H; simpl in H; [contradiction|].
  destruct (String.eqb op "mul"%string); [|contradiction].
  apply in_app_or in H as [H|H].
  - destruct a as [ua ca kwa|ua opa fa la a1 a2]; cbn [mult_child] in H.
    + destruct (String.eqb (ctype ca) "multiplicative"%string); [|contradiction].
      destruct H as [<-|[]]; exists ua, ca, kwa; split; [reflexivity|apply sub_left; constructor].
    + destruct (String.eqb opa "mul"%string); [|contradiction].
      destruct (IHa m H) as (u' & c & kw & -> & Hs); exists u', c, kw; split;
        [reflexivity|apply sub_left, Hs].
  - destruct b as [ub cb kwb|ub opb fb lb b1 b2]; cbn [mult_child] in H.
    + destruct (String.eqb (ctype cb) "multiplicative"%string); [|contradiction].
      destruct H as [<-|[]]; exists ub, cb, kwb; split; [reflexivity|apply sub_right; constructor].
    + destruct (String.eqb opb "mul"%string); [|contradiction].
      destruct (IHb m H) as (u' & c & kw & -> & Hs); exists u', c, kw; split;
        [reflexivity|apply sub_right, Hs].
Qed.

(** The nodes collected for leaf [r] are component leaves of the model. *)
Lemma mult_nodes_leaf : forall e r m,
  In m (flat_map find_sem (rev (path_subs e r))) ->
  exists u c kw, m = Uid u /\ subexpr (EComp u c kw) e.
Proof.
  intros e r m H; apply in_flat_map in H as [s [Hs Hm]].
  apply in_rev, path_subs_sub in Hs.
  destruct (find_sem_leaf s m Hm) as (u & c & kw & -> & Hl).
  exists u, c, kw; split; [reflexivity|exact (subexpr_trans _ _ _ Hl Hs)].
Qed.

Lemma apply_multiplicative_some : forall rt ms a me,
  (forall m, In m ms -> exists c, lookup m rt = Some c) ->
  List.length a = List.length me ->
  exists fc, apply_multiplicative rt ms a me = Some fc /\ List.length fc = List.length a.
Proof.
  intros rt ms; unfold apply_multiplicative.
  induction ms as [|m ms IH]; intros a me H Hl; simpl.
  - exists a; split; reflexivity.
  - destruct (H m (or_introl eq_refl)) as [c Hc]; rewrite Hc.
    destruct (IH (map2 (fun x e => x * continuum c e) a me) me) as (fc & E & Hfc).
    + intros; apply H; right; assumption.
    + rewrite length_map2, Hl, Nat.min_id; reflexivity.
    + exists fc; split; [exact E|rewrite Hfc, length_map2, Hl, Nat.min_id; reflexivity].
Qed.

Lemma apply_multiplicative_ext_in : forall rt1 rt2 ms a me,
  (forall m, In m ms -> lookup m rt1 = lookup m rt2) ->
  apply_multiplicative rt1 ms a me = apply_multiplicative rt2 ms a me.
Proof.
  intros rt1 rt2 ms a me H; unfold apply_multiplicative.
  generalize (Some a); induction ms as [|m ms IH]; intro acc; simpl; [reflexivity|].
  rewrite H by (left; reflexivity); apply IH; intros; apply H; right; assumption.
Qed.

Lemma line_flux_sem_some : forall e ef el eh r, NoDup (uids e) ->
  List.length el = List.length eh -> In r (add_leaves e) ->
  exists fl, line_flux_sem e ef el eh r = Some fl /\ List.length fl = List.length el.
Proof.
  intros e ef el eh r Hnd Hl Hr; unfold line_flux_sem.
  destruct (add_leaves_sub e r Hr) as (u & c & kw & -> & Hs).
  pose proof (lookup_rt_of_top e _ Hnd Hs) as Hc; simpl root_id in Hc; rewrite Hc.
  destruct (apply_multiplicative_some (rt_of e) (flat_map find_sem (rev (path_subs e (Uid u))))
              (map fst (map (fun p => emission_lines c (fst p) (snd p)) (combine el eh)))
              (map snd (map (fun p => emission_lines c (fst p) (snd p)) (combine el eh))))
    as (fc & E & Hfc).
  - intros m Hm; destruct (mult_nodes_leaf _ _ _ Hm) as (u' & c' & kw' & -> & Hs').
    exists c'; pose proof (lookup_rt_of_top e _ Hnd Hs') as Hc'; exact Hc'.
  - rewrite !length_map; reflexivity.
  - rewrite E; eexists; split; [reflexivity|].
    rewrite !length_map, length_combine, <- Hl, Nat.min_id in Hfc.
    destruct ef; [|exact Hfc].
    rewrite length_map, !length_combine, Hfc, <- Hl, !Nat.min_id; reflexivity.
Qed.

Lemma fine_fold_some : forall (F : nid -> option (list R)) L z,
  (forall r, In r L -> exists fl, F r = Some fl /\ List.length fl = List.length z) ->
  exists fs, fold_left (fun acc r => match acc, F r with
                                     | Some a, Some l => Some (map2 Rplus a l)
                                     | _, _ => None end) L (Some z) = Some fs
             /\ List.length fs = List.length z.
Proof.
  intros F L; induction L as [|r L IH]; intros z H; simpl.
  - exists z; split; reflexivity.
  - destruct (H r (or_introl eq_refl)) as (fl & E & Hfl); rewrite E.
    destruct (IH (map2 Rplus z fl)) as (fs & E' & Hfs).
    + intros r' Hr'; destruct (H r' (or_intror Hr')) as (fl' & E'' & Hl'').
      exists fl'; split; [exact E''|rewrite Hl'', length_map2, Hfl, Nat.min_id; reflexivity].
    + exists fs; split; [exact E'|rewrite Hfs, length_map2, Hfl, Nat.min_id; reflexivity].
Qed.

(** The fine-structure sum of a model built from operands that share no
    node is always defined, one value per bin. *)
Lemma fine_sem_some : forall e ef el eh, NoDup (uids e) ->
  List.length el = List.length eh ->
  exists fs, fine_sem e ef el eh = Some fs /\ List.length fs = List.length el.
Proof.
  intros e ef el eh Hnd Hl; unfold fine_sem.
  destruct (fine_fold_some (line_flux_sem e ef el eh) (add_leaves e) (map (fun _ => 0) el))
    as (fs & E & Hfs).
  - intros r Hr; destruct (line_flux_sem_some e ef el eh r Hnd Hl Hr) as (fl & E & Hfl).
    exists fl; split; [exact E|rewrite Hfl, length_map; reflexivity].
  - exists fs; split; [exact E|rewrite Hfs, length_map; reflexivity].
Qed.

Lemma path_subs_notin : forall e r, ~ In r (map fst (nodes_of e)) -> path_subs e r = [].
Proof.
  induction e as [u c kw|u op f l a IHa b IHb]; intros r H; simpl.
  - destruct (nid_eqb r (Uid u)) eqn:E; [|reflexivity].
    apply nid_eqb_eq in E; subst; exfalso; apply H; left; reflexivity.
  - cbn [nodes_of] in H; rewrite map_app in H; simpl in H.
    rewrite IHa, IHb; [reflexivity| |]; intro Hr; apply H; apply in_or_app.
    + right; right; exact Hr.
    + left; exact Hr.
Qed.

Lemma lookup_rt_of_notin : forall e w, NoDup (uids e) ->
  ~ In w (map fst (nodes_of e)) -> lookup w (rt_of e) = None.
Proof. intros e w Hnd H; rewrite lookup_rt_of, lookup_notin by assumption; reflexivity. Qed.

Lemma leaf_in_ids : forall u c kw e, subexpr (EComp u c kw) e -> In (Uid u) (map fst (nodes_of e)).
Proof. intros u c kw e H; exact (sub_root_in _ _ H). Qed.

Lemma find_sem_add : forall u a b, find_sem (EOp u "add"%string Rplus "+"%string a b) = [].
Proof. reflexivity. Qed.

(** In [A + B] the contribution of an additive leaf of [A] is the one it
    has in [A]. *)
Lemma line_flux_sem_add_l : forall u a b ef el eh r,
  NoDup (uids (EOp u "add"%string Rplus "+"%string a b)) -> In r (add_leaves a) ->
  line_flux_sem (EOp u "add"%string Rplus "+"%string a b) ef el eh r
  = line_flux_sem a ef el eh r.
Proof.
  intros u a b ef el eh r Hnd Hr.
  destruct (wf_op _ _ _ _ _ _ Hnd) as (Ha & Hb & _).
  destruct (add_leaves_sub a r Hr) as (u' & c & kw & -> & Hs).
  unfold line_flux_sem; cbn [rt_of].
  pose proof (lookup_rt_of_top a _ Ha Hs) as Hc; simpl root_id in Hc.
  rewrite (lookup_app_l _ _ _ _ Hc), Hc.
  assert (Hne : path_subs (EOp u "add"%string Rplus "+"%string a b) (Uid u') <> [])
    by (apply leaves_path; simpl; apply in_or_app; left; exact Hr).
  destruct (path_subs_op_cases u "add"%string Rplus "+"%string a b (Uid u') Hne)
    as [(_ & ->)|(Hn & _)].
  - rewrite rev_app_distr; simpl rev at 1; cbn [flat_map app]; rewrite find_sem_add; cbn [app].
    rewrite (apply_multiplicative_ext_in _ (rt_of a)); [reflexivity|].
    intros m Hm; destruct (mult_nodes_leaf _ _ _ Hm) as (u'' & c' & kw' & -> & Hs').
    pose proof (lookup_rt_of_top a _ Ha Hs') as Hc'; simpl root_id in Hc'.
    rewrite (lookup_app_l _ _ _ _ Hc'), Hc'; reflexivity.
  - exfalso; exact (leaves_path a _ Hr Hn).
Qed.

(** In [A + B] the contribution of an additive leaf of [B] is the one it
    has in [B]. *)
Lemma line_flux_sem_add_r : forall u a b ef el eh r,
  NoDup (uids (EOp u "add"%string Rplus "+"%string a b)) -> In r (add_leaves b) ->
  line_flux_sem (EOp u "add"%string Rplus "+"%string a b) ef el eh r
  = line_flux_sem b ef el eh r.
Proof.
  intros u a b ef el eh r Hnd Hr.
  destruct (wf_op _ _ _ _ _ _ Hnd) as (Ha & Hb & _).
  destruct (op_facts _ _ _ _ _ _ Hnd) as (Hab & _ & _).
  destruct (add_leaves_sub b r Hr) as (u' & c & kw & -> & Hs).
  assert (Hna : forall w, In w (map fst (nodes_of b)) -> lookup w (rt_of a) = None)
    by (intros w Hw; apply lookup_rt_of_notin; [exact Ha|intro H; exact (Hab w H Hw)]).
  unfold line_flux_sem; cbn [rt_of].
  rewrite (lookup_app_r _ _ _ (Hna _ (leaf_in_ids _ _ _ _ Hs))).
  pose proof (lookup_rt_of_top b _ Hb Hs) as Hc; simpl root_id in Hc; rewrite Hc.
  assert (Hne : path_subs (EOp u "add"%string Rplus "+"%string a b) (Uid u') <> []).
  { simpl; rewrite path_subs_notin.
    - pose proof (leaves_path b _ Hr) as Hn; destruct (path_subs b (Uid u')); [contradiction|].
      discriminate.
    - intro H; exact (Hab _ H (leaf_in_ids _ _ _ _ Hs)). }
  destruct (path_subs_op_cases u "add"%string Rplus "+"%string a b (Uid u') Hne)
    as [(Hn & _)|(_ & _ & ->)].
  - exfalso; apply Hn, path_subs_notin; intro H; exact (Hab _ H (leaf_in_ids _ _ _ _ Hs)).
  - rewrite rev_app_distr; simpl rev at 1; cbn [flat_map app]; rewrite find_sem_add; cbn [app].
    rewrite (apply_multiplicative_ext_in _ (rt_of b)); [reflexivity|].
    intros m Hm; destruct (mult_nodes_leaf _ _ _ Hm) as (u'' & c' & kw' & -> & Hs').
    rewrite (lookup_app_r _ _ _ (Hna _ (leaf_in_ids _ _ _ _ Hs'))); reflexivity.
Qed.

Lemma fine_fold_none : forall (F : nid -> option (list R)) L,
  fold_left (fun acc r => match acc, F r with
                          | Some a, Some l => Some (map2 Rplus a l)
                          | _, _ => None end) L None = None.
Proof. intros F L; induction L as [|r L IH]; [reflexivity|exact IH]. Qed.

Lemma fine_fold_shift : forall (F : nid -> option (list R)) L x z,
  fold_left (fun acc r => match acc, F r with
                          | Some a, Some l => Some (map2 Rplus a l)
                          | _, _ => None end) L (Some (map2 Rplus x z))
  = option_map (map2 Rplus x)
      (fold_left (fun acc r => match acc, F r with
                               | Some a, Some l => Some (map2 Rplus a l)
                               | _, _ => None end) L (Some z)).
Proof.
  intros F L; induction L as [|r L IH]; intros x z; [reflexivity|].
  simpl; destruct (F r) as [l|].
  - rewrite map2_plus_assoc; apply IH.
  - rewrite !fine_fold_none; reflexivity.
Qed.

(** The fine-structure sum of [A + B] is the sum of those of [A] and [B]. *)
Lemma fine_sem_add : forall u a b ef el eh fa fb,
  NoDup (uids (EOp u "add"%string Rplus "+"%string a b)) ->
  List.length el = List.length eh ->
  fine_sem a ef el eh = Some fa -> fine_sem b ef el eh = Some fb ->
  fine_sem (EOp u "add"%string Rplus "+"%string a b) ef el eh = Some (map2 Rplus fa fb).
Proof.
  intros u a b ef el eh fa fb Hnd Hl Hfa Hfb.
  destruct (wf_op _ _ _ _ _ _ Hnd) as (Ha & Hb & _).
  destruct (fine_sem_some a ef el eh Ha Hl) as (fa' & Hfa' & Hlen).
  rewrite Hfa in Hfa'; injection Hfa' as <-.
  unfold fine_sem in *; cbn [add_leaves]; rewrite fold_left_app.
  rewrite (fold_left_ext_in _
    (fun acc r => match acc, line_flux_sem a ef el eh r with
                  | Some a, Some l => Some (map2 Rplus a l)
                  | _, _ => None end) (add_leaves a)).
  2:{ intros r acc Hr; rewrite line_flux_sem_add_l by assumption; reflexivity. }
  rewrite Hfa.
  rewrite (fold_left_ext_in _
    (fun acc r => match acc, line_flux_sem b ef el eh r with
                  | Some a, Some l => Some (map2 Rplus a l)
                  | _, _ => None end) (add_leaves b)).
  2:{ intros r acc Hr; rewrite line_flux_sem_add_r by assumption; reflexivity. }
  rewrite <- (map2_plus_zeros fa el) at 1 by lia.
  rewrite fine_fold_shift, Hfb; reflexivity.
Qed.

(** ** The namespace resolver *)

Lemma nodup_nid_NoDup : forall l, nodup_nid l = true -> NoDup l.
Proof.
  induction l as [|v l IH]; simpl; intro H; [constructor|].
  apply andb_true_iff in H as [H1 H2]; constructor; [|exact (IH H2)].
  intro Hin; apply existsb_nid_In in Hin; rewrite Hin in H1; discriminate.
Qed.

Lemma set_name_lookup : forall g v s w,
  lookup w (gnodes (set_name g v s)) =
  if nid_eqb w v
  then match lookup w (gnodes g) with
       | Some (NComponent c _ kw) => Some (NComponent c s kw)
       | x => x end
  else lookup w (gnodes g).
Proof.
  intros g v s w; unfold set_name; cbn [gnodes].
  induction (gnodes g) as [|[k n] l IH]; simpl; [destruct (nid_eqb w v); reflexivity|].
  destruct (nid_eqb k v) eqn:Ekv; destruct (nid_eqb w k) eqn:Ewk; simpl; rewrite ?Ewk.
  - apply nid_eqb_eq in Ekv; apply nid_eqb_eq in Ewk; subst.
    rewrite nid_eqb_refl; destruct n; reflexivity.
  - rewrite IH; reflexivity.
  - apply nid_eqb_eq in Ewk; subst; rewrite Ekv; reflexivity.
  - exact IH.
Qed.

Lemma namespace_loop_notin : forall o ns g w, ~ In w o ->
  lookup w (gnodes (namespace_loop o ns g)) = lookup w (gnodes g).
Proof.
  induction o as [|v o IH]; intros ns g w Hw; simpl; [reflexivity|].
  assert (Hne : w <> v) by (intro; subst; apply Hw; left; reflexivity).
  assert (Ho : ~ In w o) by (intro; apply Hw; right; assumption).
  destruct (lookup v (gnodes g)) as [[c name kw| |]|]; rewrite IH by exact Ho;
    try reflexivity.
  rewrite set_name_lookup, nid_eqb_ne by exact Hne; reflexivity.
Qed.

Lemma component_names_ext : forall g1 g2 l,
  (forall w, In w l -> lookup w (gnodes g1) = lookup w (gnodes g2)) ->
  component_names g1 l = component_names g2 l.
Proof.
  intros g1 g2 l H; unfold component_names; induction l as [|w l IH]; [reflexivity|].
  simpl; rewrite (H w (or_introl eq_refl)), IH; [reflexivity|].
  intros x Hx; apply H; right; exact Hx.
Qed.

Lemma component_names_cons : forall g v l,
  component_names g (v :: l) =
  match lookup v (gnodes g) with
  | Some (NComponent _ name _) => [name]
  | _ => [] end ++ component_names g l.
Proof. reflexivity. Qed.

Lemma namespace_loop_at : forall pre o ns g v post, NoDup o -> o = pre ++ v :: post ->
  lookup v (gnodes (namespace_loop o ns g)) =
  match lookup v (gnodes g) with
  | Some (NComponent c name kw) =>
      Some (NComponent c (name ++ "_" ++
              str_nat (count_occ string_dec (ns ++ component_names g (pre ++ [v])) name)) kw)
  | x => x
  end.
Proof.
  induction pre as [|v' pre IH]; intros o ns g v post Hnd Ho; subst o; simpl app in *.
  - inversion Hnd as [|? ? Hv _]; subst; simpl namespace_loop.
    destruct (lookup v (gnodes g)) as [[c name kw| |]|] eqn:Hl;
      rewrite namespace_loop_notin by exact Hv; try exact Hl.
    rewrite set_name_lookup, nid_eqb_refl, Hl.
    unfold component_names; cbn [flat_map]; rewrite ?Hl; simpl; reflexivity.
  - inversion Hnd as [|? ? Hv' Hnd']; subst.
    assert (Hne : v <> v') by (intro; subst; apply Hv'; apply in_or_app; right; left; reflexivity).
    assert (Hpre : forall w, In w (pre ++ [v]) -> w <> v').
    { intros w Hw Heq; subst; apply Hv'; apply in_app_or in Hw as [Hw|[Hw|[]]];
        apply in_or_app; [left; exact Hw|right; left; exact Hw]. }
    simpl namespace_loop.
    destruct (lookup v' (gnodes g)) as [[c' name' kw'| |]|] eqn:Hl';
      rewrite (IH _ _ _ v post Hnd' eq_refl).
    + rewrite set_name_lookup, (nid_eqb_ne v v' Hne).
      rewrite (component_names_ext _ g).
      2:{ intros w Hw; rewrite set_name_lookup, nid_eqb_ne by exact (Hpre w Hw); reflexivity. }
      rewrite <- app_assoc; reflexivity.
    + reflexivity.
    + reflexivity.
    + reflexivity.
Qed.

Lemma build_namespace_at : forall g o pre v post,
  is_topological_order g o = true -> o = pre ++ v :: post ->
  lookup v (gnodes (build_namespace o g)) =
  match lookup v (gnodes g) with
  | Some (NComponent c name kw) =>
      Some (NComponent c (name ++ "_" ++
              str_nat (count_occ string_dec (component_names g (pre ++ [v])) name)) kw)
  | x => x
  end.
Proof.
  intros g o pre v post Ht Ho; unfold is_topological_order in Ht.
  apply andb_true_iff in Ht as [Ht _]; apply andb_true_iff in Ht as [Ht _];
    apply andb_true_iff in Ht as [Ht _].
  unfold build_namespace; rewrite (namespace_loop_at pre o [] g v post); [reflexivity| |exact Ho].
  apply nodup_nid_NoDup; exact Ht.
Qed.

Lemma topological_order_covers : forall g o v x,
  is_topological_order g o = true -> lookup v (gnodes g) = Some x -> In v o.
Proof.
  intros g o v x Ht Hl; unfold is_topological_order in Ht.
  apply andb_true_iff in Ht as [Ht _]; apply andb_true_iff in Ht as [Ht _];
    apply andb_true_iff in Ht as [_ Ht].
  rewrite forallb_forall in Ht; apply existsb_nid_In, Ht.
  exact (in_fst _ _ (lookup_some_in _ _ _ Hl)).
Qed.

Lemma uint_to_string_inj : forall d1 d2, uint_to_string d1 = uint_to_string d2 -> d1 = d2.
Proof.
  induction d1; destruct d2; simpl; intro H; try discriminate; try reflexivity;
    injection H as H; f_equal; apply IHd1; exact H.
Qed.

Lemma str_nat_inj : forall a b, str_nat a = str_nat b -> a = b.
Proof.
  intros a b H; apply uint_to_string_inj in H.
  rewrite <- (DecimalNat.Unsigned.of_to a), <- (DecimalNat.Unsigned.of_to b), H; reflexivity.
Qed.

Lemma no_underscore_uint : forall d, no_underscore (uint_to_string d).
Proof. induction d; simpl; try split; try discriminate; assumption || exact I. Qed.

Lemma no_underscore_app : forall b d, ~ no_underscore (b ++ String "_" d).
Proof.
  induction b as [|c b IH]; simpl; intros d H; [destruct H as [H _]; apply H; reflexivity|].
  destruct H as [_ H]; exact (IH d H).
Qed.

Lemma underscore_split : forall a b d1 d2, no_underscore d1 -> no_underscore d2 ->
  (a ++ String "_" d1 = b ++ String "_" d2)%string -> a = b /\ d1 = d2.
Proof.
  induction a as [|x a IH]; destruct b as [|y b]; simpl; intros d1 d2 H1 H2 H.
  - injection H as ->; split; reflexivity.
  - injection H as _ H; subst; exfalso; exact (no_underscore_app _ _ H1).
  - injection H as _ H; subst; exfalso; exact (no_underscore_app _ _ H2).
  - injection H as -> H; destruct (IH b d1 d2 H1 H2 H) as [-> ->]; split; reflexivity.
Qed.

Lemma namespaced_name_inj : forall a b m n,
  (a ++ "_" ++ str_nat m = b ++ "_" ++ str_nat n)%string -> a = b /\ m = n.
Proof.
  intros a b m n H; apply underscore_split in H; try apply no_underscore_uint.
  destruct H as [-> H]; split; [reflexivity|apply str_nat_inj; exact H].
Qed.

Lemma count_occ_one : forall l (s : string),
  count_occ string_dec (l ++ [s]) s = S (count_occ string_dec l s).
Proof.
  intros l s; rewrite count_occ_app; simpl; destruct (string_dec s s) as [_|n];
    [lia|contradiction].
Qed.

Lemma namespace_before : forall g o pre v mid w post c1 n1 k1 c2 n2 k2,
  is_topological_order g o = true -> o = pre ++ v :: mid ++ w :: post ->
  lookup v (gnodes (build_namespace o g)) = Some (NComponent c1 n1 k1) ->
  lookup w (gnodes (build_namespace o g)) = Some (NComponent c2 n2 k2) -> n1 <> n2.
Proof.
  intros g o pre v mid w post c1 n1 k1 c2 n2 k2 Ht Ho Hv Hw Heq.
  rewrite (build_namespace_at g o pre v (mid ++ w :: post) Ht Ho) in Hv.
  assert (Ho' : o = (pre ++ v :: mid) ++ w :: post) by (rewrite Ho, <- app_assoc; reflexivity).
  rewrite (build_namespace_at g o _ w post Ht Ho') in Hw.
  destruct (lookup v (gnodes g)) as [[cv nv kv| |]|]; try discriminate.
  destruct (lookup w (gnodes g)) as [[cw nw kw| |]|] eqn:Hlw; try discriminate.
  injection Hv as _ <- _; injection Hw as _ <- _.
  apply namespaced_name_inj in Heq as [<- Hc].
  unfold component_names in Hc; rewrite !flat_map_app in Hc; simpl flat_map in Hc.
  rewrite Hlw in Hc; fold (component_names g mid) in Hc; fold (component_names g pre) in Hc.
  revert Hc; destruct (lookup v (gnodes g)) as [[cv' nv' kv'| |]|] eqn:Hlv; simpl app;
    rewrite ?app_nil_r, ?count_occ_app; simpl;
    destruct (string_dec nv nv); try contradiction; try destruct (string_dec nv' nv); lia.
Qed.

(** ** Per-bin continuum *)

Lemma continuum_flux_length : forall ef F el eh,
  List.length F = S (List.length el) -> List.length el = List.length eh ->
  List.length (continuum_flux ef F el eh) = List.length el.
Proof.
  intros ef F el; revert F; induction el as [|l0 el IH]; intros F eh HF Hl.
  - rewrite continuum_flux_nil_l; reflexivity.
  - destruct eh as [|h0 eh]; [discriminate|].
    destruct F as [|x [|x' F]]; simpl in HF; try lia.
    rewrite continuum_flux_cons; simpl; f_equal; apply IH; simpl in *; lia.
Qed.

Lemma continuum_flux_nth : forall ef F el eh i,
  List.length F = S (List.length el) -> List.length el = List.length eh ->
  (i < List.length el)%nat ->
  nth i (continuum_flux ef F el eh) 0 =
  if ef
  then trapezoid2 (nth i F 0 * nth i el 0 ^ 2) (nth (S i) F 0 * nth i eh 0 ^ 2)
                  (ln (nth i el 0)) (ln (nth i eh 0))
  else trapezoid2 (nth i F 0 * nth i el 0) (nth (S i) F 0 * nth i eh 0)
                  (ln (nth i el 0)) (ln (nth i eh 0)).
Proof.
  intros ef F el; revert F; induction el as [|l0 el IH]; intros F eh i HF Hl Hi;
    simpl in Hi; [lia|].
  destruct eh as [|h0 eh]; [discriminate|].
  destruct F as [|x [|x' F]]; simpl in HF; try lia.
  rewrite continuum_flux_cons; destruct i as [|i]; [reflexivity|].
  simpl nth at 1; rewrite IH by (simpl in *; lia); reflexivity.
Qed.

Lemma last_nth : forall (l : list R) d, last l d = nth (List.length l - 1) l d.
Proof.
  induction l as [|x l IH]; intro d; [reflexivity|].
  destruct l as [|y l]; [reflexivity|].
  change (last (x :: y :: l) d) with (last (y :: l) d); rewrite IH.
  simpl; rewrite Nat.sub_0_r; reflexivity.
Qed.

Lemma knot_upper : forall (el eh : list R) i,
  List.length el = List.length eh -> (i < List.length el)%nat ->
  nth (S i) (el ++ [last eh 0]) 0 =
  if (S i <? List.length el)%nat then nth (S i) el 0 else nth i eh 0.
Proof.
  intros el eh i Hl Hi; destruct (Nat.ltb_spec (S i) (List.length el)) as [H|H].
  - apply app_nth1; exact H.
  - rewrite app_nth2 by lia; replace (S i - List.length el)%nat with 0%nat by lia.
    simpl; rewrite last_nth; f_equal; lia.
Qed.

Lemma knot_lower : forall (el : list R) x i, (i < List.length el)%nat ->
  nth i (el ++ [x]) 0 = nth i el 0.
Proof. intros; apply app_nth1; assumption. Qed.

Lemma flux_model : forall E o el eh ef, NoDup (uids E) ->
  is_topological_order (build E) o = true -> eh <> [] ->
  List.length el = List.length eh ->
  exists fs, fine_sem E ef el eh = Some fs /\ List.length fs = List.length el /\
  flux o (build_namespace o (build E)) el eh ef =
  Some (map2 Rplus (continuum_flux ef (map (cont_sem E) (el ++ [last eh 0])) el eh) fs).
Proof.
  intros E o el eh ef Hnd Ht Hne Hl.
  destruct (fine_sem_some E ef el eh Hnd Hl) as (fs & Hfs & Hlen).
  exists fs; split; [exact Hfs|split; [exact Hlen|]].
  rewrite flux_build_namespace, flux_build by assumption; rewrite Hfs; reflexivity.
Qed.

Lemma knots_length : forall E (el eh : list R),
  List.length (map (cont_sem E) (el ++ [last eh 0])) = S (List.length el).
Proof. intros; rewrite length_map, length_app; simpl; lia. Qed.

Lemma from_component_topological : forall u c kw,
  is_topological_order (from_component u c kw) [Uid u; Out] = true.
Proof.
  intros; unfold is_topological_order, preds_first, predecessors, has_edge; simpl;
    rewrite ?Nat.eqb_refl; simpl; rewrite ?Nat.eqb_refl; reflexivity.
Qed.

Lemma namespace_in_order : forall g o v x,
  is_topological_order g o = true ->
  lookup v (gnodes (build_namespace o g)) = Some x -> In v o.
Proof.
  intros g o v x Ht Hl; destruct (in_dec nid_eq_dec v o) as [H|H]; [exact H|].
  unfold build_namespace in Hl; rewrite namespace_loop_notin in Hl by exact H.
  exact (topological_order_covers g o v x Ht Hl).
Qed.

Lemma nth_map_R : forall (f : R -> R) (l : list R) i, (i < List.length l)%nat ->
  nth i (map f l) 0 = f (nth i l 0).
Proof.
  intros f l i Hi; rewrite (nth_indep _ 0 (f 0)) by (rewrite length_map; exact Hi).
  apply map_nth.
Qed.

Lemma fine_sem_no_leaves : forall E ef el eh, add_leaves E = [] ->
  fine_sem E ef el eh = Some (map (fun _ => 0) el).
Proof. intros E ef el eh H; unfold fine_sem; rewrite H; reflexivity. Qed.

(** ** Composing a model with itself

    [A + A] (or [A * A], [compose(A, A, ...)]) with the same object [A]:
    [nx.compose] of a graph with itself is the graph, so the relabelled
    ["out"] becomes an operation node with the single in-edge from [A]'s
    top node. *)

Lemma nx_compose_self : forall G, NoDup (map fst (gnodes G)) -> nx_compose G G = G.
Proof.
  intros [N E] Hd; unfold nx_compose; simpl in *; f_equal.
  - rewrite map_id_in.
    + rewrite filter_none, app_nil_r; [reflexivity|].
      intros p Hp; rewrite mem_node_true by (apply in_fst; exact Hp); reflexivity.
    + intros [k n] Hp; simpl; rewrite (lookup_in_nodup k n N Hd Hp); reflexivity.
  - rewrite filter_none, app_nil_r; [reflexivity|].
    intros e He.
    assert (Hx : existsb (edge_eqb e) E = true).
    { apply existsb_exists; exists e; split; [exact He|].
      unfold edge_eqb; rewrite !nid_eqb_refl; reflexivity. }
    rewrite Hx; reflexivity.
Qed.

Lemma compose_self_shape : forall A u op f l, NoDup (uids A) -> ~ In u (uids A) ->
  compose (build A) (build A) u op f l =
  mkGraph (nodes_of A ++ [(Uid u, NOperation op f l); (Out, NOut)])
          (edges_of A ++ [(root_id A, Uid u); (Uid u, Out)]).
Proof.
  intros A u op f l Hnd Hu; unfold compose.
  rewrite nx_compose_self by (rewrite gnodes_build by exact Hnd; apply NoDup_build_ids, Hnd).
  rewrite build_shape by exact Hnd; cbn [gnodes gedges]; f_equal.
  - rewrite map_app, map_id_in.
    + simpl; rewrite <- app_assoc; reflexivity.
    + intros p Hp; rewrite nid_eqb_ne; [reflexivity|].
      intro E; apply (out_not_in_ids A); rewrite <- E; apply in_fst; exact Hp.
  - rewrite map_app, map_id_in.
    + simpl; unfold relabel_out; rewrite (nid_eqb_ne (root_id A) Out) by apply root_not_out.
      rewrite nid_eqb_refl, <- app_assoc; reflexivity.
    + intros [x y] Hxy; destruct (edges_in_ids A x y Hxy) as [Hx Hy]; unfold relabel_out; simpl.
      rewrite !nid_eqb_ne; [reflexivity| |]; intro E; subst; apply (out_not_in_ids A); assumption.
Qed.

Lemma compose_self_lookup : forall A u op f l, NoDup (uids A) -> ~ In u (uids A) ->
  lookup (Uid u) (gnodes (compose (build A) (build A) u op f l)) = Some (NOperation op f l).
Proof.
  intros A u op f l Hnd Hu; rewrite compose_self_shape by assumption; cbn [gnodes].
  rewrite lookup_app_r; [cbn [lookup]; rewrite nid_eqb_refl; reflexivity|].
  apply lookup_notin; intro H; apply in_ids in H as [x [Hx Hx']].
  injection Hx as ->; contradiction.
Qed.

Lemma compose_self_preds : forall A u op f l, NoDup (uids A) -> ~ In u (uids A) ->
  predecessors (compose (build A) (build A) u op f l) (Uid u) = [root_id A].
Proof.
  intros A u op f l Hnd Hu; rewrite predecessors_eq, compose_self_shape by assumption.
  cbn [gnodes]; apply filter_one.
  - rewrite map_app, ids_uids; simpl; apply NoDup_app.
    + apply NoDup_map_Uid; assumption.
    + constructor; [intros [H|[]]; discriminate|constructor; [intros []|constructor]].
    + intros a Ha Hb; apply in_map_iff in Ha as [x [<- Hx]].
      destruct Hb as [Hb|[Hb|[]]]; [injection Hb as ->; contradiction|discriminate].
  - rewrite map_app; apply in_or_app; left; apply root_in_ids.
  - intros z _; rewrite has_edge_iff; cbn [gedges]; split.
    + intro H; apply in_app_or in H as [H|[H|[H|[]]]].
      * exfalso; destruct (edges_in_ids A z (Uid u) H) as [_ Hz].
        apply in_ids in Hz as [x [Hx Hx']]; injection Hx as ->; contradiction.
      * injection H; intros; subst; reflexivity.
      * injection H; intros; discriminate.
    + intros ->; apply in_or_app; right; left; reflexivity.
Qed.

(** The loop of [flux] raises [IndexError] ([predecessors[1]]) at an
    operation node with fewer than two in-edges. *)
Lemma eval_graph_unary : forall g en o rt cont v op f l,
  In v o -> lookup v (gnodes g) = Some (NOperation op f l) ->
  (List.length (predecessors g v) < 2)%nat -> eval_graph g en o rt cont = None.
Proof.
  intros g en o; induction o as [|w o IH]; intros rt cont v op f l Hin Hl Hp; [contradiction|].
  simpl; destruct (nid_eq_dec w v) as [->|Hne].
  - rewrite Hl; destruct (predecessors g v) as [|c1 [|c2 r]]; try reflexivity.
    simpl in Hp; lia.
  - destruct Hin as [Hin|Hin]; [contradiction|].
    destruct (lookup w (gnodes g)) as [[c nm kw|op' f' l'|]|]; try reflexivity.
    + eapply IH; eauto.
    + destruct (predecessors g w) as [|c1 [|c2 r]]; try reflexivity.
      destruct (lookup c1 cont), (lookup c2 cont); try reflexivity.
      eapply IH; eauto.
    + eapply IH; eauto.
Qed.

Lemma flux_compose_self : forall A u op f l o o' el eh ef,
  NoDup (uids A) -> ~ In u (uids A) ->
  is_topological_order (compose (build A) (build A) u op f l) o = true ->
  flux o (build_namespace o' (compose (build A) (build A) u op f l)) el eh ef = None.
Proof.
  intros A u op f l o o' el eh ef Hnd Hu Ht; rewrite flux_build_namespace; unfold flux.
  destruct (last_opt eh); [|reflexivity].
  destruct (negb _); [reflexivity|]; cbv zeta.
  rewrite (eval_graph_unary _ _ o [] [] (Uid u) op f l); [reflexivity| | |].
  - eapply topological_order_covers; [exact Ht|]; apply compose_self_lookup; assumption.
  - apply compose_self_lookup; assumption.
  - rewrite compose_self_preds by assumption; simpl; lia.
Qed.

(** * The claims *)

(** C1: the rendering of a model made of one component loses the first and
    last characters of the component's text, since [__str__] strips the
    first and last characters without checking for outer parentheses: the
    model [Powerlaw()] (any continuum and line functions) initialises and
    [to_string] gives ["owerlaw("], which is not a model expression. *)
Theorem single_component_to_string_truncated : forall (f : R -> R) (lines : R -> R -> R * R),
  exists m,
    SpectralModel_init [Uid 0; Out]
      (from_component 0 (mkComponent "Powerlaw" "additive" f lines) []) = Some m /\
    to_string (model_graph m) = Some "owerlaw("%string.
Proof. intros f lines; eexists; split; [vm_compute; reflexivity|vm_compute; reflexivity]. Qed.

(** C2 (counterexample): a model made of one additive component with a
    zero continuum and no line flux (any [ModelComponent] subclass may be
    so) has flux 0 on the bin [1, 2], below the floor [1e-6]: [flux]
    applies no floor. *)
Lemma flux_below_floor :
  exists r,
    flux [Uid 0; Out]
      (build_namespace [Uid 0; Out]
         (from_component 0 (mkComponent "Zero" "additive" (fun _ => 0) (fun el eh => (0, (el + eh) / 2))) []))
      [1] [2] false = Some [r] /\ r < / 1000000.
Proof. exists 0; split; [cbn; f_equal; f_equal; unfold trapezoid2; ring|lra]. Qed.

(** C2: [flux] returns, unclipped, the integrated continuum plus the sum of
    the fine-structure contributions: for a model built from components by
    [+], [*] or [compose] with operands sharing no node, on equal-length
    non-empty bins, the result is exactly
    [continuum_flux] of the continuum curve on the knots, plus [fine_sem]. *)
Theorem flux_unclipped_sum : forall E o el eh ef, NoDup (uids E) ->
  is_topological_order (build E) o = true -> eh <> [] ->
  List.length el = List.length eh ->
  exists fs, fine_sem E ef el eh = Some fs /\
  flux o (build_namespace o (build E)) el eh ef =
  Some (map2 Rplus (continuum_flux ef (map (cont_sem E) (el ++ [last eh 0])) el eh) fs).
Proof.
  intros E o el eh ef Hnd Ht Hne Hl.
  destruct (flux_model E o el eh ef Hnd Ht Hne Hl) as (fs & Hfs & _ & Hf).
  exists fs; split; assumption.
Qed.

Lemma flux_unclipped_sum_witness :
  NoDup (uids (EOp 3 "add" Rplus "+" (EComp 1 (Powerlaw 1 1) []) (EComp 2 (Powerlaw 2 1) []))) /\
  is_topological_order (build (EOp 3 "add" Rplus "+" (EComp 1 (Powerlaw 1 1) []) (EComp 2 (Powerlaw 2 1) [])))
    [Uid 1; Uid 2; Uid 3; Out] = true /\
  [2; 3] <> [] /\ List.length [1; 2] = List.length [2; 3] /\
  exists fs, fine_sem (EOp 3 "add" Rplus "+" (EComp 1 (Powerlaw 1 1) []) (EComp 2 (Powerlaw 2 1) []))
               true [1; 2] [2; 3] = Some fs /\
  flux [Uid 1; Uid 2; Uid 3; Out]
    (build_namespace [Uid 1; Uid 2; Uid 3; Out]
       (build (EOp 3 "add" Rplus "+" (EComp 1 (Powerlaw 1 1) []) (EComp 2 (Powerlaw 2 1) []))))
    [1; 2] [2; 3] true =
  Some (map2 Rplus (continuum_flux true
          (map (cont_sem (EOp 3 "add" Rplus "+" (EComp 1 (Powerlaw 1 1) []) (EComp 2 (Powerlaw 2 1) [])))
               ([1; 2] ++ [last [2; 3] 0])) [1; 2] [2; 3]) fs).
Proof.
  assert (Hnd : NoDup (uids (EOp 3 "add" Rplus "+" (EComp 1 (Powerlaw 1 1) []) (EComp 2 (Powerlaw 2 1) []))))
    by (simpl; repeat constructor; simpl; lia).
  assert (Ht : is_topological_order (build (EOp 3 "add" Rplus "+" (EComp 1 (Powerlaw 1 1) [])
                 (EComp 2 (Powerlaw 2 1) []))) [Uid 1; Uid 2; Uid 3; Out] = true)
    by (vm_compute; reflexivity).
  split; [exact Hnd|split; [exact Ht|split; [discriminate|split; [reflexivity|]]]].
  apply flux_unclipped_sum; [exact Hnd|exact Ht|discriminate|reflexivity].
Defined.

(** C3 (counterexample): [A + A] with the same model [A] (one additive
    component of constant continuum and line flux 1): [nx.compose] merges the two copies of
    [A]'s component, the operation node gets one in-edge and the flux
    evaluation fails ([IndexError]), while [A]'s flux exists. *)
Lemma flux_add_same_operand_fails :
  (exists r, flux [Uid 1; Out]
               (build_namespace [Uid 1; Out] (from_component 1 (mkComponent "Const" "additive" (fun _ => 1) (fun el eh => (1, (el + eh) / 2))) []))
               [1] [2] false = Some r) /\
  is_topological_order
    (add_graph (from_component 1 (mkComponent "Const" "additive" (fun _ => 1) (fun el eh => (1, (el + eh) / 2))) [])
               (from_component 1 (mkComponent "Const" "additive" (fun _ => 1) (fun el eh => (1, (el + eh) / 2))) []) 2)
    [Uid 1; Uid 2; Out] = true /\
  flux [Uid 1; Uid 2; Out]
    (build_namespace [Uid 1; Uid 2; Out]
       (add_graph (from_component 1 (mkComponent "Const" "additive" (fun _ => 1) (fun el eh => (1, (el + eh) / 2))) [])
                  (from_component 1 (mkComponent "Const" "additive" (fun _ => 1) (fun el eh => (1, (el + eh) / 2))) []) 2))
    [1] [2] false = None.
Proof.
  split; [eexists; cbn; reflexivity|split; [vm_compute; reflexivity|vm_compute; reflexivity]].
Qed.

(** C3: for models [A] and [B] built with no component object or model used
    twice (no node shared between or inside them), on equal-length non-empty
    bins, [flux(A + B)] is the element-wise sum of [flux(A)] and [flux(B)],
    and the additive roots of [A + B] are those of [A] followed by those of
    [B].  The hypothesis cannot be dropped: for [A + A] with the same object
    [A] (any such model, fresh id for the operation), [flux(A)] is defined
    while the evaluation of [A + A] fails. *)
Theorem flux_add :
  (forall u a b oA oB oAB el eh ef,
  NoDup (uids (EOp u "add" Rplus "+" a b)) ->
  is_topological_order (build a) oA = true ->
  is_topological_order (build b) oB = true ->
  is_topological_order (add_graph (build a) (build b) u) oAB = true ->
  eh <> [] -> List.length el = List.length eh ->
  exists fa fb,
    flux oA (build_namespace oA (build a)) el eh ef = Some fa /\
    flux oB (build_namespace oB (build b)) el eh ef = Some fb /\
    flux oAB (build_namespace oAB (add_graph (build a) (build b) u)) el eh ef =
      Some (map2 Rplus fa fb) /\
    root_nodes (add_graph (build a) (build b) u) = root_nodes (build a) ++ root_nodes (build b)) /\
  (forall u a oA oAA el eh ef,
    NoDup (uids a) -> ~ In u (uids a) ->
    is_topological_order (build a) oA = true ->
    is_topological_order (add_graph (build a) (build a) u) oAA = true ->
    eh <> [] -> List.length el = List.length eh ->
    (exists fa, flux oA (build_namespace oA (build a)) el eh ef = Some fa) /\
    flux oAA (build_namespace oAA (add_graph (build a) (build a) u)) el eh ef = None).
Proof.
  split.
  2:{ intros u a oA oAA el eh ef Hnd Hu HtA HtAA Hne Hl; split.
      - destruct (flux_model a oA el eh ef Hnd HtA Hne Hl) as (fa & _ & _ & H).
        rewrite H; eexists; reflexivity.
      - unfold add_graph in *; apply flux_compose_self; assumption. }
  intros u a b oA oB oAB el eh ef Hnd HtA HtB HtAB Hne Hl.
  destruct (wf_op _ _ _ _ _ _ Hnd) as (Ha & Hb & _).
  destruct (flux_model a oA el eh ef Ha HtA Hne Hl) as (fa & Hfa & Hla & HA).
  destruct (flux_model b oB el eh ef Hb HtB Hne Hl) as (fb & Hfb & Hlb & HB).
  change (add_graph (build a) (build b) u) with (build (EOp u "add" Rplus "+" a b)) in *.
  destruct (flux_model _ oAB el eh ef Hnd HtAB Hne Hl) as (fab & Hfab & _ & HAB).
  rewrite (fine_sem_add u a b ef el eh fa fb Hnd Hl Hfa Hfb) in Hfab.
  injection Hfab as <-.
  eexists; eexists; split; [exact HA|split; [exact HB|split]].
  - rewrite HAB; f_equal; cbn [cont_sem].
    rewrite <- (map2_map Rplus (cont_sem a) (cont_sem b)).
    rewrite continuum_flux_plus by (rewrite !length_map; reflexivity).
    apply map2_plus_swap.
  - rewrite !root_nodes_build by assumption; reflexivity.
Qed.

Lemma flux_add_witness :
  (NoDup (uids (EOp 3 "add" Rplus "+" (EComp 1 (Powerlaw 1 1) []) (EComp 2 (Powerlaw 2 1) []))) /\
  is_topological_order (build (EComp 1 (Powerlaw 1 1) [])) [Uid 1; Out] = true /\
  is_topological_order (build (EComp 2 (Powerlaw 2 1) [])) [Uid 2; Out] = true /\
  is_topological_order (add_graph (build (EComp 1 (Powerlaw 1 1) [])) (build (EComp 2 (Powerlaw 2 1) [])) 3)
    [Uid 1; Uid 2; Uid 3; Out] = true /\
  [2; 3] <> [] /\ List.length [1; 2] = List.length [2; 3] /\
  exists fa fb,
    flux [Uid 1; Out] (build_namespace [Uid 1; Out] (build (EComp 1 (Powerlaw 1 1) []))) [1; 2] [2; 3] false = Some fa /\
    flux [Uid 2; Out] (build_namespace [Uid 2; Out] (build (EComp 2 (Powerlaw 2 1) []))) [1; 2] [2; 3] false = Some fb /\
    flux [Uid 1; Uid 2; Uid 3; Out]
      (build_namespace [Uid 1; Uid 2; Uid 3; Out]
         (add_graph (build (EComp 1 (Powerlaw 1 1) [])) (build (EComp 2 (Powerlaw 2 1) [])) 3))
      [1; 2] [2; 3] false = Some (map2 Rplus fa fb) /\
    root_nodes (add_graph (build (EComp 1 (Powerlaw 1 1) [])) (build (EComp 2 (Powerlaw 2 1) [])) 3) =
      root_nodes (build (EComp 1 (Powerlaw 1 1) [])) ++ root_nodes (build (EComp 2 (Powerlaw 2 1) []))) /\
  (NoDup (uids (EComp 1 (Powerlaw 1 1) [])) /\ ~ In 2%nat (uids (EComp 1 (Powerlaw 1 1) [])) /\
   is_topological_order (build (EComp 1 (Powerlaw 1 1) [])) [Uid 1; Out] = true /\
   is_topological_order (add_graph (build (EComp 1 (Powerlaw 1 1) [])) (build (EComp 1 (Powerlaw 1 1) [])) 2)
     [Uid 1; Uid 2; Out] = true /\
   [2; 3] <> [] /\ List.length [1; 2] = List.length [2; 3] /\
   (exists fa, flux [Uid 1; Out] (build_namespace [Uid 1; Out] (build (EComp 1 (Powerlaw 1 1) []))) [1; 2] [2; 3] false = Some fa) /\
   flux [Uid 1; Uid 2; Out]
     (build_namespace [Uid 1; Uid 2; Out]
        (add_graph (build (EComp 1 (Powerlaw 1 1) [])) (build (EComp 1 (Powerlaw 1 1) [])) 2))
     [1; 2] [2; 3] false = None).
Proof.
  split.
  2:{ assert (Hnd : NoDup (uids (EComp 1 (Powerlaw 1 1) []))) by (simpl; repeat constructor; intros []).
      assert (Hu : ~ In 2%nat (uids (EComp 1 (Powerlaw 1 1) []))) by (simpl; intros [H|[]]; discriminate).
      assert (HtA : is_topological_order (build (EComp 1 (Powerlaw 1 1) [])) [Uid 1; Out] = true)
        by (vm_compute; reflexivity).
      assert (HtAA : is_topological_order (add_graph (build (EComp 1 (Powerlaw 1 1) []))
                       (build (EComp 1 (Powerlaw 1 1) [])) 2) [Uid 1; Uid 2; Out] = true)
        by (vm_compute; reflexivity).
      assert (Hne : [2; 3] <> []) by discriminate.
      assert (Hl : List.length [1; 2] = List.length [2; 3]) by reflexivity.
      do 6 (split; [assumption|]).
      exact (proj2 flux_add 2%nat _ _ _ [1; 2] [2; 3] false Hnd Hu HtA HtAA Hne Hl). }
  assert (Hnd : NoDup (uids (EOp 3 "add" Rplus "+" (EComp 1 (Powerlaw 1 1) []) (EComp 2 (Powerlaw 2 1) []))))
    by (simpl; repeat constructor; simpl; lia).
  assert (H1 : is_topological_order (build (EComp 1 (Powerlaw 1 1) [])) [Uid 1; Out] = true)
    by (vm_compute; reflexivity).
  assert (H2 : is_topological_order (build (EComp 2 (Powerlaw 2 1) [])) [Uid 2; Out] = true)
    by (vm_compute; reflexivity).
  assert (H3 : is_topological_order (add_graph (build (EComp 1 (Powerlaw 1 1) []))
                 (build (EComp 2 (Powerlaw 2 1) [])) 3) [Uid 1; Uid 2; Uid 3; Out] = true)
    by (vm_compute; reflexivity).
  split; [exact Hnd|split; [exact H1|split; [exact H2|split; [exact H3|]]]].
  split; [discriminate|split; [reflexivity|]].
  apply (proj1 flux_add); [exact Hnd|exact H1|exact H2|exact H3|discriminate|reflexivity].
Defined.

(** C4: in [Tbabs() * (Phabs() * Gauss())] the multiplicative nodes
    collected for the root [Gauss] along its path [Gauss, inner mul, outer
    mul, out] are [Tbabs, Phabs, Phabs]: the outer operation recurses into
    the inner one, which is visited again on the path.  The line flux is
    scaled by the absorbers at the mean energy, but by [Phabs] twice, while
    the continuum carries [Phabs] once. *)
Theorem nested_absorber_applied_twice :
  forall (t1 t2 cg : R -> R) (l1 l2 lines : R -> R -> R * R) (el eh : R),
  let Tb := mkComponent "Tbabs" "multiplicative" t1 l1 in
  let Ph := mkComponent "Phabs" "multiplicative" t2 l2 in
  let G := mkComponent "Gauss" "additive" cg lines in
  let g := mul_graph (from_component 1 Tb [])
             (mul_graph (from_component 2 Ph []) (from_component 3 G []) 4) 5 in
  let o := [Uid 1; Uid 2; Uid 3; Uid 4; Uid 5; Out] in
  let ns := build_namespace o g in
  is_topological_order g o = true /\
  root_nodes ns = [Uid 3] /\
  shortest_path (List.length (gnodes ns)) ns (Uid 3) = Some [Uid 3; Uid 4; Uid 5; Out] /\
  flat_map (find_multiplicative_components (List.length (gnodes ns)) ns)
    (rev [Uid 3; Uid 4; Uid 5; Out]) = [Uid 1; Uid 2; Uid 2] /\
  flux o ns [el] [eh] false =
  Some [trapezoid2 (t1 el * (t2 el * cg el) * el) (t1 eh * (t2 eh * cg eh) * eh) (ln el) (ln eh)
        + fst (lines el eh) * t1 (snd (lines el eh)) * t2 (snd (lines el eh))
          * t2 (snd (lines el eh))].
Proof.
  intros. split; [vm_compute; reflexivity|]. split; [vm_compute; reflexivity|].
  split; [vm_compute; reflexivity|]. split; [vm_compute; reflexivity|].
  cbn. destruct (lines el eh) as [lf me]; cbn. f_equal. f_equal. ring.
Qed.

(** C5 (counterexample): [A + A] with the same model [A] (one additive
    component of constant continuum and line flux 1): the merged graph has one copy of
    [A]'s component, the operation node has one in-edge, and the model
    construction fails. *)
Lemma compose_same_operand_merges :
  predecessors
    (add_graph (from_component 1 (mkComponent "Const" "additive" (fun _ => 1) (fun el eh => (1, (el + eh) / 2))) [])
               (from_component 1 (mkComponent "Const" "additive" (fun _ => 1) (fun el eh => (1, (el + eh) / 2))) []) 2)
    (Uid 2) = [Uid 1] /\
  is_topological_order
    (add_graph (from_component 1 (mkComponent "Const" "additive" (fun _ => 1) (fun el eh => (1, (el + eh) / 2))) [])
               (from_component 1 (mkComponent "Const" "additive" (fun _ => 1) (fun el eh => (1, (el + eh) / 2))) []) 2)
    [Uid 1; Uid 2; Out] = true /\
  SpectralModel_init [Uid 1; Uid 2; Out]
    (add_graph (from_component 1 (mkComponent "Const" "additive" (fun _ => 1) (fun el eh => (1, (el + eh) / 2))) [])
               (from_component 1 (mkComponent "Const" "additive" (fun _ => 1) (fun el eh => (1, (el + eh) / 2))) []) 2) = None.
Proof.
  split; [reflexivity|split; [vm_compute; reflexivity|vm_compute; reflexivity]].
Qed.

(** C5: when the operands are built with no component object or model used
    twice (no node shared between or inside them), [compose] takes the
    disjoint union of their nodes, puts the operation node between them and
    a fresh sink after it, with the edges of both operands, one edge from
    each operand's top node into the operation node and one from it into
    the sink; every operation node of the result has exactly two in-edges,
    the one of the new operation node being the two operands' top nodes;
    and the model construction succeeds.  [compose] does not make its
    operands disjoint: composing such a model [A] with itself (any
    operation, so [A + A] and [A * A]) keeps one copy of [A]'s nodes, the
    new operation node has the single in-edge from [A]'s top node, and the
    model construction fails. *)
Theorem compose_disjoint_operands :
  (forall u op f l a b o,
  NoDup (uids (EOp u op f l a b)) ->
  is_topological_order (compose (build a) (build b) u op f l) o = true ->
  NoDup (map fst (gnodes (compose (build a) (build b) u op f l))) /\
  gnodes (compose (build a) (build b) u op f l) =
    (nodes_of a ++ [(Uid u, NOperation op f l)] ++ nodes_of b) ++ [(Out, NOut)] /\
  gedges (compose (build a) (build b) u op f l) =
    (edges_of a ++ [(root_id a, Uid u)] ++ edges_of b ++ [(root_id b, Uid u)]) ++ [(Uid u, Out)] /\
  predecessors (compose (build a) (build b) u op f l) (Uid u) = [root_id a; root_id b] /\
  (forall v op' f' l', lookup v (gnodes (compose (build a) (build b) u op f l)) =
     Some (NOperation op' f' l') -> in_degree (compose (build a) (build b) u op f l) v = 2%nat) /\
  exists m, SpectralModel_init o (compose (build a) (build b) u op f l) = Some m) /\
  (forall u op f l a o,
    NoDup (uids a) -> ~ In u (uids a) ->
    is_topological_order (compose (build a) (build a) u op f l) o = true ->
    gnodes (compose (build a) (build a) u op f l) =
      nodes_of a ++ [(Uid u, NOperation op f l); (Out, NOut)] /\
    predecessors (compose (build a) (build a) u op f l) (Uid u) = [root_id a] /\
    in_degree (compose (build a) (build a) u op f l) (Uid u) = 1%nat /\
    SpectralModel_init o (compose (build a) (build a) u op f l) = None).
Proof.
  split.
  2:{ intros u op f l a o Hnd Hu Ht.
      split; [rewrite compose_self_shape by assumption; reflexivity|].
      split; [apply compose_self_preds; assumption|].
      split; [unfold in_degree; rewrite compose_self_preds by assumption; reflexivity|].
      unfold SpectralModel_init; rewrite flux_compose_self by assumption; reflexivity. }
  intros u op f l a b o Hnd Ht.
  change (compose (build a) (build b) u op f l) with (build (EOp u op f l a b)) in *.
  pose proof (placed_top _ Hnd) as Hp.
  split; [rewrite gnodes_build by exact Hnd; apply NoDup_build_ids; exact Hnd|].
  split; [rewrite gnodes_build by exact Hnd; reflexivity|].
  split; [rewrite build_shape by exact Hnd; reflexivity|].
  split; [exact (op_preds _ _ _ _ _ _ _ _ Hp)|].
  split.
  - intros v op' f' l' Hv; apply lookup_some_in in Hv.
    rewrite gnodes_build in Hv by exact Hnd; apply in_app_or in Hv as [Hv|[Hv|[]]];
      [|discriminate].
    destruct (node_inv _ _ _ Hv) as (s & Hs & <- & Htop).
    destruct s as [u' c kw|u' op'' f'' l'' a' b']; [discriminate|].
    destruct (placed_sub _ _ _ _ Hp Hs) as [q Hq].
    unfold in_degree; cbn [root_id]; rewrite (op_preds _ _ _ _ _ _ _ _ Hq); reflexivity.
  - unfold SpectralModel_init.
    destruct (flux_model _ o (repeat 1 10) (repeat 1 10) false Hnd Ht) as (fs & _ & _ & H);
      [discriminate|reflexivity|].
    rewrite H; eexists; reflexivity.
Qed.

Lemma compose_disjoint_operands_witness :
  (NoDup (uids (EOp 3 "add" Rplus "+" (EComp 1 (Powerlaw 1 1) []) (EComp 2 (Powerlaw 2 1) []))) /\
  is_topological_order (compose (build (EComp 1 (Powerlaw 1 1) [])) (build (EComp 2 (Powerlaw 2 1) []))
    3 "add" Rplus "+") [Uid 1; Uid 2; Uid 3; Out] = true /\
  let g := compose (build (EComp 1 (Powerlaw 1 1) [])) (build (EComp 2 (Powerlaw 2 1) [])) 3 "add" Rplus "+" in
  NoDup (map fst (gnodes g)) /\
  gnodes g = (nodes_of (EComp 1 (Powerlaw 1 1) []) ++ [(Uid 3, NOperation "add" Rplus "+")] ++
              nodes_of (EComp 2 (Powerlaw 2 1) [])) ++ [(Out, NOut)] /\
  gedges g = (edges_of (EComp 1 (Powerlaw 1 1) []) ++ [(root_id (EComp 1 (Powerlaw 1 1) []), Uid 3)] ++
              edges_of (EComp 2 (Powerlaw 2 1) []) ++ [(root_id (EComp 2 (Powerlaw 2 1) []), Uid 3)]) ++
             [(Uid 3, Out)] /\
  predecessors g (Uid 3) = [root_id (EComp 1 (Powerlaw 1 1) []); root_id (EComp 2 (Powerlaw 2 1) [])] /\
  (forall v op' f' l', lookup v (gnodes g) = Some (NOperation op' f' l') -> in_degree g v = 2%nat) /\
  exists m, SpectralModel_init [Uid 1; Uid 2; Uid 3; Out] g = Some m) /\
  (NoDup (uids (EOp 3 "add" Rplus "+" (EComp 1 (Powerlaw 1 1) []) (EComp 2 (Powerlaw 2 1) []))) /\
   ~ In 4%nat (uids (EOp 3 "add" Rplus "+" (EComp 1 (Powerlaw 1 1) []) (EComp 2 (Powerlaw 2 1) []))) /\
   is_topological_order
     (compose (build (EOp 3 "add" Rplus "+" (EComp 1 (Powerlaw 1 1) []) (EComp 2 (Powerlaw 2 1) [])))
              (build (EOp 3 "add" Rplus "+" (EComp 1 (Powerlaw 1 1) []) (EComp 2 (Powerlaw 2 1) [])))
              4 "mul" Rmult "*") [Uid 1; Uid 2; Uid 3; Uid 4; Out] = true /\
   gnodes (compose (build (EOp 3 "add" Rplus "+" (EComp 1 (Powerlaw 1 1) []) (EComp 2 (Powerlaw 2 1) [])))
                   (build (EOp 3 "add" Rplus "+" (EComp 1 (Powerlaw 1 1) []) (EComp 2 (Powerlaw 2 1) [])))
                   4 "mul" Rmult "*") =
     nodes_of (EOp 3 "add" Rplus "+" (EComp 1 (Powerlaw 1 1) []) (EComp 2 (Powerlaw 2 1) [])) ++
       [(Uid 4, NOperation "mul" Rmult "*"); (Out, NOut)] /\
   predecessors (compose (build (EOp 3 "add" Rplus "+" (EComp 1 (Powerlaw 1 1) []) (EComp 2 (Powerlaw 2 1) [])))
                         (build (EOp 3 "add" Rplus "+" (EComp 1 (Powerlaw 1 1) []) (EComp 2 (Powerlaw 2 1) [])))
                         4 "mul" Rmult "*") (Uid 4) =
     [root_id (EOp 3 "add" Rplus "+" (EComp 1 (Powerlaw 1 1) []) (EComp 2 (Powerlaw 2 1) []))] /\
   in_degree (compose (build (EOp 3 "add" Rplus "+" (EComp 1 (Powerlaw 1 1) []) (EComp 2 (Powerlaw 2 1) [])))
                      (build (EOp 3 "add" Rplus "+" (EComp 1 (Powerlaw 1 1) []) (EComp 2 (Powerlaw 2 1) [])))
                      4 "mul" Rmult "*") (Uid 4) = 1%nat /\
   SpectralModel_init [Uid 1; Uid 2; Uid 3; Uid 4; Out]
     (compose (build (EOp 3 "add" Rplus "+" (EComp 1 (Powerlaw 1 1) []) (EComp 2 (Powerlaw 2 1) [])))
              (build (EOp 3 "add" Rplus "+" (EComp 1 (Powerlaw 1 1) []) (EComp 2 (Powerlaw 2 1) [])))
              4 "mul" Rmult "*") = None).
Proof.
  split.
  2:{ assert (Hnd : NoDup (uids (EOp 3 "add" Rplus "+" (EComp 1 (Powerlaw 1 1) []) (EComp 2 (Powerlaw 2 1) []))))
        by (simpl; repeat constructor; simpl; lia).
      assert (Hu : ~ In 4%nat (uids (EOp 3 "add" Rplus "+" (EComp 1 (Powerlaw 1 1) []) (EComp 2 (Powerlaw 2 1) []))))
        by (simpl; lia).
      assert (Ht : is_topological_order
                     (compose (build (EOp 3 "add" Rplus "+" (EComp 1 (Powerlaw 1 1) []) (EComp 2 (Powerlaw 2 1) [])))
                              (build (EOp 3 "add" Rplus "+" (EComp 1 (Powerlaw 1 1) []) (EComp 2 (Powerlaw 2 1) [])))
                              4 "mul" Rmult "*") [Uid 1; Uid 2; Uid 3; Uid 4; Out] = true)
        by (vm_compute; reflexivity).
      split; [exact Hnd|split; [exact Hu|split; [exact Ht|]]].
      exact (proj2 compose_disjoint_operands 4%nat "mul"%string Rmult "*"%string _ _ Hnd Hu Ht). }
  assert (Hnd : NoDup (uids (EOp 3 "add" Rplus "+" (EComp 1 (Powerlaw 1 1) []) (EComp 2 (Powerlaw 2 1) []))))
    by (simpl; repeat constructor; simpl; lia).
  assert (Ht : is_topological_order (compose (build (EComp 1 (Powerlaw 1 1) []))
                 (build (EComp 2 (Powerlaw 2 1) [])) 3 "add" Rplus "+") [Uid 1; Uid 2; Uid 3; Out] = true)
    by (vm_compute; reflexivity).
  split; [exact Hnd|split; [exact Ht|]].
  exact (proj1 compose_disjoint_operands 3%nat "add"%string Rplus "+"%string (EComp 1 (Powerlaw 1 1) [])
           (EComp 2 (Powerlaw 2 1) []) [Uid 1; Uid 2; Uid 3; Out] Hnd Ht).
Defined.

(** C6: along a topological order [o] of a graph, [build_namespace] renames
    each component node [v] to [kind_k], [kind] being its name in the raw
    graph and [k] the number of component nodes of that kind up to and
    including [v] in [o]; the names of two different component nodes of the
    result differ; and since the resolver reads the raw graph, which it
    never changes, re-running it on a model's raw graph gives back the
    model's graph, names included. *)
Theorem build_namespace_names : forall g o, is_topological_order g o = true ->
  (forall pre v post c name kw, o = pre ++ v :: post ->
     lookup v (gnodes g) = Some (NComponent c name kw) ->
     lookup v (gnodes (build_namespace o g)) =
     Some (NComponent c (name ++ "_" ++
             str_nat (count_occ string_dec (component_names g (pre ++ [v])) name)) kw)) /\
  (forall v w c1 n1 k1 c2 n2 k2, v <> w ->
     lookup v (gnodes (build_namespace o g)) = Some (NComponent c1 n1 k1) ->
     lookup w (gnodes (build_namespace o g)) = Some (NComponent c2 n2 k2) -> n1 <> n2) /\
  (forall m, SpectralModel_init o g = Some m -> build_namespace o (raw_graph m) = model_graph m).
Proof.
  intros g o Ht; split; [|split].
  - intros pre v post c name kw Ho Hl; rewrite (build_namespace_at g o pre v post Ht Ho), Hl;
      reflexivity.
  - intros v w c1 n1 k1 c2 n2 k2 Hvw Hv Hw.
    pose proof (namespace_in_order g o v _ Ht Hv) as Hvo.
    pose proof (namespace_in_order g o w _ Ht Hw) as Hwo.
    destruct (in_split v o) as (pre & post & Ho); [exact Hvo|].
    rewrite Ho in Hwo; apply in_app_or in Hwo as [Hwo|[Hwo|Hwo]]; [|congruence|].
    + destruct (in_split w pre) as (pre1 & mid & ->); [exact Hwo|].
      intro Heq; symmetry in Heq; revert Heq.
      apply (namespace_before g o pre1 w mid v post c2 n2 k2 c1 n1 k1 Ht); [|exact Hw|exact Hv].
      rewrite Ho, <- app_assoc; reflexivity.
    + destruct (in_split w post) as (mid & post' & ->); [exact Hwo|].
      exact (namespace_before g o pre v mid w post' c1 n1 k1 c2 n2 k2 Ht Ho Hv Hw).
  - intros m Hm; unfold SpectralModel_init in Hm.
    destruct (flux o (build_namespace o g) (repeat 1 10) (repeat 1 10) false); [|discriminate].
    injection Hm as <-; reflexivity.
Qed.

Lemma build_namespace_names_witness :
  is_topological_order (add_graph (from_component 1 (Powerlaw 1 1) []) (from_component 2 (Powerlaw 2 1) []) 3)
    [Uid 1; Uid 2; Uid 3; Out] = true /\
  let g := add_graph (from_component 1 (Powerlaw 1 1) []) (from_component 2 (Powerlaw 2 1) []) 3 in
  let o := [Uid 1; Uid 2; Uid 3; Out] in
  (forall pre v post c name kw, o = pre ++ v :: post ->
     lookup v (gnodes g) = Some (NComponent c name kw) ->
     lookup v (gnodes (build_namespace o g)) =
     Some (NComponent c (name ++ "_" ++
             str_nat (count_occ string_dec (component_names g (pre ++ [v])) name)) kw)) /\
  (forall v w c1 n1 k1 c2 n2 k2, v <> w ->
     lookup v (gnodes (build_namespace o g)) = Some (NComponent c1 n1 k1) ->
     lookup w (gnodes (build_namespace o g)) = Some (NComponent c2 n2 k2) -> n1 <> n2) /\
  (forall m, SpectralModel_init o g = Some m -> build_namespace o (raw_graph m) = model_graph m).
Proof.
  assert (Ht : is_topological_order (add_graph (from_component 1 (Powerlaw 1 1) [])
                 (from_component 2 (Powerlaw 2 1) []) 3) [Uid 1; Uid 2; Uid 3; Out] = true)
    by (vm_compute; reflexivity).
  split; [exact Ht|].
  exact (build_namespace_names _ _ Ht).
Defined.

(** C7: the continuum part of [flux] on bin [i] is the trapezoid in
    [ln E] between [ln e_low[i]] and [ln e_high[i]] of the continuum curve
    times [E] (photon flux) or times [E ^ 2] (energy flux), the curve being
    taken on the knots [e_low ++ [e_high[-1]]]; the fine-structure sum is
    added to it. *)
Theorem flux_continuum_log_trapezoid : forall E o el eh ef, NoDup (uids E) ->
  is_topological_order (build E) o = true -> eh <> [] ->
  List.length el = List.length eh ->
  exists C fs,
    flux o (build_namespace o (build E)) el eh ef = Some (map2 Rplus C fs) /\
    fine_sem E ef el eh = Some fs /\
    List.length C = List.length el /\
    forall i, (i < List.length el)%nat ->
    nth i C 0 =
    if ef
    then trapezoid2 (cont_sem E (nth i el 0) * nth i el 0 ^ 2)
                    (cont_sem E (nth (S i) (el ++ [last eh 0]) 0) * nth i eh 0 ^ 2)
                    (ln (nth i el 0)) (ln (nth i eh 0))
    else trapezoid2 (cont_sem E (nth i el 0) * nth i el 0)
                    (cont_sem E (nth (S i) (el ++ [last eh 0]) 0) * nth i eh 0)
                    (ln (nth i el 0)) (ln (nth i eh 0)).
Proof.
  intros E o el eh ef Hnd Ht Hne Hl.
  destruct (flux_model E o el eh ef Hnd Ht Hne Hl) as (fs & Hfs & _ & Hf).
  eexists; exists fs; split; [exact Hf|split; [exact Hfs|split]].
  - apply continuum_flux_length; [apply knots_length|exact Hl].
  - intros i Hi; rewrite continuum_flux_nth by (try apply knots_length; assumption).
    rewrite !nth_map_R by (rewrite length_app; simpl; lia).
    rewrite knot_lower by exact Hi; reflexivity.
Qed.

Lemma flux_continuum_log_trapezoid_witness :
  NoDup (uids (EComp 0 (Powerlaw 1 1) [])) /\
  is_topological_order (build (EComp 0 (Powerlaw 1 1) [])) [Uid 0; Out] = true /\
  [2; 4] <> [] /\ List.length [1; 3] = List.length [2; 4] /\
  exists C fs,
    flux [Uid 0; Out] (build_namespace [Uid 0; Out] (build (EComp 0 (Powerlaw 1 1) []))) [1; 3] [2; 4] true
      = Some (map2 Rplus C fs) /\
    fine_sem (EComp 0 (Powerlaw 1 1) []) true [1; 3] [2; 4] = Some fs /\
    List.length C = List.length [1; 3] /\
    forall i, (i < List.length [1; 3])%nat ->
    nth i C 0 =
    if true
    then trapezoid2 (cont_sem (EComp 0 (Powerlaw 1 1) []) (nth i [1; 3] 0) * nth i [1; 3] 0 ^ 2)
                    (cont_sem (EComp 0 (Powerlaw 1 1) []) (nth (S i) ([1; 3] ++ [last [2; 4] 0]) 0)
                       * nth i [2; 4] 0 ^ 2)
                    (ln (nth i [1; 3] 0)) (ln (nth i [2; 4] 0))
    else trapezoid2 (cont_sem (EComp 0 (Powerlaw 1 1) []) (nth i [1; 3] 0) * nth i [1; 3] 0)
                    (cont_sem (EComp 0 (Powerlaw 1 1) []) (nth (S i) ([1; 3] ++ [last [2; 4] 0]) 0)
                       * nth i [2; 4] 0)
                    (ln (nth i [1; 3] 0)) (ln (nth i [2; 4] 0)).
Proof.
  assert (Hnd : NoDup (uids (EComp 0 (Powerlaw 1 1) []))) by (repeat constructor; simpl; lia).
  assert (Ht : is_topological_order (build (EComp 0 (Powerlaw 1 1) [])) [Uid 0; Out] = true)
    by (vm_compute; reflexivity).
  split; [exact Hnd|split; [exact Ht|split; [discriminate|split; [reflexivity|]]]].
  apply flux_continuum_log_trapezoid; [exact Hnd|exact Ht|discriminate|reflexivity].
Defined.

(** C8 (counterexample): a component whose type is ["convolution"] is not
    refused: [from_component] builds its graph, only prints
    ["Some components are not working at this stage"], and the model
    construction succeeds. *)
Lemma from_component_convolution_accepted :
  from_component_output (mkComponent "Conv" "convolution" (fun x => x) (fun el eh => (0, 0))) =
    ["Some components are not working at this stage"%string] /\
  exists m, SpectralModel_init [Uid 0; Out]
              (from_component 0 (mkComponent "Conv" "convolution" (fun x => x) (fun el eh => (0, 0))) [])
            = Some m.
Proof. split; [reflexivity|eexists; vm_compute; reflexivity]. Qed.

(** C8: [from_component] never checks the component's type: for every
    component it builds the two-node graph (component, then ["out"]), the
    model built from it initialises, and a type other than additive or
    multiplicative only makes it print a message. *)
Theorem from_component_never_raises : forall u c kw,
  gnodes (from_component u c kw) = [(Uid u, NComponent c (lower (cname c)) kw); (Out, NOut)] /\
  gedges (from_component u c kw) = [(Uid u, Out)] /\
  (exists m, SpectralModel_init [Uid u; Out] (from_component u c kw) = Some m) /\
  from_component_output c =
    if (String.eqb (ctype c) "additive" || String.eqb (ctype c) "multiplicative")%bool
    then [] else ["Some components are not working at this stage"%string].
Proof.
  intros u c kw; split; [reflexivity|split; [reflexivity|split]].
  - unfold SpectralModel_init.
    destruct (flux_model (EComp u c kw) [Uid u; Out] (repeat 1 10) (repeat 1 10) false)
      as (fs & _ & _ & H).
    + constructor; [intros []|constructor].
    + apply from_component_topological.
    + discriminate.
    + reflexivity.
    + change (build (EComp u c kw)) with (from_component u c kw) in H; rewrite H.
      eexists; reflexivity.
  - unfold from_component_output.
    destruct (String.eqb (ctype c) "additive"); [reflexivity|].
    destruct (String.eqb (ctype c) "multiplicative"); reflexivity.
Qed.

(** C9 (counterexample): the decreasing bin [e_low = 2, e_high = 1] is not
    refused: the flux of a model of one additive component (constant
    continuum and line flux 1) on it is returned. *)
Lemma flux_decreasing_bin_accepted :
  exists r, flux [Uid 0; Out]
              (build_namespace [Uid 0; Out] (from_component 0 (mkComponent "Const" "additive" (fun _ => 1) (fun el eh => (1, (el + eh) / 2))) []))
              [2] [1] false = Some r.
Proof. eexists; cbn; reflexivity. Qed.

(** C9: [flux] checks no order on the bins: for a model built from operands
    sharing no node, on any equal-length non-empty bins (decreasing or
    overlapping ones included) it returns one value per bin, which is the
    continuum part alone when the model has no additive root; on empty bins
    it fails ([e_high[-1]] raises [IndexError]). *)
Theorem flux_bins_not_validated : forall E o el eh ef, NoDup (uids E) ->
  is_topological_order (build E) o = true -> eh <> [] ->
  List.length el = List.length eh ->
  (exists r, flux o (build_namespace o (build E)) el eh ef = Some r /\
     List.length r = List.length el /\
     (root_nodes (build E) = [] ->
      r = continuum_flux ef (map (cont_sem E) (el ++ [last eh 0])) el eh)) /\
  flux o (build_namespace o (build E)) [] [] ef = None.
Proof.
  intros E o el eh ef Hnd Ht Hne Hl; split; [|reflexivity].
  destruct (flux_model E o el eh ef Hnd Ht Hne Hl) as (fs & Hfs & Hlf & Hf).
  pose proof (continuum_flux_length ef _ el eh (knots_length E el eh) Hl) as Hlc.
  eexists; split; [exact Hf|split].
  - rewrite length_map2, Hlc, Hlf; lia.
  - intro Hr; rewrite root_nodes_build in Hr by exact Hnd.
    rewrite fine_sem_no_leaves in Hfs by exact Hr; injection Hfs as <-.
    apply map2_plus_zeros; lia.
Qed.

Lemma flux_bins_not_validated_witness :
  NoDup (uids (EComp 0 (Powerlaw 1 1) [])) /\
  is_topological_order (build (EComp 0 (Powerlaw 1 1) [])) [Uid 0; Out] = true /\
  [1] <> [] /\ List.length [2] = List.length [1] /\
  (exists r, flux [Uid 0; Out] (build_namespace [Uid 0; Out] (build (EComp 0 (Powerlaw 1 1) []))) [2] [1] false
               = Some r /\
     List.length r = List.length [2] /\
     (root_nodes (build (EComp 0 (Powerlaw 1 1) [])) = [] ->
      r = continuum_flux false (map (cont_sem (EComp 0 (Powerlaw 1 1) [])) ([2] ++ [last [1] 0])) [2] [1])) /\
  flux [Uid 0; Out] (build_namespace [Uid 0; Out] (build (EComp 0 (Powerlaw 1 1) []))) [] [] false = None.
Proof.
  assert (Hnd : NoDup (uids (EComp 0 (Powerlaw 1 1) []))) by (repeat constructor; simpl; lia).
  assert (Ht : is_topological_order (build (EComp 0 (Powerlaw 1 1) [])) [Uid 0; Out] = true)
    by (vm_compute; reflexivity).
  split; [exact Hnd|split; [exact Ht|split; [discriminate|split; [reflexivity|]]]].
  apply flux_bins_not_validated; [exact Hnd|exact Ht|discriminate|reflexivity].
Defined.

(** C10: the knots of the continuum are [e_low ++ [e_high[-1]]]: the
    trapezoid of bin [i] takes the curve at [e_low[i]] and, for its upper
    end, at [e_low[i+1]] (at [e_high[-1]] for the last bin) while its
    abscissa is [ln e_high[i]]; that upper point is [e_high[i]] for every
    bin exactly when the bins are contiguous. *)
Theorem flux_knots_low_edges : forall E o el eh ef, NoDup (uids E) ->
  is_topological_order (build E) o = true -> eh <> [] ->
  List.length el = List.length eh ->
  exists C fs,
    flux o (build_namespace o (build E)) el eh ef = Some (map2 Rplus C fs) /\
    List.length C = List.length el /\
    (forall i, (i < List.length el)%nat ->
     nth i C 0 =
     if ef
     then trapezoid2 (cont_sem E (nth i el 0) * nth i el 0 ^ 2)
            (cont_sem E (if (S i <? List.length el)%nat then nth (S i) el 0 else nth i eh 0)
             * nth i eh 0 ^ 2)
            (ln (nth i el 0)) (ln (nth i eh 0))
     else trapezoid2 (cont_sem E (nth i el 0) * nth i el 0)
            (cont_sem E (if (S i <? List.length el)%nat then nth (S i) el 0 else nth i eh 0)
             * nth i eh 0)
            (ln (nth i el 0)) (ln (nth i eh 0))) /\
    ((forall i, (i < List.length el)%nat ->
        nth (S i) (el ++ [last eh 0]) 0 = nth i eh 0) <->
     (forall i, (S i < List.length el)%nat -> nth i eh 0 = nth (S i) el 0)).
Proof.
  intros E o el eh ef Hnd Ht Hne Hl.
  destruct (flux_model E o el eh ef Hnd Ht Hne Hl) as (fs & _ & _ & Hf).
  eexists; exists fs; split; [exact Hf|split; [|split]].
  - apply continuum_flux_length; [apply knots_length|exact Hl].
  - intros i Hi; rewrite continuum_flux_nth by (try apply knots_length; assumption).
    rewrite !nth_map_R by (rewrite length_app; simpl; lia).
    rewrite knot_lower, knot_upper by assumption; reflexivity.
  - split; intros H i Hi.
    + specialize (H i ltac:(lia)); rewrite knot_upper in H by (assumption || lia).
      destruct (Nat.ltb_spec (S i) (List.length el)); [symmetry; exact H|lia].
    + rewrite knot_upper by assumption.
      destruct (Nat.ltb_spec (S i) (List.length el)) as [Hs|Hs]; [symmetry; apply H; exact Hs|].
      reflexivity.
Qed.

Lemma flux_knots_low_edges_witness :
  NoDup (uids (EComp 0 (Powerlaw 1 1) [])) /\
  is_topological_order (build (EComp 0 (Powerlaw 1 1) [])) [Uid 0; Out] = true /\
  [2; 4] <> [] /\ List.length [1; 3] = List.length [2; 4] /\
  exists C fs,
    flux [Uid 0; Out] (build_namespace [Uid 0; Out] (build (EComp 0 (Powerlaw 1 1) []))) [1; 3] [2; 4] false
      = Some (map2 Rplus C fs) /\
    List.length C = List.length [1; 3] /\
    (forall i, (i < List.length [1; 3])%nat ->
     nth i C 0 =
     if false
     then trapezoid2 (cont_sem (EComp 0 (Powerlaw 1 1) []) (nth i [1; 3] 0) * nth i [1; 3] 0 ^ 2)
            (cont_sem (EComp 0 (Powerlaw 1 1) [])
               (if (S i <? List.length [1; 3])%nat then nth (S i) [1; 3] 0 else nth i [2; 4] 0)
             * nth i [2; 4] 0 ^ 2)
            (ln (nth i [1; 3] 0)) (ln (nth i [2; 4] 0))
     else trapezoid2 (cont_sem (EComp 0 (Powerlaw 1 1) []) (nth i [1; 3] 0) * nth i [1; 3] 0)
            (cont_sem (EComp 0 (Powerlaw 1 1) [])
               (if (S i <? List.length [1; 3])%nat then nth (S i) [1; 3] 0 else nth i [2; 4] 0)
             * nth i [2; 4] 0)
            (ln (nth i [1; 3] 0)) (ln (nth i [2; 4] 0))) /\
    ((forall i, (i < List.length [1; 3])%nat ->
        nth (S i) ([1; 3] ++ [last [2; 4] 0]) 0 = nth i [2; 4] 0) <->
     (forall i, (S i < List.length [1; 3])%nat -> nth i [2; 4] 0 = nth (S i) [1; 3] 0)).
Proof.
  assert (Hnd : NoDup (uids (EComp 0 (Powerlaw 1 1) []))) by (repeat constructor; simpl; lia).
  assert (Ht : is_topological_order (build (EComp 0 (Powerlaw 1 1) [])) [Uid 0; Out] = true)
    by (vm_compute; reflexivity).
  split; [exact Hnd|split; [exact Ht|split; [discriminate|split; [reflexivity|]]]].
  apply flux_knots_low_edges; [exact Hnd|exact Ht|discriminate|reflexivity].
Defined.

(** * Further properties of the code *)

(** ** Helper lemmas *)

Lemma str_app_assoc : forall a b c : string, ((a ++ b) ++ c = a ++ b ++ c)%string.
Proof. induction a as [|x a IH]; intros b c; simpl; [reflexivity|rewrite IH; reflexivity]. Qed.

Lemma str_length_app : forall a b : string,
  String.length (a ++ b) = (String.length a + String.length b)%nat.
Proof. induction a as [|x a IH]; intro b; simpl; [reflexivity|rewrite IH; reflexivity]. Qed.

Lemma substring_prefix : forall x y : string, substring 0 (String.length x) (x ++ y) = x.
Proof.
  induction x as [|c x IH]; intro y; simpl; [destruct y; reflexivity|rewrite IH; reflexivity].
Qed.

Lemma strip_outer_paren : forall x, strip_outer ("(" ++ x ++ ")") = x.
Proof.
  intro x; unfold strip_outer; cbn [String.append String.length].
  rewrite str_length_app; cbn [String.length].
  replace (S (String.length x + 1) - 2)%nat with (String.length x) by lia.
  cbn [substring]; apply substring_prefix.
Qed.

Lemma lookup_unname : forall v l,
  lookup v (map (fun p => (fst p, unname_node (snd p))) l)
  = option_map unname_node (lookup v l).
Proof.
  intros v l; induction l as [|[k n] l IH]; simpl; [reflexivity|].
  destruct (nid_eqb v k); [reflexivity|exact IH].
Qed.

Lemma predecessors_unname : forall g v, predecessors (unname_graph g) v = predecessors g v.
Proof.
  intros [ns es] v; unfold predecessors, has_edge; simpl.
  induction ns as [|[k n] ns IH]; simpl; [reflexivity|].
  destruct (existsb _ es); simpl; rewrite IH; reflexivity.
Qed.

Lemma unname_set_name : forall g v s, unname_graph (set_name g v s) = unname_graph g.
Proof.
  intros [ns es] v s; unfold unname_graph, set_name; simpl; f_equal.
  rewrite map_map; apply map_ext; intros [k n]; simpl.
  destruct (nid_eqb k v); [destruct n|]; reflexivity.
Qed.

Lemma unname_namespace_loop : forall o ns g,
  unname_graph (namespace_loop o ns g) = unname_graph g.
Proof.
  induction o as [|v o IH]; intros ns g; simpl; [reflexivity|].
  destruct (lookup v (gnodes g)) as [[]|]; rewrite ?IH, ?unname_set_name; reflexivity.
Qed.

Lemma length_unname : forall g, List.length (gnodes (unname_graph g)) = List.length (gnodes g).
Proof. intro g; apply length_map. Qed.

Lemma ids_unname : forall g, map fst (gnodes (unname_graph g)) = map fst (gnodes g).
Proof. intro g; unfold unname_graph; simpl; rewrite map_map; reflexivity. Qed.

Lemma map_option_ext_all : forall {A B : Type} (f h : A -> option B) l,
  (forall x, f x = h x) -> map_option f l = map_option h l.
Proof. intros A B f h l H; induction l as [|x l IH]; simpl; [reflexivity|rewrite H, IH; reflexivity]. Qed.

Lemma build_expression_unname : forall fuel g v,
  build_expression fuel (unname_graph g) v = build_expression fuel g v.
Proof.
  induction fuel as [|f IH]; intros g v; [reflexivity|].
  cbn [build_expression]; rewrite predecessors_unname.
  replace (lookup v (gnodes (unname_graph g))) with (option_map unname_node (lookup v (gnodes g)))
    by (symmetry; apply lookup_unname).
  destruct (lookup v (gnodes g)) as [[c name kw|t fn lab|]|]; simpl; try reflexivity.
  - rewrite (map_option_ext_all _ (build_expression f g)) by (intro; apply IH); reflexivity.
  - destruct (predecessors g v); [reflexivity|apply IH].
Qed.

Lemma to_string_namespace : forall o g, to_string (build_namespace o g) = to_string g.
Proof.
  intros o g; unfold to_string, build_namespace.
  rewrite <- (length_unname (namespace_loop o [] g)), unname_namespace_loop, length_unname.
  rewrite <- (build_expression_unname _ (namespace_loop o [] g)), unname_namespace_loop,
    build_expression_unname; reflexivity.
Qed.

Lemma placed_build_expression : forall s g p fuel, placed g s p ->
  (List.length (uids s) <= fuel)%nat -> build_expression fuel g (root_id s) = Some (render s).
Proof.
  induction s as [u c kw|u op f l a IHa b IHb]; intros g p fuel Hp Hf.
  - destruct fuel as [|fuel]; [simpl in Hf; lia|].
    pose proof (placed_lookup _ _ _ Hp) as HL; cbn [root_id top_node] in HL |- *.
    cbn [build_expression]; rewrite HL; reflexivity.
  - cbn [uids] in Hf; rewrite !length_app in Hf; cbn [List.length] in Hf.
    destruct fuel as [|fuel]; [lia|].
    pose proof (placed_lookup _ _ _ Hp) as HL; cbn [root_id top_node] in HL |- *.
    cbn [build_expression]; rewrite HL, (op_preds _ _ _ _ _ _ _ _ Hp); cbn [map_option].
    rewrite (IHa g (Uid u) fuel (placed_left _ _ _ _ _ _ _ _ Hp)) by lia.
    rewrite (IHb g (Uid u) fuel (placed_right _ _ _ _ _ _ _ _ Hp)) by lia.
    cbn [join render]; rewrite !str_app_assoc; reflexivity.
Qed.

Lemma to_string_build : forall E, NoDup (uids E) ->
  to_string (build E) = Some (strip_outer (render E)).
Proof.
  intros E Hnd; unfold to_string.
  assert (Hlen : List.length (gnodes (build E)) = S (List.length (nodes_of E)))
    by (rewrite gnodes_build by exact Hnd; rewrite length_app; simpl; lia).
  rewrite Hlen; cbn [build_expression].
  rewrite lookup_build_out, out_preds by exact Hnd.
  rewrite (placed_build_expression E (build E) Out) by
    (apply placed_top, Hnd || (rewrite <- (length_map fst (nodes_of E)), ids_uids, length_map; lia)).
  reflexivity.
Qed.

(** ** Extra properties *)

(** X1: for a model [A + B], [A * B] or any [compose] of two operands that
    share no node, [to_string] returns the operands' texts joined by the
    operation label, without outer parentheses: stripping the first and last
    characters removes exactly the parentheses of the top operation.  The
    namespace (whatever order it follows) plays no part. *)
Theorem to_string_composite : forall u op f l a b o,
  NoDup (uids (EOp u op f l a b)) ->
  to_string (build_namespace o (build (EOp u op f l a b))) =
  Some (render a ++ " " ++ l ++ " " ++ render b)%string.
Proof.
  intros u op f l a b o Hnd.
  rewrite to_string_namespace, to_string_build by exact Hnd.
  replace (render (EOp u op f l a b))
    with ("(" ++ (render a ++ " " ++ l ++ " " ++ render b) ++ ")")%string
    by (cbn [render]; rewrite !str_app_assoc; reflexivity).
  rewrite strip_outer_paren; reflexivity.
Qed.

Lemma to_string_composite_witness :
  NoDup (uids (EOp 3 "add" Rplus "+" (EComp 1 (Powerlaw 1 1) []) (EComp 2 (Powerlaw 2 1) []))) /\
  to_string (build_namespace [Uid 1; Uid 2; Uid 3; Out]
    (build (EOp 3 "add" Rplus "+" (EComp 1 (Powerlaw 1 1) []) (EComp 2 (Powerlaw 2 1) [])))) =
  Some (render (EComp 1 (Powerlaw 1 1) []) ++ " " ++ "+" ++ " " ++
        render (EComp 2 (Powerlaw 2 1) []))%string.
Proof.
  assert (Hnd : NoDup (uids (EOp 3 "add" Rplus "+" (EComp 1 (Powerlaw 1 1) []) (EComp 2 (Powerlaw 2 1) []))))
    by (simpl; repeat constructor; simpl; lia).
  split; [exact Hnd|].
  exact (to_string_composite 3 "add" Rplus "+" (EComp 1 (Powerlaw 1 1) [])
           (EComp 2 (Powerlaw 2 1) []) [Uid 1; Uid 2; Uid 3; Out] Hnd).
Defined.

(** X2: [build_namespace] changes nothing but the names of component nodes:
    for any graph and any order, the edges, the node ids and their order,
    the node types, components, kwargs and operations are those of the raw
    graph. *)
Theorem build_namespace_only_names : forall o g,
  unname_graph (build_namespace o g) = unname_graph g.
Proof. intros o g; unfold build_namespace; apply unname_namespace_loop. Qed.

Lemma ostr_eqb_true : forall a s, ostr_eqb a s = true -> a = Some s.
Proof.
  intros [t|] s H; simpl in H; [apply String.eqb_eq in H; subst; reflexivity|discriminate].
Qed.

Lemma in_predecessors : forall g p v, In p (predecessors g v) -> has_edge g p v = true.
Proof.
  intros g p v H; unfold predecessors in H; apply in_map_iff in H as [[k n] [Hk Hin]].
  apply filter_In in Hin as [_ He]; simpl in Hk, He; subst; exact He.
Qed.

(** X3: every node [find_multiplicative_components] returns is a
    multiplicative component, and it reaches the starting node through
    edges whose heads are all ["mul"] operation nodes: the function never
    collects an additive component, nor one seen through an ["add"] node. *)
Theorem find_multiplicative_sound : forall fuel g v m,
  In m (find_multiplicative_components fuel g v) ->
  get_component_type (lookup m (gnodes g)) = Some "multiplicative"%string /\ mul_chain g m v.
Proof.
  induction fuel as [|f IH]; intros g v m H; simpl in H; [contradiction|].
  destruct (ostr_eqb (get_operation_type (lookup v (gnodes g))) "mul") eqn:Ev;
    [|contradiction].
  apply ostr_eqb_true in Ev.
  apply in_flat_map in H as [p [Hp Hm]]; apply in_predecessors in Hp.
  destruct (ostr_eqb (get_component_type (lookup p (gnodes g))) "multiplicative") eqn:Ec.
  - destruct Hm as [<-|[]]; split; [apply ostr_eqb_true, Ec|apply mc_edge; assumption].
  - destruct (ostr_eqb (get_operation_type (lookup p (gnodes g))) "mul"); [|contradiction].
    destruct (IH g p m Hm) as [Hc Hch]; split; [exact Hc|].
    apply (mc_step g m p v); assumption.
Qed.

Lemma find_multiplicative_sound_witness :
  In (Uid 1) (find_multiplicative_components 4
    (build (EOp 3 "mul" Rmult "*" (EComp 1 (mkComponent "Tbabs" "multiplicative" (fun _ => 1) (fun _ _ => (0, 0))) [])
       (EComp 2 (Powerlaw 1 1) []))) (Uid 3)) /\
  get_component_type (lookup (Uid 1) (gnodes
    (build (EOp 3 "mul" Rmult "*" (EComp 1 (mkComponent "Tbabs" "multiplicative" (fun _ => 1) (fun _ _ => (0, 0))) [])
       (EComp 2 (Powerlaw 1 1) []))))) = Some "multiplicative"%string /\
  mul_chain (build (EOp 3 "mul" Rmult "*" (EComp 1 (mkComponent "Tbabs" "multiplicative" (fun _ => 1) (fun _ _ => (0, 0))) [])
       (EComp 2 (Powerlaw 1 1) []))) (Uid 1) (Uid 3).
Proof.
  assert (H : In (Uid 1) (find_multiplicative_components 4
    (build (EOp 3 "mul" Rmult "*" (EComp 1 (mkComponent "Tbabs" "multiplicative" (fun _ => 1) (fun _ _ => (0, 0))) [])
       (EComp 2 (Powerlaw 1 1) []))) (Uid 3))) by (vm_compute; left; reflexivity).
  split; [exact H|].
  exact (find_multiplicative_sound 4 _ (Uid 3) (Uid 1) H).
Defined.

Lemma split_on_nonempty : forall sep s, split_on sep s <> [].
Proof.
  intros sep s; induction s as [|c s IH]; simpl; [discriminate|].
  destruct (split_on sep s); [contradiction|].
  destruct (Ascii.eqb c sep); discriminate.
Qed.

Lemma split_on_no_us : forall s, no_underscore s -> split_on "_"%char s = [s].
Proof.
  induction s as [|c s IH]; simpl; [reflexivity|]; intros [Hc Hs].
  rewrite IH by exact Hs.
  destruct (Ascii.eqb c "_"%char) eqn:E; [apply Ascii.eqb_eq in E; contradiction|reflexivity].
Qed.

Lemma split_on_single : forall s x, split_on "_"%char s = [x] -> no_underscore s.
Proof.
  induction s as [|c s IH]; intros x H; simpl; [exact I|]; simpl in H.
  destruct (split_on "_"%char s) as [|w ws] eqn:E; [discriminate|].
  destruct (Ascii.eqb c "_"%char) eqn:Ec; [discriminate|].
  injection H as Hw Hws; subst ws; split.
  - intro Heq; subst c; rewrite Ascii.eqb_refl in Ec; discriminate.
  - exact (IH w eq_refl).
Qed.

Lemma split_on_app_us : forall a d, no_underscore d ->
  split_on "_"%char (a ++ String "_" d) = split_on "_"%char a ++ [d].
Proof.
  induction a as [|c a IH]; intros d Hd; simpl.
  - rewrite split_on_no_us by exact Hd; reflexivity.
  - rewrite IH by exact Hd.
    destruct (split_on "_"%char a) as [|w ws] eqn:E; [exfalso; exact (split_on_nonempty _ _ E)|].
    simpl; destruct (Ascii.eqb c "_"%char); reflexivity.
Qed.

Lemma map_option_some_iff : forall {A B : Type} (f : A -> option B) l,
  (exists ys, map_option f l = Some ys) <-> (forall x, In x l -> exists y, f x = Some y).
Proof.
  intros A B f l; induction l as [|x l IH]; simpl.
  - split; [intros _ _ []|intros _; exists []; reflexivity].
  - split.
    + intros [ys H]; destruct (f x) as [b|] eqn:Ef; [|discriminate].
      destruct (map_option f l) as [bs|] eqn:El; [|discriminate].
      intros z [<-|Hz]; [exists b; exact Ef|].
      apply IH; [exists bs; reflexivity|exact Hz].
    + intro H; destruct (H x (or_introl eq_refl)) as [y Hy].
      destruct (proj2 IH (fun z Hz => H z (or_intror Hz))) as [ys Hys].
      rewrite Hy, Hys; eexists; reflexivity.
Qed.

Lemma lookup_in_fst : forall {A : Type} v (l : list (nid * A)),
  In v (map fst l) -> exists x, lookup v l = Some x.
Proof.
  intros A v l; induction l as [|[k x] l IH]; simpl; intro H; [contradiction|].
  destruct (nid_eqb v k) eqn:E; [eexists; reflexivity|].
  destruct H as [H|H]; [subst; rewrite nid_eqb_refl in E; discriminate|apply IH, H].
Qed.

Lemma build_namespace_node : forall g o v n,
  is_topological_order g o = true -> lookup v (gnodes g) = Some n ->
  exists k, lookup v (gnodes (build_namespace o g)) =
    Some (match n with
          | NComponent c name kw => NComponent c (name ++ "_" ++ str_nat k) kw
          | x => x end).
Proof.
  intros g o v n Ht Hl.
  pose proof (topological_order_covers _ _ _ _ Ht Hl) as Hin.
  apply in_split in Hin as [pre [post Ho]].
  rewrite (build_namespace_at g o pre v post Ht Ho), Hl.
  destruct n; [eexists; reflexivity|exists 0%nat; reflexivity|exists 0%nat; reflexivity].
Qed.

Lemma mermaid_node_renamed : forall us v n k,
  (exists y, mermaid_node us v
     (match n with
      | NComponent c name kw => NComponent c (name ++ "_" ++ str_nat k) kw
      | x => x end) = Some y) <->
  (forall c name kw, n = NComponent c name kw -> no_underscore name).
Proof.
  intros us v [c name kw|t fn lab|] k; cbn beta iota.
  - unfold mermaid_node.
    change ("_" ++ str_nat k)%string with (String "_" (str_nat k)).
    rewrite split_on_app_us by (unfold str_nat; apply no_underscore_uint).
    split.
    + intros [y Hy] c' name' kw' Heq; injection Heq as <- <- <-.
      destruct (split_on "_"%char name) as [|x [|x' xs]] eqn:E.
      * exfalso; exact (split_on_nonempty _ _ E).
      * exact (split_on_single _ _ E).
      * destruct xs; simpl in Hy; discriminate.
    + intro H; rewrite (split_on_no_us name (H c name kw eq_refl)); simpl.
      eexists; reflexivity.
  - split; [intros _ c name kw Heq; discriminate|intros _; eexists; reflexivity].
  - split; [intros _ c name kw Heq; discriminate|intros _; eexists; reflexivity].
Qed.

(** X4: on a model built from components by [+], [*] or [compose] with
    operands sharing no node, [export_to_mermaid] returns its text exactly
    when no component kind (the lower-case class name) contains ["_"]: the
    namespace appends one ["_<n>"] to each kind, and
    [name, number = attributes["name"].split("_")] raises [ValueError] as
    soon as a kind holds an underscore of its own. *)
Theorem export_to_mermaid_builder : forall us E o, NoDup (uids E) ->
  is_topological_order (build E) o = true ->
  ((exists s, export_to_mermaid us (build_namespace o (build E)) = Some s) <->
   (forall v c name kw, lookup v (gnodes (build E)) = Some (NComponent c name kw) ->
      no_underscore name)).
Proof.
  intros us E o Hnd Ht.
  set (G := build_namespace o (build E)).
  assert (Hids : map fst (gnodes G) = map fst (gnodes (build E))).
  { unfold G, build_namespace.
    rewrite <- (ids_unname (namespace_loop _ _ _)), unname_namespace_loop, ids_unname.
    reflexivity. }
  assert (HndG : NoDup (map fst (gnodes G))) by (rewrite Hids, gnodes_build by exact Hnd; apply NoDup_build_ids, Hnd).
  assert (Hex : (exists s, export_to_mermaid us G = Some s) <->
                (forall p, In p (gnodes G) -> exists y, mermaid_node us (fst p) (snd p) = Some y)).
  { rewrite <- (map_option_some_iff (fun p => mermaid_node us (fst p) (snd p))).
    unfold export_to_mermaid.
    destruct (map_option _ _); split; intros [y Hy]; try discriminate; eexists; reflexivity. }
  rewrite Hex; split.
  - intros H v c name kw Hl.
    destruct (build_namespace_node _ _ _ _ Ht Hl) as [k Hk].
    exact (proj1 (mermaid_node_renamed us v (NComponent c name kw) k)
             (H _ (lookup_some_in _ _ _ Hk)) c name kw eq_refl).
  - intros H [v n'] Hin; cbn [fst snd].
    assert (Hv : In v (map fst (gnodes (build E)))) by (rewrite <- Hids; exact (in_fst _ _ Hin)).
    destruct (lookup_in_fst _ _ Hv) as [n Hn].
    destruct (build_namespace_node _ _ _ _ Ht Hn) as [k Hk].
    fold G in Hk; rewrite (lookup_in_nodup _ _ _ HndG Hin) in Hk; injection Hk as ->.
    apply mermaid_node_renamed; intros c name kw ->; exact (H v c name kw Hn).
Qed.

Lemma export_to_mermaid_builder_witness :
  NoDup (uids (EOp 3 "add" Rplus "+" (EComp 1 (Powerlaw 1 1) []) (EComp 2 (Powerlaw 2 1) []))) /\
  is_topological_order (build (EOp 3 "add" Rplus "+" (EComp 1 (Powerlaw 1 1) []) (EComp 2 (Powerlaw 2 1) [])))
    [Uid 1; Uid 2; Uid 3; Out] = true /\
  ((exists s, export_to_mermaid str_nat (build_namespace [Uid 1; Uid 2; Uid 3; Out]
      (build (EOp 3 "add" Rplus "+" (EComp 1 (Powerlaw 1 1) []) (EComp 2 (Powerlaw 2 1) [])))) = Some s) <->
   (forall v c name kw, lookup v (gnodes (build (EOp 3 "add" Rplus "+" (EComp 1 (Powerlaw 1 1) [])
      (EComp 2 (Powerlaw 2 1) [])))) = Some (NComponent c name kw) -> no_underscore name)).
Proof.
  assert (Hnd : NoDup (uids (EOp 3 "add" Rplus "+" (EComp 1 (Powerlaw 1 1) []) (EComp 2 (Powerlaw 2 1) []))))
    by (simpl; repeat constructor; simpl; lia).
  assert (Ht : is_topological_order (build (EOp 3 "add" Rplus "+" (EComp 1 (Powerlaw 1 1) [])
                 (EComp 2 (Powerlaw 2 1) []))) [Uid 1; Uid 2; Uid 3; Out] = true)
    by (vm_compute; reflexivity).
  split; [exact Hnd|split; [exact Ht|]].
  exact (export_to_mermaid_builder str_nat _ _ Hnd Ht).
Defined.

Lemma nid_eqb_sym : forall a b, nid_eqb a b = nid_eqb b a.
Proof. intros [|x] [|y]; simpl; try reflexivity; apply Nat.eqb_sym. Qed.

Lemma mem_key_lookup : forall v (d : list (nid * string)),
  mem_key v d = match lookup v d with Some _ => true | None => false end.
Proof.
  intros v d; unfold mem_key; induction d as [|[k x] d IH]; simpl; [reflexivity|].
  rewrite nid_eqb_sym; destruct (nid_eqb v k); [reflexivity|exact IH].
Qed.

Lemma lookup_dict_set : forall d k x v,
  lookup v (dict_set d k x) = if nid_eqb v k then Some x else lookup v d.
Proof.
  intros d k x v; unfold dict_set.
  assert (Hm : lookup v (map (fun p => if nid_eqb (fst p) k then (k, x) else p) d)
               = if nid_eqb v k then (if mem_key k d then Some x else None) else lookup v d).
  { induction d as [|[k' y] d IH]; simpl; [destruct (nid_eqb v k); reflexivity|].
    unfold mem_key in *; simpl.
    destruct (nid_eq_dec k' k) as [Hk|Hne].
    - subst k'; rewrite nid_eqb_refl; simpl.
      rewrite IH; destruct (nid_eqb v k); reflexivity.
    - rewrite (nid_eqb_ne _ _ Hne); simpl.
      destruct (nid_eq_dec v k) as [->|Hv].
      + rewrite nid_eqb_refl, (nid_eqb_ne k k') by congruence.
        rewrite IH, nid_eqb_refl; reflexivity.
      + rewrite (nid_eqb_ne _ _ Hv); destruct (nid_eqb v k'); [reflexivity|].
        rewrite IH, (nid_eqb_ne _ _ Hv); reflexivity. }
  destruct (mem_key k d) eqn:Ek; [rewrite Hm; reflexivity|].
  rewrite lookup_app; destruct (nid_eq_dec v k) as [->|Hv].
  - rewrite mem_key_lookup in Ek; destruct (lookup k d); [discriminate|].
    simpl; rewrite nid_eqb_refl; reflexivity.
  - rewrite (nid_eqb_ne _ _ Hv); destruct (lookup v d); [reflexivity|].
    simpl; rewrite (nid_eqb_ne _ _ Hv); reflexivity.
Qed.

Lemma lookup_dict_union : forall a b v,
  lookup v (dict_union a b) = match lookup v b with Some x => Some x | None => lookup v a end.
Proof.
  intros a b v; unfold dict_union; rewrite lookup_app.
  assert (Hm : lookup v (map (fun p => (fst p, match lookup (fst p) b with
                                               | Some x => x | None => snd p end)) a)
               = option_map (fun y => match lookup v b with Some x => x | None => y end)
                            (lookup v a)).
  { induction a as [|[k y] a IH]; simpl; [reflexivity|].
    destruct (nid_eqb v k) eqn:E; [apply nid_eqb_eq in E; subst; reflexivity|exact IH]. }
  assert (Hf : lookup v (filter (fun p => negb (mem_key (fst p) a)) b)
               = if mem_key v a then None else lookup v b).
  { clear Hm; induction b as [|[k y] b IH]; simpl; [destruct (mem_key v a); reflexivity|].
    destruct (nid_eq_dec v k) as [->|Hv].
    - destruct (mem_key k a); simpl; [exact IH|rewrite nid_eqb_refl; reflexivity].
    - rewrite (nid_eqb_ne _ _ Hv).
      destruct (mem_key k a); simpl; [exact IH|rewrite (nid_eqb_ne _ _ Hv); exact IH]. }
  rewrite Hm, Hf, mem_key_lookup.
  destruct (lookup v a) as [y|]; simpl; destruct (lookup v b); reflexivity.
Qed.

(** X5: the [labels] dictionary a model built by [from_component], [+],
    [*] or [compose] (operands sharing no node) carries has exactly the
    nodes of its raw graph as keys, and maps each to the component's
    lower-case name, the operation type, or ["out"] for the sink. *)
Theorem build_labels_nodes : forall E, NoDup (uids E) -> forall v,
  lookup v (build_labels E) = option_map node_label (lookup v (gnodes (build E))).
Proof.
  induction E as [u c kw|u op f l a IHa b IHb]; intros Hnd v.
  - simpl; destruct (nid_eqb v (Uid u)); [reflexivity|]; destruct (nid_eqb v Out); reflexivity.
  - destruct (wf_op _ _ _ _ _ _ Hnd) as (Ha & Hb & _).
    destruct (op_facts _ _ _ _ _ _ Hnd) as (Hab & Hua & Hub).
    cbn [build_labels]; unfold compose_labels.
    rewrite lookup_dict_set, lookup_dict_union, (IHa Ha), (IHb Hb).
    rewrite !gnodes_build by assumption; cbn [nodes_of]; rewrite !lookup_app; cbn [lookup].
    destruct (nid_eqb v (Uid u)) eqn:Eu.
    + apply nid_eqb_eq in Eu; subst v; rewrite (lookup_notin (Uid u) (nodes_of a) Hua); reflexivity.
    + destruct (lookup v (nodes_of a)) as [n|] eqn:Ea.
      * assert (Hva : In v (map fst (nodes_of a))) by exact (in_fst _ _ (lookup_some_in _ _ _ Ea)).
        rewrite (lookup_notin v (nodes_of b)) by exact (Hab v Hva).
        assert (Hvo : v <> Out) by (intros ->; exact (out_not_in_ids a Hva)).
        rewrite (nid_eqb_ne _ _ Hvo); reflexivity.
      * destruct (lookup v (nodes_of b)); [reflexivity|].
        destruct (nid_eqb v Out); reflexivity.
Qed.

Lemma build_labels_nodes_witness :
  NoDup (uids (EOp 3 "add" Rplus "+" (EComp 1 (Powerlaw 1 1) []) (EComp 2 (Powerlaw 2 1) []))) /\
  forall v, lookup v (build_labels (EOp 3 "add" Rplus "+" (EComp 1 (Powerlaw 1 1) []) (EComp 2 (Powerlaw 2 1) [])))
    = option_map node_label (lookup v (gnodes (build
        (EOp 3 "add" Rplus "+" (EComp 1 (Powerlaw 1 1) []) (EComp 2 (Powerlaw 2 1) []))))).
Proof.
  assert (Hnd : NoDup (uids (EOp 3 "add" Rplus "+" (EComp 1 (Powerlaw 1 1) []) (EComp 2 (Powerlaw 2 1) []))))
    by (simpl; repeat constructor; simpl; lia).
  split; [exact Hnd|].
  exact (build_labels_nodes _ Hnd).
Defined.

Lemma sources_perm : forall e,
  Permutation (map fst (edges_of e) ++ [root_id e]) (map fst (nodes_of e)).
Proof.
  induction e as [u c kw|u op f l a IHa b IHb]; [apply Permutation_refl|].
  cbn [edges_of nodes_of root_id]; rewrite !map_app; cbn [map fst].
  replace ((map fst (edges_of a) ++ [root_id a] ++ map fst (edges_of b) ++ [root_id b]) ++ [Uid u])
    with ((map fst (edges_of a) ++ [root_id a]) ++ (map fst (edges_of b) ++ [root_id b]) ++ [Uid u])
    by (rewrite <- !app_assoc; reflexivity).
  apply Permutation_trans with (map fst (nodes_of a) ++ map fst (nodes_of b) ++ [Uid u]).
  - apply Permutation_app; [exact IHa|apply Permutation_app_tail; exact IHb].
  - apply Permutation_app_head; apply Permutation_sym, Permutation_cons_append.
Qed.

Lemma successors_unique : forall (l : list (nid * nid)) v p, NoDup (map fst l) -> In (v, p) l ->
  map snd (filter (fun e => nid_eqb (fst e) v) l) = [p].
Proof.
  induction l as [|[x y] l IH]; simpl; intros v p Hnd Hin; [contradiction|].
  inversion Hnd as [|? ? Hx Hl]; subst.
  destruct Hin as [Heq|Hin].
  - injection Heq as -> ->; rewrite nid_eqb_refl; simpl.
    rewrite filter_none; [reflexivity|].
    intros [x' y'] Hi; apply nid_eqb_ne; intro; subst; exact (Hx (in_fst _ _ Hi)).
  - destruct (nid_eqb x v) eqn:E; [|apply IH; assumption].
    apply nid_eqb_eq in E; subst x; exfalso; exact (Hx (in_fst _ _ Hin)).
Qed.

(** X6: a model built from components by [+], [*] or [compose] (operands
    sharing no node) is an in-tree towards ["out"]: the sink has no
    successor, every other node has exactly one, and the graph has one edge
    fewer than nodes.  So the path [nx.shortest_path] takes from any node to
    ["out"] is the only one. *)
Theorem built_successors : forall E, NoDup (uids E) ->
  successors (build E) Out = [] /\
  (forall v, In v (map fst (gnodes (build E))) -> v <> Out ->
     exists p, successors (build E) v = [p]) /\
  List.length (gnodes (build E)) = S (List.length (gedges (build E))).
Proof.
  intros E Hnd; rewrite (build_shape E Hnd); unfold successors; cbn [gnodes gedges].
  assert (HS : Permutation (map fst (edges_of E ++ [(root_id E, Out)])) (map fst (nodes_of E)))
    by (rewrite map_app; exact (sources_perm E)).
  assert (HN : NoDup (map fst (nodes_of E))) by (rewrite ids_uids; apply NoDup_map_Uid, Hnd).
  split; [|split].
  - rewrite filter_none; [reflexivity|].
    intros [x y] Hi; apply nid_eqb_ne; intro Heq; simpl in Heq; subst x.
    apply (out_not_in_ids E), (Permutation_in _ HS), (in_fst _ _ Hi).
  - intros v Hv Hvo; rewrite map_app in Hv; apply in_app_or in Hv as [Hv|[Hv|[]]];
      [|symmetry in Hv; contradiction].
    apply (Permutation_in _ (Permutation_sym HS)), in_map_iff in Hv as [[x p] [Hx Hin]].
    simpl in Hx; subst x; exists p.
    apply successors_unique; [exact (Permutation_NoDup (Permutation_sym HS) HN)|exact Hin].
  - rewrite length_app, <- (length_map fst (edges_of E ++ _)), (Permutation_length HS), length_map.
    simpl; lia.
Qed.

Lemma built_successors_witness :
  NoDup (uids (EOp 3 "add" Rplus "+" (EComp 1 (Powerlaw 1 1) []) (EComp 2 (Powerlaw 2 1) []))) /\
  successors (build (EOp 3 "add" Rplus "+" (EComp 1 (Powerlaw 1 1) []) (EComp 2 (Powerlaw 2 1) []))) Out = [] /\
  (forall v, In v (map fst (gnodes (build (EOp 3 "add" Rplus "+" (EComp 1 (Powerlaw 1 1) [])
                                              (EComp 2 (Powerlaw 2 1) []))))) -> v <> Out ->
     exists p, successors (build (EOp 3 "add" Rplus "+" (EComp 1 (Powerlaw 1 1) [])
                                   (EComp 2 (Powerlaw 2 1) []))) v = [p]) /\
  List.length (gnodes (build (EOp 3 "add" Rplus "+" (EComp 1 (Powerlaw 1 1) []) (EComp 2 (Powerlaw 2 1) [])))) =
  S (List.length (gedges (build (EOp 3 "add" Rplus "+" (EComp 1 (Powerlaw 1 1) []) (EComp 2 (Powerlaw 2 1) []))))).
Proof.
  assert (Hnd : NoDup (uids (EOp 3 "add" Rplus "+" (EComp 1 (Powerlaw 1 1) []) (EComp 2 (Powerlaw 2 1) []))))
    by (simpl; repeat constructor; simpl; lia).
  split; [exact Hnd|].
  exact (built_successors _ Hnd).
Defined.

Lemma comp_sub : forall e v c name kw, In (v, NComponent c name kw) (nodes_of e) ->
  exists u, v = Uid u /\ subexpr (EComp u c kw) e.
Proof.
  induction e as [u c' kw'|u op f l a IHa b IHb]; intros v c name kw H; simpl in H.
  - destruct H as [H|[]]; injection H as Hv Hc _ Hk; subst.
    exists u; split; [reflexivity|constructor].
  - apply in_app_or in H as [H|[H|H]].
    + destruct (IHa _ _ _ _ H) as (x & -> & Hs); exists x; split; [reflexivity|apply sub_left, Hs].
    + discriminate H.
    + destruct (IHb _ _ _ _ H) as (x & -> & Hs); exists x; split; [reflexivity|apply sub_right, Hs].
Qed.

(** X7: in a model built by the public builder (operands sharing no node)
    the in-degree test of [root_nodes] excludes nothing: the roots are all
    the additive component nodes, in node order. *)
Theorem root_nodes_all_additive : forall E, NoDup (uids E) ->
  root_nodes (build E) =
  map fst (filter (fun p => ostr_eqb (get_component_type (Some (snd p))) "additive"%string)
                  (gnodes (build E))).
Proof.
  intros E Hnd; unfold root_nodes; f_equal; apply filter_ext_in; intros [v n] Hin; cbn [fst snd].
  destruct n as [c name kw| |]; cbn [get_component_type ostr_eqb];
    [|rewrite andb_false_r; reflexivity|rewrite andb_false_r; reflexivity].
  assert (Hin' : In (v, NComponent c name kw) (nodes_of E)).
  { rewrite gnodes_build in Hin by exact Hnd; apply in_app_or in Hin as [Hin|[Hin|[]]];
      [exact Hin|discriminate Hin]. }
  destruct (comp_sub _ _ _ _ _ Hin') as (u & -> & Hs).
  destruct (placed_sub _ _ _ _ (placed_top E Hnd) Hs) as [q Hq].
  unfold in_degree; rewrite (leaf_no_preds _ _ _ _ _ Hq); reflexivity.
Qed.

Lemma root_nodes_all_additive_witness :
  NoDup (uids (EOp 3 "add" Rplus "+" (EComp 1 (Powerlaw 1 1) []) (EComp 2 (Powerlaw 2 1) []))) /\
  root_nodes (build (EOp 3 "add" Rplus "+" (EComp 1 (Powerlaw 1 1) []) (EComp 2 (Powerlaw 2 1) []))) =
  map fst (filter (fun p => ostr_eqb (get_component_type (Some (snd p))) "additive"%string)
    (gnodes (build (EOp 3 "add" Rplus "+" (EComp 1 (Powerlaw 1 1) []) (EComp 2 (Powerlaw 2 1) []))))).
Proof.
  assert (Hnd : NoDup (uids (EOp 3 "add" Rplus "+" (EComp 1 (Powerlaw 1 1) []) (EComp 2 (Powerlaw 2 1) []))))
    by (simpl; repeat constructor; simpl; lia).
  split; [exact Hnd|].
  exact (root_nodes_all_additive _ Hnd).
Defined.

Lemma map2_plus_scale : forall k (a b : list R),
  map2 Rplus (map (Rmult k) a) (map (Rmult k) b) = map (Rmult k) (map2 Rplus a b).
Proof.
  intros k a; induction a as [|x a IH]; intros [|y b]; try reflexivity.
  rewrite !map_cons, !map2_cons, map_cons, IH; f_equal; ring.
Qed.

Lemma map2_mult_scale : forall k (h : R -> R) (a me : list R),
  map2 (fun x e => x * h e) (map (Rmult k) a) me = map (Rmult k) (map2 (fun x e => x * h e) a me).
Proof.
  intros k h a; induction a as [|x a IH]; intros [|e me]; try reflexivity.
  rewrite map_cons, !map2_cons, map_cons, IH; f_equal; ring.
Qed.

Lemma map2_mult_const : forall k (h : R -> R) (a me : list R), (forall e, h e = k) ->
  List.length a = List.length me -> map2 (fun x e => x * h e) a me = map (Rmult k) a.
Proof.
  intros k h a; induction a as [|x a IH]; intros [|e me] Hh Hl; try reflexivity; try discriminate.
  rewrite map2_cons, map_cons, IH by (exact Hh || (simpl in Hl; lia)); rewrite Hh; f_equal; ring.
Qed.

Lemma apply_multiplicative_cons : forall rt m ms c a me, lookup m rt = Some c ->
  apply_multiplicative rt (m :: ms) a me =
  apply_multiplicative rt ms (map2 (fun x e => x * continuum c e) a me) me.
Proof. intros rt m ms c a me H; unfold apply_multiplicative; simpl; rewrite H; reflexivity. Qed.

Lemma apply_multiplicative_scale : forall rt ms k a me,
  apply_multiplicative rt ms (map (Rmult k) a) me =
  option_map (map (Rmult k)) (apply_multiplicative rt ms a me).
Proof.
  intros rt ms k a me; unfold apply_multiplicative.
  change (Some (map (Rmult k) a)) with (option_map (map (Rmult k)) (Some a)).
  generalize (Some a); induction ms as [|m ms IH]; intro acc; [reflexivity|].
  simpl; destruct acc as [a'|]; simpl; [|exact (IH None)].
  destruct (lookup m rt) as [c|]; [|exact (IH None)].
  rewrite map2_mult_scale; exact (IH (Some _)).
Qed.

Lemma combine_map_l : forall {A B C : Type} (f : A -> C) (l1 : list A) (l2 : list B),
  combine (map f l1) l2 = map (fun p => (f (fst p), snd p)) (combine l1 l2).
Proof.
  intros A B C f l1; induction l1 as [|x l1 IH]; intros [|y l2]; simpl; try reflexivity.
  rewrite IH; reflexivity.
Qed.

Lemma trapezoid_scale : forall k fc (L : list (R * R)),
  map (fun p => let '(x, (el, eh)) := p in trapezoid2 (x * el) (x * eh) (ln el) (ln eh))
      (combine (map (Rmult k) fc) L) =
  map (Rmult k) (map (fun p => let '(x, (el, eh)) := p in
                               trapezoid2 (x * el) (x * eh) (ln el) (ln eh))
                     (combine fc L)).
Proof.
  intros k fc L; rewrite combine_map_l, !map_map; apply map_ext.
  intros [x [a b]]; simpl; unfold trapezoid2; ring.
Qed.

Lemma continuum_flux_scale : forall ef k F el eh,
  continuum_flux ef (map (Rmult k) F) el eh = map (Rmult k) (continuum_flux ef F el eh).
Proof.
  intros ef k F; induction F as [|x F IH]; intros el eh; [reflexivity|].
  destruct F as [|x' F]; [reflexivity|].
  destruct el as [|l0 el]; [rewrite !continuum_flux_nil_l; reflexivity|].
  destruct eh as [|h0 eh]; [reflexivity|].
  rewrite !map_cons, !continuum_flux_cons, map_cons; f_equal.
  - destruct ef; unfold trapezoid2; ring.
  - exact (IH el eh).
Qed.

Lemma fine_fold_scale : forall (F1 F2 : nid -> option (list R)) k L z,
  (forall r, In r L -> F1 r = option_map (map (Rmult k)) (F2 r)) ->
  fold_left (fun acc r => match acc, F1 r with
                          | Some a, Some l => Some (map2 Rplus a l)
                          | _, _ => None end) L (Some (map (Rmult k) z))
  = option_map (map (Rmult k))
      (fold_left (fun acc r => match acc, F2 r with
                               | Some a, Some l => Some (map2 Rplus a l)
                               | _, _ => None end) L (Some z)).
Proof.
  intros F1 F2 k L; induction L as [|r L IH]; intros z H; simpl; [reflexivity|].
  rewrite (H r (or_introl eq_refl)); destruct (F2 r) as [l|]; simpl.
  - rewrite map2_plus_scale; apply IH; intros; apply H; right; assumption.
  - rewrite !fine_fold_none; reflexivity.
Qed.

Lemma mult_child_leaf_nil : forall A r, In r (add_leaves A) ->
  get_operation_type (Some (top_node A)) <> Some "mul"%string -> mult_child A (find_sem A) = [].
Proof.
  intros [u c kw|u op f l a b] r Hr Hop; simpl in Hr |- *.
  - destruct (String.eqb (ctype c) "additive") eqn:E; [|contradiction].
    apply String.eqb_eq in E; rewrite E; reflexivity.
  - destruct (String.eqb op "mul") eqn:E; [|reflexivity].
    apply String.eqb_eq in E; subst; exfalso; apply Hop; reflexivity.
Qed.

Lemma line_flux_sem_mul_const : forall u m K kw A k ef el eh r,
  NoDup (uids (EOp u "mul"%string Rmult "*"%string (EComp m K kw) A)) ->
  ctype K = "multiplicative"%string -> (forall x, continuum K x = k) ->
  get_operation_type (Some (top_node A)) <> Some "mul"%string ->
  In r (add_leaves A) ->
  line_flux_sem (EOp u "mul"%string Rmult "*"%string (EComp m K kw) A) ef el eh r
  = option_map (map (Rmult k)) (line_flux_sem A ef el eh r).
Proof.
  intros u m K kw A k ef el eh r Hnd HK Hk Hop Hr.
  destruct (wf_op _ _ _ _ _ _ Hnd) as (_ & Ha & _ & _ & Hd).
  assert (HmA : forall w, In w (map fst (nodes_of A)) -> w <> Uid m).
  { intros w Hw ->; apply in_ids in Hw as [x [Hx Hin]]; injection Hx as <-.
    exact (Hd m (or_introl eq_refl) Hin). }
  destruct (add_leaves_sub A r Hr) as (u' & c & kw' & -> & Hs).
  pose proof (HmA _ (leaf_in_ids _ _ _ _ Hs)) as Hu'.
  assert (Hp : path_subs (EOp u "mul"%string Rmult "*"%string (EComp m K kw) A) (Uid u')
               = path_subs A (Uid u') ++ [EOp u "mul"%string Rmult "*"%string (EComp m K kw) A]).
  { change (path_subs (EOp u "mul"%string Rmult "*"%string (EComp m K kw) A) (Uid u'))
      with (match (if nid_eqb (Uid u') (Uid m) then [EComp m K kw] else []) with
            | [] => match path_subs A (Uid u') with
                    | [] => []
                    | p => p ++ [EOp u "mul"%string Rmult "*"%string (EComp m K kw) A] end
            | p => p ++ [EOp u "mul"%string Rmult "*"%string (EComp m K kw) A] end).
    rewrite (nid_eqb_ne _ _ Hu').
    pose proof (leaves_path A _ Hr) as Hn; destruct (path_subs A (Uid u')); [contradiction|].
    reflexivity. }
  assert (Hf : find_sem (EOp u "mul"%string Rmult "*"%string (EComp m K kw) A) = [Uid m]).
  { change (find_sem (EOp u "mul"%string Rmult "*"%string (EComp m K kw) A))
      with (if String.eqb "mul" "mul" then mult_child (EComp m K kw) (find_sem (EComp m K kw))
               ++ mult_child A (find_sem A) else []).
    rewrite (mult_child_leaf_nil A _ Hr Hop); unfold mult_child; rewrite HK; reflexivity. }
  unfold line_flux_sem.
  change (rt_of (EOp u "mul"%string Rmult "*"%string (EComp m K kw) A))
    with ((Uid m, K) :: rt_of A).
  change (lookup (Uid u') ((Uid m, K) :: rt_of A))
    with (if nid_eqb (Uid u') (Uid m) then Some K else lookup (Uid u') (rt_of A)).
  rewrite (nid_eqb_ne _ _ Hu').
  pose proof (lookup_rt_of_top A _ Ha Hs) as Hc; simpl root_id in Hc; rewrite Hc.
  rewrite Hp, rev_app_distr; simpl rev at 1; cbn [flat_map app]; rewrite Hf; cbn [app].
  rewrite (apply_multiplicative_cons _ (Uid m) _ K)
    by (cbn [lookup]; rewrite nid_eqb_refl; reflexivity).
  rewrite (map2_mult_const k (continuum K)) by (exact Hk || (rewrite !length_map; reflexivity)).
  rewrite apply_multiplicative_scale.
  rewrite (apply_multiplicative_ext_in _ (rt_of A)).
  - destruct (apply_multiplicative (rt_of A) _ _ _) as [fc|]; simpl; [|reflexivity].
    destruct ef; [rewrite trapezoid_scale|]; reflexivity.
  - intros m' Hm'; destruct (mult_nodes_leaf _ _ _ Hm') as (u'' & c'' & kw'' & -> & Hs').
    cbn [lookup]; rewrite (nid_eqb_ne _ _ (HmA _ (leaf_in_ids _ _ _ _ Hs'))); reflexivity.
Qed.

(** X8: multiplying a model [A] by a multiplicative component whose
    continuum is a constant [k] ([K() * A], operands sharing no node)
    multiplies its flux by [k], bin by bin, in photon and in energy flux,
    provided the top node of [A] is not itself a ["mul"] operation (there,
    [find_multiplicative_components] collects the absorbers of [A] a second
    time for the line fluxes). *)
Theorem flux_mul_constant : forall u m K kw A k o1 o2 el eh ef,
  NoDup (uids (EOp u "mul"%string Rmult "*"%string (EComp m K kw) A)) ->
  ctype K = "multiplicative"%string -> (forall x, continuum K x = k) ->
  get_operation_type (Some (top_node A)) <> Some "mul"%string ->
  is_topological_order (build (EOp u "mul"%string Rmult "*"%string (EComp m K kw) A)) o1 = true ->
  is_topological_order (build A) o2 = true ->
  eh <> [] -> List.length el = List.length eh ->
  flux o1 (build_namespace o1 (build (EOp u "mul"%string Rmult "*"%string (EComp m K kw) A)))
       el eh ef
  = option_map (map (Rmult k)) (flux o2 (build_namespace o2 (build A)) el eh ef).
Proof.
  intros u m K kw A k o1 o2 el eh ef Hnd HK Hk Hop Ht1 Ht2 Hne Hl.
  destruct (wf_op _ _ _ _ _ _ Hnd) as (_ & Ha & _).
  destruct (flux_model _ o1 el eh ef Hnd Ht1 Hne Hl) as (fs1 & Hfs1 & _ & ->).
  destruct (flux_model A o2 el eh ef Ha Ht2 Hne Hl) as (fs2 & Hfs2 & _ & ->).
  cbn [option_map]; f_equal.
  assert (Hfine : fine_sem (EOp u "mul"%string Rmult "*"%string (EComp m K kw) A) ef el eh
                  = option_map (map (Rmult k)) (fine_sem A ef el eh)).
  { unfold fine_sem.
    change (add_leaves (EOp u "mul"%string Rmult "*"%string (EComp m K kw) A))
      with (add_leaves (EComp m K kw) ++ add_leaves A).
    replace (add_leaves (EComp m K kw)) with (@nil nid) by (simpl; rewrite HK; reflexivity).
    rewrite app_nil_l.
    replace (map (fun _ : R => 0) el) with (map (Rmult k) (map (fun _ : R => 0) el)) at 1
      by (rewrite map_map; apply map_ext; intro; ring).
    apply fine_fold_scale; intros r Hr; apply line_flux_sem_mul_const; assumption. }
  rewrite Hfs1, Hfs2 in Hfine; injection Hfine as ->.
  replace (map (cont_sem (EOp u "mul"%string Rmult "*"%string (EComp m K kw) A)) (el ++ [last eh 0]))
    with (map (Rmult k) (map (cont_sem A) (el ++ [last eh 0])))
    by (rewrite map_map; apply map_ext; intro x; simpl; rewrite Hk; reflexivity).
  rewrite continuum_flux_scale, map2_plus_scale; reflexivity.
Qed.

Lemma flux_mul_constant_witness :
  NoDup (uids (EOp 3 "mul" Rmult "*" (EComp 1 (mkComponent "Constant" "multiplicative" (fun _ => 2) (fun _ _ => (0, 0))) []) (EComp 2 (Powerlaw 1 1) []))) /\
  ctype (mkComponent "Constant" "multiplicative" (fun _ => 2) (fun _ _ => (0, 0))) = "multiplicative"%string /\ (forall x, continuum (mkComponent "Constant" "multiplicative" (fun _ => 2) (fun _ _ => (0, 0))) x = 2) /\
  get_operation_type (Some (top_node (EComp 2 (Powerlaw 1 1) []))) <> Some "mul"%string /\
  is_topological_order (build (EOp 3 "mul" Rmult "*" (EComp 1 (mkComponent "Constant" "multiplicative" (fun _ => 2) (fun _ _ => (0, 0))) []) (EComp 2 (Powerlaw 1 1) [])))
    [Uid 1; Uid 2; Uid 3; Out] = true /\
  is_topological_order (build (EComp 2 (Powerlaw 1 1) [])) [Uid 2; Out] = true /\
  [2; 3] <> [] /\ List.length [1; 2] = List.length [2; 3] /\
  flux [Uid 1; Uid 2; Uid 3; Out] (build_namespace [Uid 1; Uid 2; Uid 3; Out]
    (build (EOp 3 "mul" Rmult "*" (EComp 1 (mkComponent "Constant" "multiplicative" (fun _ => 2) (fun _ _ => (0, 0))) []) (EComp 2 (Powerlaw 1 1) [])))) [1; 2] [2; 3] true
  = option_map (map (Rmult 2))
      (flux [Uid 2; Out] (build_namespace [Uid 2; Out] (build (EComp 2 (Powerlaw 1 1) []))) [1; 2] [2; 3] true).
Proof.
  assert (Hnd : NoDup (uids (EOp 3 "mul" Rmult "*" (EComp 1 (mkComponent "Constant" "multiplicative" (fun _ => 2) (fun _ _ => (0, 0))) []) (EComp 2 (Powerlaw 1 1) []))))
    by (simpl; repeat constructor; simpl; lia).
  assert (HK : ctype (mkComponent "Constant" "multiplicative" (fun _ => 2) (fun _ _ => (0, 0))) = "multiplicative"%string) by reflexivity.
  assert (Hk : forall x, continuum (mkComponent "Constant" "multiplicative" (fun _ => 2) (fun _ _ => (0, 0))) x = 2) by (intro; reflexivity).
  assert (Hop : get_operation_type (Some (top_node (EComp 2 (Powerlaw 1 1) []))) <> Some "mul"%string)
    by discriminate.
  assert (Ht1 : is_topological_order (build (EOp 3 "mul" Rmult "*" (EComp 1 (mkComponent "Constant" "multiplicative" (fun _ => 2) (fun _ _ => (0, 0))) [])
                  (EComp 2 (Powerlaw 1 1) []))) [Uid 1; Uid 2; Uid 3; Out] = true)
    by (vm_compute; reflexivity).
  assert (Ht2 : is_topological_order (build (EComp 2 (Powerlaw 1 1) [])) [Uid 2; Out] = true)
    by (vm_compute; reflexivity).
  assert (Hne : [2; 3] <> []) by discriminate.
  assert (Hl : List.length [1; 2] = List.length [2; 3]) by reflexivity.
  do 8 (split; [assumption|]).
  exact (flux_mul_constant 3 1 (mkComponent "Constant" "multiplicative" (fun _ => 2) (fun _ _ => (0, 0))) [] (EComp 2 (Powerlaw 1 1) []) 2 _ _ [1; 2] [2; 3] true
           Hnd HK Hk Hop Ht1 Ht2 Hne Hl).
Defined.

